(** * upb/util/def_to_proto.c: schema definitions to descriptor protos

    A shallow embedding of the reflection-to-descriptor converter of
    [Plugins/GMP/Source/GMP/ThirdParty/upb/util/def_to_proto.c].

    - C [char] data is a [list byte]; integer values of characters are [Z].
    - The arena is the sequence of outcomes of its future allocator calls.
    - A converter is a computation over the arena that either finishes with
      a value, leaves through [UPB_LONGJMP], or runs into behaviour the C
      code leaves undefined (a store through a null slot array, a failed
      [UPB_ASSERT], [UPB_UNREACHABLE]). *)

From Stdlib Require Import ZArith List String Ascii Bool Lia.
From Stdlib Require Import Strings.Byte.
From Stdlib Require Import Floats.SpecFloat.
From stdpp Require Import list.

Import ListNotations.
Local Open Scope Z_scope.

(** ** Arena and the conversion context *)

(** Modelled from the spec: the arena capability ([upb_Arena_Malloc] is not
    defined in def_to_proto.c).  [allocate(size) -> bytes-or-failure]: the arena is
    the list of outcomes of the allocator calls still to come, [true] for a
    block and [false] for a null pointer; once the list is used up every
    call succeeds. *)
Definition upb_Arena := list bool.

(** Behaviour the C code does not define. *)
Inductive fault : Type :=
| NullStore        (* [slots[i] = v] with [slots == NULL] *)
| NullDeref        (* accessor called on a null def *)
| BufferOverrun    (* [*dst++ = c] beyond the allocated block *)
| AssertFailed     (* [UPB_ASSERT] *)
| Unreachable.     (* [UPB_UNREACHABLE] *)

Inductive outcome (A : Type) : Type :=
| Done (a : A) (arena : upb_Arena)
| LongJmp                       (* [UPB_LONGJMP(ctx->err, 1)] *)
| Fault (f : fault).

Arguments Done {A} a arena.
Arguments LongJmp {A}.
Arguments Fault {A} f.

(** A converter running in a [upb_ToProto_Context]: the context's arena is
    the state, its [jmp_buf] is the [LongJmp] outcome. *)
Definition M (A : Type) : Type := upb_Arena -> outcome A.

Definition ret {A} (a : A) : M A := fun arena => Done a arena.

Definition bind {A B} (m : M A) (k : A -> M B) : M B :=
  fun arena =>
    match m arena with
    | Done a arena' => k a arena'
    | LongJmp => LongJmp
    | Fault f => Fault f
    end.

Definition raise {A} (f : fault) : M A := fun _ => Fault f.

Notation "x <- m ;; k" := (bind m (fun x => k))
  (at level 100, m at next level, right associativity).
Notation "m ;;; k" := (bind m (fun _ => k))
  (at level 100, right associativity).

(** One allocator call: the pointer is null ([false]) or not. *)
Definition upb_Arena_Malloc : M bool :=
  fun arena =>
    match arena with
    | [] => Done true []
    | ok :: arena' => Done ok arena'
    end.

(** [#define CHK_OOM(val) if (!(val)) UPB_LONGJMP(ctx->err, 1);] *)
Definition CHK_OOM (val : bool) : M unit :=
  fun arena => if val then Done tt arena else LongJmp.

(** ** String views *)

(** Where the bytes a [upb_StringView] points to live. *)
Inductive storage : Type :=
| InArena        (* a block handed out by [ctx->arena] *)
| InDefPool.     (* memory of the source schema model *)

(** [upb_StringView]: [data] is the pointer (its storage and the bytes it
    points to), [size] is their number. *)
Record upb_StringView : Type := {
  data_storage : storage;
  data : list byte
}.

Definition size (str : upb_StringView) : nat := length (data str).

(** A view of a C string owned by the caller (a def's name, a literal). *)
Definition view_of (s : string) : upb_StringView :=
  {| data_storage := InDefPool; data := list_byte_of_string s |}.

Definition strviewdup2 (str : upb_StringView) : M upb_StringView :=
  p <- upb_Arena_Malloc ;;
  CHK_OOM p ;;;
  (* memcpy(p, str.data, str.size) *)
  ret {| data_storage := InArena; data := data str |}.

Definition strviewdup (s : string) : M upb_StringView :=
  strviewdup2 (view_of s).

Definition qual_dup (s : string) : M upb_StringView :=
  let n := String.length s in
  p <- upb_Arena_Malloc ;;
  CHK_OOM p ;;;
  (* p[0] = '.'; memcpy(p + 1, s, n); size n + 1 *)
  ret {| data_storage := InArena;
         data := "."%byte :: firstn n (list_byte_of_string s) |}.

(** ** Characters *)

(** The value of a byte read as [unsigned char]. *)
Definition uchar_val (b : byte) : Z := Z.of_N (Byte.to_N b).

(** The byte left in memory by storing the integer [z] into a [char]. *)
Definition to_byte (z : Z) : byte :=
  match Byte.of_N (Z.to_N (z mod 256)) with
  | Some b => b
  | None => x00
  end.

(** A character constant. *)
Definition lit (b : byte) : Z := uchar_val b.

Definition upb_isprint (ch : Z) : bool := (0x20 <=? ch) && (ch <=? 0x7f).

Definition special_escape (ch : Z) : Z :=
  if ch =? lit x0a then lit "n"          (* newline *)
  else if ch =? lit x0d then lit "r"     (* carriage return *)
  else if ch =? lit x09 then lit "t"     (* tab *)
  else if ch =? lit x5c then lit x5c     (* backslash *)
  else if ch =? lit x27 then lit x27     (* single quote *)
  else if ch =? lit x22 then lit x22     (* double quote *)
  else -1.

(** ** The numeric formatter *)

(** [_upb_vsnprintf] (upb/port/vsnprintf_compat.h, the C library's
    [vsnprintf]) is not defined in def_to_proto.c.  The formats it is
    called with are modelled from the spec's [format_number]: signed and
    unsigned 32/64-bit integers as plain decimal, floats with 9 and doubles
    with 17 significant digits, in the layout of the [%.Pg] conversion. *)

Definition digit (d : Z) : byte := to_byte (lit "0" + d).

Fixpoint decimal_fuel (fuel : nat) (n : Z) (acc : list byte) : list byte :=
  match fuel with
  | O => acc
  | S fuel' =>
      let acc' := digit (n mod 10) :: acc in
      if n <? 10 then acc' else decimal_fuel fuel' (n / 10) acc'
  end.

(** The decimal digits of [n >= 0], most significant first. *)
Definition decimal (n : Z) : list byte :=
  decimal_fuel (S (Z.to_nat (Z.log2 n))) n [].

(** Modelled from the spec: [_upb_vsnprintf] with [PRIu32] or [PRIu64],
    an unsigned integer as plain decimal. *)
Definition format_unsigned (n : Z) : list byte := decimal n.

(** Modelled from the spec: [_upb_vsnprintf] with [PRId32] or [PRId64],
    a signed integer as plain decimal. *)
Definition format_signed (n : Z) : list byte :=
  if n <? 0 then "-"%byte :: decimal (- n) else decimal n.

(** Round [n / d] to the nearest integer, ties to even. *)
Definition round_half_even (n d : Z) : Z :=
  let q := n / d in
  let r := n mod d in
  if (d <? 2 * r) || ((d =? 2 * r) && Z.odd q) then q + 1 else q.

(** The decimal exponent of [num / den > 0]: the [X] with
    [10 ^ X <= num / den < 10 ^ (X + 1)]. *)
Definition exponent10 (num den : Z) : Z :=
  if den <=? num then Z.of_nat (length (decimal (num / den))) - 1
  else - Z.of_nat (length (decimal ((den - 1) / num))).

(** [num / den] rounded to [P] significant decimal digits: the integer of
    these digits and the decimal exponent of the first of them. *)
Definition to_sci (P : Z) (num den : Z) : Z * Z :=
  let X := exponent10 num den in
  let s := P - 1 - X in
  let D := if 0 <=? s then round_half_even (num * 10 ^ s) den
           else round_half_even num (den * 10 ^ (- s)) in
  if D =? 10 ^ P then (10 ^ (P - 1), X + 1) else (D, X).

Fixpoint drop_zeros (l : list byte) : list byte :=
  match l with
  | b :: l' => if Byte.eqb b "0" then drop_zeros l' else l
  | [] => []
  end.

(** Trailing zeros of a fraction are not printed. *)
Definition strip_zeros (l : list byte) : list byte := rev (drop_zeros (rev l)).

(** A fraction is printed with its decimal point only if digits remain. *)
Definition fraction (l : list byte) : list byte :=
  match strip_zeros l with
  | [] => []
  | frac => "."%byte :: frac
  end.

(** The exponent has at least two digits. *)
Definition exp_digits (x : Z) : list byte :=
  if x <? 10 then ["0"%byte; digit x] else decimal x.

Definition sign (s : bool) : list byte := if s then ["-"%byte] else [].

(** Modelled from the spec: [_upb_vsnprintf] with [%.Pg] and a [double]
    argument, [P] significant digits: style e if the decimal exponent [X]
    is below -4 or not below [P], style f otherwise, trailing zeros
    removed. *)
Definition format_g (P : Z) (v : spec_float) : list byte :=
  match v with
  | S754_nan => list_byte_of_string "nan"
  | S754_infinity s => sign s ++ list_byte_of_string "inf"
  | S754_zero s => sign s ++ ["0"%byte]
  | S754_finite s m e =>
      let '(num, den) := if 0 <=? e then (Zpos m * 2 ^ e, 1)
                         else (Zpos m, 2 ^ (- e)) in
      let '(D, X) := to_sci P num den in
      let ds := decimal D in
      sign s ++
      (if (X <? -4) || (P <=? X) then
         (* style e with precision P - 1 *)
         firstn 1 ds ++ fraction (skipn 1 ds)
           ++ "e"%byte :: (if X <? 0 then "-"%byte else "+"%byte)
           :: exp_digits (Z.abs X)
       else if X <? 0 then
         (* style f with precision P - 1 - X, value below 1 *)
         "0"%byte :: "."%byte
           :: replicate (Z.to_nat (- X - 1)) "0"%byte ++ strip_zeros ds
       else
         (* style f with precision P - 1 - X *)
         firstn (Z.to_nat (X + 1)) ds
           ++ fraction (skipn (Z.to_nat (X + 1)) ds))
  end.

Definition printf_dup (text : list byte) : M upb_StringView :=
  let max := 32%nat in
  p <- upb_Arena_Malloc ;;
  CHK_OOM p ;;;
  (* n = _upb_vsnprintf(p, max, fmt, args) *)
  let n := length text in
  (* UPB_ASSERT(n < max) *)
  if (n <? max)%nat then ret {| data_storage := InArena; data := text |}
  else raise AssertFailed.

(** ** The source schema model

    The reflection accessors ([upb_FieldDef_Name], [upb_MessageDef_Field],
    ...) are not defined in def_to_proto.c; a def is the record of what its
    accessors return.  A link to a message def, which may be the def that
    contains the link, is the full name of its target: it is all the
    converter reads through such a link. *)

(** Options payloads, by their serialized form. *)
Definition Options := list byte.

Inductive upb_CType : Type :=
| kUpb_CType_Bool
| kUpb_CType_Float
| kUpb_CType_Int32
| kUpb_CType_UInt32
| kUpb_CType_Enum
| kUpb_CType_Message
| kUpb_CType_Double
| kUpb_CType_Int64
| kUpb_CType_UInt64
| kUpb_CType_String
| kUpb_CType_Bytes.

Inductive upb_Syntax : Type :=
| kUpb_Syntax_Proto2
| kUpb_Syntax_Proto3
| kUpb_Syntax_Editions.

(** [upb_MessageValue] is a union: each member is what reading it yields.
    A [float] member read into a [double] keeps its value. *)
Record upb_MessageValue : Type := {
  bool_val : bool;
  float_val : spec_float;
  double_val : spec_float;
  int32_val : Z;
  int64_val : Z;
  uint32_val : Z;
  uint64_val : Z;
  str_val : upb_StringView
}.

Record upb_EnumValueDef : Type := {
  upb_EnumValueDef_Name : string;
  upb_EnumValueDef_Number : Z;
  upb_EnumValueDef_HasOptions : bool;
  upb_EnumValueDef_Options : Options
}.

Record upb_EnumReservedRange : Type := {
  upb_EnumReservedRange_Start : Z;
  upb_EnumReservedRange_End : Z
}.

Record upb_EnumDef : Type := {
  upb_EnumDef_Name : string;
  upb_EnumDef_FullName : string;
  upb_EnumDef_Values : list upb_EnumValueDef;
  upb_EnumDef_ReservedRanges : list upb_EnumReservedRange;
  upb_EnumDef_ReservedNames : list (list byte);
  upb_EnumDef_HasOptions : bool;
  upb_EnumDef_Options : Options
}.

Definition upb_EnumDef_ValueCount (e : upb_EnumDef) : nat :=
  length (upb_EnumDef_Values e).

(** The i-th reserved name: a view of the def's own copy of the name. *)
Definition reserved_name_view (name : list byte) : upb_StringView :=
  {| data_storage := InDefPool; data := name |}.
Definition upb_EnumDef_ReservedName (e : upb_EnumDef) (i : nat) : option upb_StringView :=
  reserved_name_view <$> upb_EnumDef_ReservedNames e !! i.

(** Modelled from the spec: [upb_EnumDef_FindValueByNumber] looks up the
    enum value whose number equals the given number; null if there is
    none. *)
Definition upb_EnumDef_FindValueByNumber (e : upb_EnumDef) (num : Z)
  : option upb_EnumValueDef :=
  find (fun ev => upb_EnumValueDef_Number ev =? num) (upb_EnumDef_Values e).

Record upb_FieldDef : Type := {
  upb_FieldDef_Name : string;
  upb_FieldDef_Number : Z;
  upb_FieldDef_Label : Z;
  upb_FieldDef_Type : Z;
  upb_FieldDef_CType : upb_CType;
  upb_FieldDef_HasJsonName : bool;
  upb_FieldDef_JsonName : string;
  upb_FieldDef_IsSubMessage : bool;
  upb_FieldDef_MessageSubDef : option string;    (* null, or its full name *)
  upb_FieldDef_EnumSubDef : option upb_EnumDef;
  upb_FieldDef_IsExtension : bool;
  upb_FieldDef_ContainingType : option string;   (* null, or its full name *)
  upb_FieldDef_HasDefault : bool;
  upb_FieldDef_Default : upb_MessageValue;
  upb_FieldDef_ContainingOneof : option Z;       (* null, or its index *)
  _upb_FieldDef_IsProto3Optional : bool;
  upb_FieldDef_HasOptions : bool;
  upb_FieldDef_Options : Options
}.

Record upb_OneofDef : Type := {
  upb_OneofDef_Name : string;
  upb_OneofDef_HasOptions : bool;
  upb_OneofDef_Options : Options
}.

Record upb_ExtensionRange : Type := {
  upb_ExtensionRange_Start : Z;
  upb_ExtensionRange_End : Z;
  upb_ExtensionRange_HasOptions : bool;
  upb_ExtensionRange_Options : Options
}.

Record upb_MessageReservedRange : Type := {
  upb_MessageReservedRange_Start : Z;
  upb_MessageReservedRange_End : Z
}.

#[warnings="-register-all"]
Inductive upb_MessageDef : Type := Build_upb_MessageDef {
  upb_MessageDef_Name : string;
  upb_MessageDef_FullName : string;
  upb_MessageDef_Fields : list upb_FieldDef;
  upb_MessageDef_Oneofs : list upb_OneofDef;
  upb_MessageDef_NestedMessages : list upb_MessageDef;
  upb_MessageDef_NestedEnums : list upb_EnumDef;
  upb_MessageDef_NestedExtensions : list upb_FieldDef;
  upb_MessageDef_ExtensionRanges : list upb_ExtensionRange;
  upb_MessageDef_ReservedRanges : list upb_MessageReservedRange;
  upb_MessageDef_ReservedNames : list (list byte);
  upb_MessageDef_HasOptions : bool;
  upb_MessageDef_Options : Options
}.

Definition upb_MessageDef_ReservedName (m : upb_MessageDef) (i : nat) : option upb_StringView :=
  reserved_name_view <$> upb_MessageDef_ReservedNames m !! i.

Record upb_MethodDef : Type := {
  upb_MethodDef_Name : string;
  upb_MethodDef_InputType : string;      (* full name of the input message *)
  upb_MethodDef_OutputType : string;     (* full name of the output message *)
  upb_MethodDef_ClientStreaming : bool;
  upb_MethodDef_ServerStreaming : bool;
  upb_MethodDef_HasOptions : bool;
  upb_MethodDef_Options : Options
}.

Record upb_ServiceDef : Type := {
  upb_ServiceDef_Name : string;
  upb_ServiceDef_Methods : list upb_MethodDef;
  upb_ServiceDef_HasOptions : bool;
  upb_ServiceDef_Options : Options
}.

Record upb_FileDef : Type := {
  upb_FileDef_Name : string;
  upb_FileDef_Package : option string;            (* may be null *)
  upb_FileDef_Syntax : upb_Syntax;
  upb_FileDef_Edition : Z;
  upb_FileDef_Dependencies : list string;         (* names of the files *)
  _upb_FileDef_PublicDependencyIndexes : list Z;
  _upb_FileDef_WeakDependencyIndexes : list Z;
  upb_FileDef_TopLevelMessages : list upb_MessageDef;
  upb_FileDef_TopLevelEnums : list upb_EnumDef;
  upb_FileDef_Services : list upb_ServiceDef;
  upb_FileDef_TopLevelExtensions : list upb_FieldDef;
  upb_FileDef_HasOptions : bool;
  upb_FileDef_Options : Options
}.

(** ** The descriptor protos

    A proto is the record of its fields; an optional field that was never
    set is [None].  A repeated field is its slot array: a slot is [None]
    until the converter stores into it. *)

Abbreviation slots B := (list (option B)) (only parsing).

Record FieldDescriptorProto : Type := {
  FieldDescriptorProto_name : option upb_StringView;
  FieldDescriptorProto_number : option Z;
  FieldDescriptorProto_label : option Z;
  FieldDescriptorProto_type : option Z;
  FieldDescriptorProto_json_name : option upb_StringView;
  FieldDescriptorProto_type_name : option upb_StringView;
  FieldDescriptorProto_extendee : option upb_StringView;
  FieldDescriptorProto_default_value : option upb_StringView;
  FieldDescriptorProto_oneof_index : option Z;
  FieldDescriptorProto_proto3_optional : option bool;
  FieldDescriptorProto_options : option Options
}.

Record OneofDescriptorProto : Type := {
  OneofDescriptorProto_name : option upb_StringView;
  OneofDescriptorProto_options : option Options
}.

Record EnumValueDescriptorProto : Type := {
  EnumValueDescriptorProto_name : option upb_StringView;
  EnumValueDescriptorProto_number : option Z;
  EnumValueDescriptorProto_options : option Options
}.

Record EnumDescriptorProto_EnumReservedRange : Type := {
  EnumDescriptorProto_EnumReservedRange_start : option Z;
  EnumDescriptorProto_EnumReservedRange_end : option Z
}.

Record EnumDescriptorProto : Type := {
  EnumDescriptorProto_name : option upb_StringView;
  EnumDescriptorProto_value : slots EnumValueDescriptorProto;
  EnumDescriptorProto_reserved_range : slots EnumDescriptorProto_EnumReservedRange;
  EnumDescriptorProto_reserved_name : slots upb_StringView;
  EnumDescriptorProto_options : option Options
}.

Record DescriptorProto_ExtensionRange : Type := {
  DescriptorProto_ExtensionRange_start : option Z;
  DescriptorProto_ExtensionRange_end : option Z;
  DescriptorProto_ExtensionRange_options : option Options
}.

Record DescriptorProto_ReservedRange : Type := {
  DescriptorProto_ReservedRange_start : option Z;
  DescriptorProto_ReservedRange_end : option Z
}.

#[warnings="-register-all"]
Inductive DescriptorProto : Type := Build_DescriptorProto {
  DescriptorProto_name : option upb_StringView;
  DescriptorProto_field : slots FieldDescriptorProto;
  DescriptorProto_oneof_decl : slots OneofDescriptorProto;
  DescriptorProto_nested_type : list (option DescriptorProto);
  DescriptorProto_enum_type : slots EnumDescriptorProto;
  DescriptorProto_extension : slots FieldDescriptorProto;
  DescriptorProto_extension_range : slots DescriptorProto_ExtensionRange;
  DescriptorProto_reserved_range : slots DescriptorProto_ReservedRange;
  DescriptorProto_reserved_name : slots upb_StringView;
  DescriptorProto_options : option Options
}.

Record MethodDescriptorProto : Type := {
  MethodDescriptorProto_name : option upb_StringView;
  MethodDescriptorProto_input_type : option upb_StringView;
  MethodDescriptorProto_output_type : option upb_StringView;
  MethodDescriptorProto_client_streaming : option bool;
  MethodDescriptorProto_server_streaming : option bool;
  MethodDescriptorProto_options : option Options
}.

Record ServiceDescriptorProto : Type := {
  ServiceDescriptorProto_name : option upb_StringView;
  ServiceDescriptorProto_method : slots MethodDescriptorProto;
  ServiceDescriptorProto_options : option Options
}.

Record FileDescriptorProto : Type := {
  FileDescriptorProto_name : option upb_StringView;
  FileDescriptorProto_package : option upb_StringView;
  FileDescriptorProto_edition : option Z;
  FileDescriptorProto_syntax : option upb_StringView;
  FileDescriptorProto_dependency : slots upb_StringView;
  FileDescriptorProto_public_dependency : list Z;
  FileDescriptorProto_weak_dependency : list Z;
  FileDescriptorProto_message_type : slots DescriptorProto;
  FileDescriptorProto_enum_type : slots EnumDescriptorProto;
  FileDescriptorProto_service : slots ServiceDescriptorProto;
  FileDescriptorProto_extension : slots FieldDescriptorProto;
  FileDescriptorProto_options : option Options
}.

(** ** Building blocks of the converters *)

(** [UPB_DESC(X_new)(ctx->arena)] followed by [CHK_OOM(proto)]. *)
Definition new_proto : M unit := p <- upb_Arena_Malloc ;; CHK_OOM p.

(** [SET_OPTIONS]: serialize the source options into the arena, parse the
    bytes back into a fresh options proto, each followed by [CHK_OOM]. *)
Definition SET_OPTIONS (src : Options) : M Options :=
  pb <- upb_Arena_Malloc ;;
  CHK_OOM pb ;;;
  dst <- upb_Arena_Malloc ;;
  CHK_OOM dst ;;;
  ret src.

(** [if (cond) set_x(proto, value)]: the field stays unset otherwise. *)
Definition when {A} (cond : bool) (value : M A) : M (option A) :=
  if cond then x <- value ;; ret (Some x) else ret None.

(** Modelled from the spec: [UPB_DESC(X_resize_y)(proto, n, ctx->arena)]
    bulk-allocates the slot array of a repeated field in one allocator
    call and returns it, or null when the allocator fails. *)
Definition resize {B} (n : nat) : M (option (slots B)) :=
  p <- upb_Arena_Malloc ;;
  ret (if p then Some (replicate n None) else None).

(** The repeated field read back from the finished proto. *)
Definition repeated {B} (arr : option (slots B)) : slots B :=
  match arr with
  | Some l => l
  | None => []
  end.

Section Fill.

Context {A B : Type}.
Variable conv : A -> M B.

(** [for (i = 0; i < n; i++) arr[i] = conv(ctx, child(def, i));] over the
    children from index [i] on: the call is made, then its result is
    stored through [arr]. *)
Fixpoint fill_slots (children : list A) (i : nat) (arr : option (slots B))
  : M (option (slots B)) :=
  match children with
  | [] => ret arr
  | child :: rest =>
      y <- conv child ;;
      match arr with
      | None => raise NullStore
      | Some l => fill_slots rest (S i) (Some (<[i := Some y]> l))
      end
  end.

End Fill.

(** [if (n) memcpy(dst, src, n * sizeof(int32_t))] *)
Definition memcpy_int32 (dst : option (slots Z)) (src : list Z) : M (list Z) :=
  match src, dst with
  | [], _ => ret []
  | _ :: _, None => raise NullStore
  | _ :: _, Some _ => ret src
  end.

(** ** Return to the entry point *)

(** What the caller of an entry point gets: the returned pointer, null or
    not, unless the conversion ran into undefined behaviour. *)
Inductive result (A : Type) : Type :=
| Returned (proto : option A)
| Undefined (f : fault).

Arguments Returned {A} proto.
Arguments Undefined {A} f.

(** [if (UPB_SETJMP(ctx->err)) return NULL; return conv(ctx, def);] with
    the context [{a}] of the entry point. *)
Definition setjmp_return {A} (conv : M A) (a : upb_Arena) : result A :=
  match conv a with
  | Done proto _ => Returned (Some proto)
  | LongJmp => Returned None
  | Fault f => Undefined f
  end.

(** ** The converters *)

Section Platform.

(** Whether plain [char] is a signed type is left to the implementation. *)
Variable char_is_signed : bool.

(** Conversion of an [unsigned char] value to plain [char]. *)
Definition to_char (z : Z) : Z :=
  if char_is_signed && (128 <=? z) then z - 256 else z.

(** The value of a byte read as plain [char]. *)
Definition char_val (b : byte) : Z := to_char (uchar_val b).

(** First loop of [default_bytes]: [char ch = val.data[i]] and the running
    length [n]. *)
Fixpoint escaped_size (src : list byte) (n : nat) : nat :=
  match src with
  | [] => n
  | b :: rest =>
      let ch := char_val b in
      if 0 <=? special_escape ch then escaped_size rest (n + 2)
      else if upb_isprint ch then escaped_size rest (n + 1)
      else escaped_size rest (n + 4)
  end.

(** [*dst++ = c] into the block [p]; [None] when [dst] is beyond its end. *)
Definition store (p : list byte) (dst : nat) (c : Z) : option (list byte * nat) :=
  if (dst <? length p)%nat then Some (<[dst := to_byte c]> p, S dst) else None.

(** Second loop of [default_bytes]: [unsigned char ch = *src++], converted
    to [char] where it is passed to [special_escape] and [upb_isprint]. *)
Fixpoint write_escaped (src : list byte) (p : list byte) (dst : nat)
  : option (list byte * nat) :=
  match src with
  | [] => Some (p, dst)
  | b :: rest =>
      let ch := uchar_val b in
      if 0 <=? special_escape (to_char ch) then
        '(p, dst) ← store p dst (lit x5c);
        '(p, dst) ← store p dst (special_escape (to_char ch));
        write_escaped rest p dst
      else if upb_isprint (to_char ch) then
        '(p, dst) ← store p dst ch;
        write_escaped rest p dst
      else
        '(p, dst) ← store p dst (lit x5c);
        '(p, dst) ← store p dst (lit "0" + Z.shiftr ch 6);
        '(p, dst) ← store p dst (lit "0" + Z.land (Z.shiftr ch 3) 0x7);
        '(p, dst) ← store p dst (lit "0" + Z.land ch 0x7);
        write_escaped rest p dst
  end.

Definition default_bytes (val : upb_StringView) : M upb_StringView :=
  let n := escaped_size (data val) 0 in
  p <- upb_Arena_Malloc ;;
  CHK_OOM p ;;;
  match write_escaped (data val) (replicate n x00) 0 with
  | None => raise BufferOverrun
  | Some (p, _) => ret {| data_storage := InArena; data := p |}
  end.

(** The special values of [default_string], tested on the [double] [val]:
    [val == INFINITY], [val == -INFINITY], [val != val]. *)
Definition special_float (val : spec_float) : option string :=
  if SFeqb val (S754_infinity false) then Some "inf"%string
  else if SFeqb val (S754_infinity true) then Some "-inf"%string
  else if negb (SFeqb val val) then Some "nan"%string
  else None.

Definition default_special (type : upb_CType) (d : upb_MessageValue) : option string :=
  match type with
  | kUpb_CType_Float => special_float (float_val d)
  | kUpb_CType_Double => special_float (double_val d)
  | _ => None
  end.

(** [_upb_vsnprintf] is the C library's formatter.  What its [%g]
    conversion prints for an infinity or a NaN is the library's choice
    ([inf] or [infinity], [nan] or [nan(...)], with or without a sign), so
    [default_string] is written over any formatter [vsnprintf_g] of the
    conversion [%.Pg]: [vsnprintf_g P val] is the text it prints for the
    [double] [val] with [P] significant digits. *)
Definition default_string_with (vsnprintf_g : Z -> spec_float -> list byte)
  (f : upb_FieldDef) : M upb_StringView :=
  let d := upb_FieldDef_Default f in
  let type := upb_FieldDef_CType f in
  match default_special type d with
  | Some text => strviewdup text
  | None =>
      match upb_FieldDef_CType f with
      | kUpb_CType_Bool =>
          strviewdup (if bool_val d then "true" else "false")
      | kUpb_CType_Enum =>
          match upb_FieldDef_EnumSubDef f with
          | None => raise NullDeref
          | Some e =>
              match upb_EnumDef_FindValueByNumber e (int32_val d) with
              | None => raise NullDeref
              | Some ev => strviewdup (upb_EnumValueDef_Name ev)
              end
          end
      | kUpb_CType_Int64 => printf_dup (format_signed (int64_val d))
      | kUpb_CType_UInt64 => printf_dup (format_unsigned (uint64_val d))
      | kUpb_CType_Int32 => printf_dup (format_signed (int32_val d))
      | kUpb_CType_UInt32 => printf_dup (format_unsigned (uint32_val d))
      | kUpb_CType_Float => printf_dup (vsnprintf_g 9 (float_val d))
      | kUpb_CType_Double => printf_dup (vsnprintf_g 17 (double_val d))
      | kUpb_CType_String => strviewdup2 (str_val d)
      | kUpb_CType_Bytes => default_bytes (str_val d)
      | kUpb_CType_Message => raise Unreachable
      end
  end.

(** [default_string] with the formatter modelled above. *)
Definition default_string (f : upb_FieldDef) : M upb_StringView :=
  default_string_with format_g f.

Definition resrange_toproto (r : upb_MessageReservedRange)
  : M DescriptorProto_ReservedRange :=
  new_proto ;;;
  ret {| DescriptorProto_ReservedRange_start := Some (upb_MessageReservedRange_Start r);
         DescriptorProto_ReservedRange_end := Some (upb_MessageReservedRange_End r) |}.

Definition enumresrange_toproto (r : upb_EnumReservedRange)
  : M EnumDescriptorProto_EnumReservedRange :=
  new_proto ;;;
  ret {| EnumDescriptorProto_EnumReservedRange_start := Some (upb_EnumReservedRange_Start r);
         EnumDescriptorProto_EnumReservedRange_end := Some (upb_EnumReservedRange_End r) |}.

(** The name a null def would be asked for. *)
Definition full_name_of (def : option string) : M string :=
  match def with
  | Some full_name => ret full_name
  | None => raise NullDeref
  end.

Definition fielddef_toproto (f : upb_FieldDef) : M FieldDescriptorProto :=
  new_proto ;;;
  name <- strviewdup (upb_FieldDef_Name f) ;;
  json_name <- when (upb_FieldDef_HasJsonName f)
                 (strviewdup (upb_FieldDef_JsonName f)) ;;
  type_name <-
    (if upb_FieldDef_IsSubMessage f then
       m <- full_name_of (upb_FieldDef_MessageSubDef f) ;;
       s <- qual_dup m ;;
       ret (Some s)
     else
       match upb_FieldDef_CType f with
       | kUpb_CType_Enum =>
           e <- full_name_of (upb_EnumDef_FullName <$> upb_FieldDef_EnumSubDef f) ;;
           s <- qual_dup e ;;
           ret (Some s)
       | _ => ret None
       end) ;;
  extendee <- when (upb_FieldDef_IsExtension f)
                (m <- full_name_of (upb_FieldDef_ContainingType f) ;; qual_dup m) ;;
  default_value <- when (upb_FieldDef_HasDefault f) (default_string f) ;;
  let oneof_index := upb_FieldDef_ContainingOneof f in
  let proto3_optional :=
    if _upb_FieldDef_IsProto3Optional f then Some true else None in
  options <- when (upb_FieldDef_HasOptions f)
               (SET_OPTIONS (upb_FieldDef_Options f)) ;;
  ret {| FieldDescriptorProto_name := Some name;
         FieldDescriptorProto_number := Some (upb_FieldDef_Number f);
         FieldDescriptorProto_label := Some (upb_FieldDef_Label f);
         FieldDescriptorProto_type := Some (upb_FieldDef_Type f);
         FieldDescriptorProto_json_name := json_name;
         FieldDescriptorProto_type_name := type_name;
         FieldDescriptorProto_extendee := extendee;
         FieldDescriptorProto_default_value := default_value;
         FieldDescriptorProto_oneof_index := oneof_index;
         FieldDescriptorProto_proto3_optional := proto3_optional;
         FieldDescriptorProto_options := options |}.

Definition oneofdef_toproto (o : upb_OneofDef) : M OneofDescriptorProto :=
  new_proto ;;;
  name <- strviewdup (upb_OneofDef_Name o) ;;
  options <- when (upb_OneofDef_HasOptions o)
               (SET_OPTIONS (upb_OneofDef_Options o)) ;;
  ret {| OneofDescriptorProto_name := Some name;
         OneofDescriptorProto_options := options |}.

Definition enumvaldef_toproto (e : upb_EnumValueDef) : M EnumValueDescriptorProto :=
  new_proto ;;;
  name <- strviewdup (upb_EnumValueDef_Name e) ;;
  options <- when (upb_EnumValueDef_HasOptions e)
               (SET_OPTIONS (upb_EnumValueDef_Options e)) ;;
  ret {| EnumValueDescriptorProto_name := Some name;
         EnumValueDescriptorProto_number := Some (upb_EnumValueDef_Number e);
         EnumValueDescriptorProto_options := options |}.

Definition enumdef_toproto (e : upb_EnumDef) : M EnumDescriptorProto :=
  new_proto ;;;
  name <- strviewdup (upb_EnumDef_Name e) ;;
  let n := upb_EnumDef_ValueCount e in
  vals <- resize n ;;
  CHK_OOM (bool_decide (is_Some vals)) ;;;
  vals <- fill_slots enumvaldef_toproto (upb_EnumDef_Values e) 0 vals ;;
  let n := length (upb_EnumDef_ReservedRanges e) in
  res_ranges <- resize n ;;
  res_ranges <- fill_slots enumresrange_toproto (upb_EnumDef_ReservedRanges e) 0 res_ranges ;;
  let n := length (upb_EnumDef_ReservedNames e) in
  res_names <- resize n ;;
  res_names <- fill_slots (fun name => ret (reserved_name_view name))
                 (upb_EnumDef_ReservedNames e) 0 res_names ;;
  options <- when (upb_EnumDef_HasOptions e)
               (SET_OPTIONS (upb_EnumDef_Options e)) ;;
  ret {| EnumDescriptorProto_name := Some name;
         EnumDescriptorProto_value := repeated vals;
         EnumDescriptorProto_reserved_range := repeated res_ranges;
         EnumDescriptorProto_reserved_name := repeated res_names;
         EnumDescriptorProto_options := options |}.

Definition extrange_toproto (e : upb_ExtensionRange)
  : M DescriptorProto_ExtensionRange :=
  new_proto ;;;
  options <- when (upb_ExtensionRange_HasOptions e)
               (SET_OPTIONS (upb_ExtensionRange_Options e)) ;;
  ret {| DescriptorProto_ExtensionRange_start := Some (upb_ExtensionRange_Start e);
         DescriptorProto_ExtensionRange_end := Some (upb_ExtensionRange_End e);
         DescriptorProto_ExtensionRange_options := options |}.

Fixpoint msgdef_toproto (m : upb_MessageDef) : M DescriptorProto :=
  new_proto ;;;
  name <- strviewdup (upb_MessageDef_Name m) ;;
  let n := length (upb_MessageDef_Fields m) in
  fields <- resize n ;;
  CHK_OOM (bool_decide (is_Some fields)) ;;;
  fields <- fill_slots fielddef_toproto (upb_MessageDef_Fields m) 0 fields ;;
  let n := length (upb_MessageDef_Oneofs m) in
  oneofs <- resize n ;;
  oneofs <- fill_slots oneofdef_toproto (upb_MessageDef_Oneofs m) 0 oneofs ;;
  let n := length (upb_MessageDef_NestedMessages m) in
  nested_msgs <- resize n ;;
  nested_msgs <- fill_slots msgdef_toproto (upb_MessageDef_NestedMessages m) 0 nested_msgs ;;
  let n := length (upb_MessageDef_NestedEnums m) in
  nested_enums <- resize n ;;
  nested_enums <- fill_slots enumdef_toproto (upb_MessageDef_NestedEnums m) 0 nested_enums ;;
  let n := length (upb_MessageDef_NestedExtensions m) in
  nested_exts <- resize n ;;
  nested_exts <- fill_slots fielddef_toproto (upb_MessageDef_NestedExtensions m) 0 nested_exts ;;
  let n := length (upb_MessageDef_ExtensionRanges m) in
  ext_ranges <- resize n ;;
  ext_ranges <- fill_slots extrange_toproto (upb_MessageDef_ExtensionRanges m) 0 ext_ranges ;;
  let n := length (upb_MessageDef_ReservedRanges m) in
  res_ranges <- resize n ;;
  res_ranges <- fill_slots resrange_toproto (upb_MessageDef_ReservedRanges m) 0 res_ranges ;;
  let n := length (upb_MessageDef_ReservedNames m) in
  res_names <- resize n ;;
  res_names <- fill_slots (fun name => ret (reserved_name_view name))
                 (upb_MessageDef_ReservedNames m) 0 res_names ;;
  options <- when (upb_MessageDef_HasOptions m)
               (SET_OPTIONS (upb_MessageDef_Options m)) ;;
  ret {| DescriptorProto_name := Some name;
         DescriptorProto_field := repeated fields;
         DescriptorProto_oneof_decl := repeated oneofs;
         DescriptorProto_nested_type := repeated nested_msgs;
         DescriptorProto_enum_type := repeated nested_enums;
         DescriptorProto_extension := repeated nested_exts;
         DescriptorProto_extension_range := repeated ext_ranges;
         DescriptorProto_reserved_range := repeated res_ranges;
         DescriptorProto_reserved_name := repeated res_names;
         DescriptorProto_options := options |}.

Definition methoddef_toproto (m : upb_MethodDef) : M MethodDescriptorProto :=
  new_proto ;;;
  name <- strviewdup (upb_MethodDef_Name m) ;;
  input_type <- qual_dup (upb_MethodDef_InputType m) ;;
  output_type <- qual_dup (upb_MethodDef_OutputType m) ;;
  let client_streaming :=
    if upb_MethodDef_ClientStreaming m then Some true else None in
  let server_streaming :=
    if upb_MethodDef_ServerStreaming m then Some true else None in
  options <- when (upb_MethodDef_HasOptions m)
               (SET_OPTIONS (upb_MethodDef_Options m)) ;;
  ret {| MethodDescriptorProto_name := Some name;
         MethodDescriptorProto_input_type := Some input_type;
         MethodDescriptorProto_output_type := Some output_type;
         MethodDescriptorProto_client_streaming := client_streaming;
         MethodDescriptorProto_server_streaming := server_streaming;
         MethodDescriptorProto_options := options |}.

Definition servicedef_toproto (s : upb_ServiceDef) : M ServiceDescriptorProto :=
  new_proto ;;;
  name <- strviewdup (upb_ServiceDef_Name s) ;;
  let n := length (upb_ServiceDef_Methods s) in
  methods <- resize n ;;
  methods <- fill_slots methoddef_toproto (upb_ServiceDef_Methods s) 0 methods ;;
  options <- when (upb_ServiceDef_HasOptions s)
               (SET_OPTIONS (upb_ServiceDef_Options s)) ;;
  ret {| ServiceDescriptorProto_name := Some name;
         ServiceDescriptorProto_method := repeated methods;
         ServiceDescriptorProto_options := options |}.

Definition filedef_toproto (f : upb_FileDef) : M FileDescriptorProto :=
  new_proto ;;;
  name <- strviewdup (upb_FileDef_Name f) ;;
  package <-
    match upb_FileDef_Package f with
    | Some package =>
        let n := String.length package in
        when (negb (n =? 0)%nat) (strviewdup package)
    | None => ret None
    end ;;
  let edition :=
    match upb_FileDef_Syntax f with
    | kUpb_Syntax_Editions => Some (upb_FileDef_Edition f)
    | _ => None
    end in
  syntax <-
    match upb_FileDef_Syntax f with
    | kUpb_Syntax_Proto3 => s <- strviewdup "proto3" ;; ret (Some s)
    | _ => ret None
    end ;;
  let n := length (upb_FileDef_Dependencies f) in
  deps <- resize n ;;
  deps <- fill_slots strviewdup (upb_FileDef_Dependencies f) 0 deps ;;
  let n := length (_upb_FileDef_PublicDependencyIndexes f) in
  public_deps <- resize n ;;
  public_deps <- memcpy_int32 public_deps (_upb_FileDef_PublicDependencyIndexes f) ;;
  let n := length (_upb_FileDef_WeakDependencyIndexes f) in
  weak_deps <- resize n ;;
  weak_deps <- memcpy_int32 weak_deps (_upb_FileDef_WeakDependencyIndexes f) ;;
  let n := length (upb_FileDef_TopLevelMessages f) in
  msgs <- resize n ;;
  msgs <- fill_slots msgdef_toproto (upb_FileDef_TopLevelMessages f) 0 msgs ;;
  let n := length (upb_FileDef_TopLevelEnums f) in
  enums <- resize n ;;
  enums <- fill_slots enumdef_toproto (upb_FileDef_TopLevelEnums f) 0 enums ;;
  let n := length (upb_FileDef_Services f) in
  services <- resize n ;;
  services <- fill_slots servicedef_toproto (upb_FileDef_Services f) 0 services ;;
  let n := length (upb_FileDef_TopLevelExtensions f) in
  exts <- resize n ;;
  exts <- fill_slots fielddef_toproto (upb_FileDef_TopLevelExtensions f) 0 exts ;;
  options <- when (upb_FileDef_HasOptions f)
               (SET_OPTIONS (upb_FileDef_Options f)) ;;
  ret {| FileDescriptorProto_name := Some name;
         FileDescriptorProto_package := package;
         FileDescriptorProto_edition := edition;
         FileDescriptorProto_syntax := syntax;
         FileDescriptorProto_dependency := repeated deps;
         FileDescriptorProto_public_dependency := public_deps;
         FileDescriptorProto_weak_dependency := weak_deps;
         FileDescriptorProto_message_type := repeated msgs;
         FileDescriptorProto_enum_type := repeated enums;
         FileDescriptorProto_service := repeated services;
         FileDescriptorProto_extension := repeated exts;
         FileDescriptorProto_options := options |}.

(** ** The entry points *)

Definition upb_ToProto_ConvertMessageDef (ctx : upb_Arena) (m : upb_MessageDef) :=
  setjmp_return (msgdef_toproto m) ctx.

Definition upb_MessageDef_ToProto (m : upb_MessageDef) (a : upb_Arena) :=
  let ctx := a in upb_ToProto_ConvertMessageDef ctx m.

Definition upb_ToProto_ConvertEnumDef (ctx : upb_Arena) (e : upb_EnumDef) :=
  setjmp_return (enumdef_toproto e) ctx.

Definition upb_EnumDef_ToProto (e : upb_EnumDef) (a : upb_Arena) :=
  let ctx := a in upb_ToProto_ConvertEnumDef ctx e.

Definition upb_ToProto_ConvertEnumValueDef (ctx : upb_Arena) (e : upb_EnumValueDef) :=
  setjmp_return (enumvaldef_toproto e) ctx.

Definition upb_EnumValueDef_ToProto (e : upb_EnumValueDef) (a : upb_Arena) :=
  let ctx := a in upb_ToProto_ConvertEnumValueDef ctx e.

Definition upb_ToProto_ConvertFieldDef (ctx : upb_Arena) (f : upb_FieldDef) :=
  setjmp_return (fielddef_toproto f) ctx.

Definition upb_FieldDef_ToProto (f : upb_FieldDef) (a : upb_Arena) :=
  let ctx := a in upb_ToProto_ConvertFieldDef ctx f.

Definition upb_ToProto_ConvertOneofDef (ctx : upb_Arena) (o : upb_OneofDef) :=
  setjmp_return (oneofdef_toproto o) ctx.

Definition upb_OneofDef_ToProto (o : upb_OneofDef) (a : upb_Arena) :=
  let ctx := a in upb_ToProto_ConvertOneofDef ctx o.

Definition upb_ToProto_ConvertFileDef (ctx : upb_Arena) (f : upb_FileDef) :=
  setjmp_return (filedef_toproto f) ctx.

Definition upb_FileDef_ToProto (f : upb_FileDef) (a : upb_Arena) :=
  let ctx := a in upb_ToProto_ConvertFileDef ctx f.

Definition upb_ToProto_ConvertMethodDef (ctx : upb_Arena) (m : upb_MethodDef) :=
  setjmp_return (methoddef_toproto m) ctx.

Definition upb_MethodDef_ToProto (m : upb_MethodDef) (a : upb_Arena) :=
  let ctx := a in upb_ToProto_ConvertMethodDef ctx m.

Definition upb_ToProto_ConvertServiceDef (ctx : upb_Arena) (s : upb_ServiceDef) :=
  setjmp_return (servicedef_toproto s) ctx.

Definition upb_ServiceDef_ToProto (s : upb_ServiceDef) (a : upb_Arena) :=
  let ctx := a in upb_ToProto_ConvertServiceDef ctx s.

End Platform.

(** ** Escaped text: the spec's rules *)

(** Following the spec's words ([escape_bytes], rules in scanning order):
    the six special bytes become a two-character escape, any other byte
    in [[0x20, 0x7f]] is emitted verbatim, every other byte becomes a
    three-digit octal escape. *)
Definition escape_byte_spec (b : byte) : list byte :=
  let c := uchar_val b in
  if c =? 10 then [x5c; "n"%byte]
  else if c =? 13 then [x5c; "r"%byte]
  else if c =? 9 then [x5c; "t"%byte]
  else if c =? 92 then [x5c; x5c]
  else if c =? 39 then [x5c; x27]
  else if c =? 34 then [x5c; x22]
  else if (0x20 <=? c) && (c <=? 0x7f) then [b]
  else [x5c; digit (c / 64); digit (c / 8 mod 8); digit (c mod 8)].

Definition escape_bytes_spec (raw : list byte) : list byte :=
  flat_map escape_byte_spec raw.

(** Modelled from the spec: the standard unescaping of such text, which
    def_to_proto.c does not define.  A backslash starts a two-character escape or a
    three-digit octal escape; any other byte stands for itself. *)
Definition octal_digit (b : byte) : option Z :=
  let c := uchar_val b in
  if (48 <=? c) && (c <=? 55) then Some (c - 48) else None.

Fixpoint unescape (text : list byte) : option (list byte) :=
  match text with
  | [] => Some []
  | b :: text1 =>
      if Byte.eqb b x5c then
        match text1 with
        | [] => None
        | c :: text2 =>
            if Byte.eqb c "n" then cons x0a <$> unescape text2
            else if Byte.eqb c "r" then cons x0d <$> unescape text2
            else if Byte.eqb c "t" then cons x09 <$> unescape text2
            else if Byte.eqb c x5c then cons x5c <$> unescape text2
            else if Byte.eqb c x27 then cons x27 <$> unescape text2
            else if Byte.eqb c x22 then cons x22 <$> unescape text2
            else
              match text2 with
              | d2 :: d3 :: text4 =>
                  match octal_digit c, octal_digit d2, octal_digit d3 with
                  | Some o1, Some o2, Some o3 =>
                      if o1 <? 4
                      then cons (to_byte (64 * o1 + 8 * o2 + o3)) <$> unescape text4
                      else None
                  | _, _, _ => None
                  end
              | _ => None
              end
        end
      else cons b <$> unescape text1
  end.

(** [*dst++ = c] for each [c] of [cs] in turn, and then [k]. *)
Fixpoint stores {R} (cs : list byte) (k : list byte -> nat -> option R)
  (p : list byte) (dst : nat) : option R :=
  match cs with
  | [] => k p dst
  | c :: cs' => '(p, dst) ← store p dst (uchar_val c); stores cs' k p dst
  end.

(** ** Slot arrays and their children *)

(** The slot array [out] has one slot per child, and slot [i] holds what
    [conv] returned for child [i]. *)
Definition slots_hold {A B} (conv : A -> M B) (children : list A) (out : slots B) : Prop :=
  length out = length children /\
  forall i child, children !! i = Some child ->
    exists y a1 a2, conv child a1 = Done y a2 /\ out !! i = Some (Some y).


(** ** Checked allocation *)

(** Every allocator call of [m] is followed by [CHK_OOM]: when [m]
    finishes, the outcomes [used] it took from the arena are all
    successes. *)
Definition checks_oom {A} (m : M A) : Prop :=
  forall a y a', m a = Done y a' ->
    exists used, a = used ++ a' /\ Forall (eq true) used.

(** ** A small schema *)

Definition arena_view (s : string) : upb_StringView :=
  {| data_storage := InArena; data := list_byte_of_string s |}.

Definition zero_value : upb_MessageValue :=
  {| bool_val := false;
     float_val := S754_zero false;
     double_val := S754_zero false;
     int32_val := 0; int64_val := 0; uint32_val := 0; uint64_val := 0;
     str_val := {| data_storage := InDefPool; data := [] |} |}.

Definition int32_value (n : Z) : upb_MessageValue :=
  {| bool_val := negb (n =? 0);
     float_val := S754_zero false;
     double_val := S754_zero false;
     int32_val := n; int64_val := n; uint32_val := n; uint64_val := n;
     str_val := {| data_storage := InDefPool; data := [] |} |}.

Definition double_value (v : spec_float) : upb_MessageValue :=
  {| bool_val := false;
     float_val := v;
     double_val := v;
     int32_val := 0; int64_val := 0; uint32_val := 0; uint64_val := 0;
     str_val := {| data_storage := InDefPool; data := [] |} |}.

Definition bytes_value (raw : list byte) : upb_MessageValue :=
  {| bool_val := false;
     float_val := S754_zero false;
     double_val := S754_zero false;
     int32_val := 0; int64_val := 0; uint32_val := 0; uint64_val := 0;
     str_val := {| data_storage := InDefPool; data := raw |} |}.

Definition default_or_zero (default : option upb_MessageValue) : upb_MessageValue :=
  match default with
  | Some d => d
  | None => zero_value
  end.

(** An optional field without json name, oneof or options. *)
Definition field_def (name : string) (number type : Z) (ctype : upb_CType)
  (msg_sub : option string) (default : option upb_MessageValue) : upb_FieldDef :=
  {| upb_FieldDef_Name := name;
     upb_FieldDef_Number := number;
     upb_FieldDef_Label := 1;
     upb_FieldDef_Type := type;
     upb_FieldDef_CType := ctype;
     upb_FieldDef_HasJsonName := false;
     upb_FieldDef_JsonName := "";
     upb_FieldDef_IsSubMessage := bool_decide (is_Some msg_sub);
     upb_FieldDef_MessageSubDef := msg_sub;
     upb_FieldDef_EnumSubDef := None;
     upb_FieldDef_IsExtension := false;
     upb_FieldDef_ContainingType := None;
     upb_FieldDef_HasDefault := bool_decide (is_Some default);
     upb_FieldDef_Default := default_or_zero default;
     upb_FieldDef_ContainingOneof := None;
     _upb_FieldDef_IsProto3Optional := false;
     upb_FieldDef_HasOptions := false;
     upb_FieldDef_Options := [] |}.

(** [int32 x = 1 [default = 5]] *)
Definition field_x : upb_FieldDef :=
  field_def "x" 1 5 kUpb_CType_Int32 None (Some (int32_value 5)).

(** [double ratio = 2 [default = nan]] *)
Definition field_ratio : upb_FieldDef :=
  field_def "ratio" 2 1 kUpb_CType_Double None (Some (double_value S754_nan)).

(** [bytes raw = 3], its default the bytes 0x00 and 0x41 *)
Definition field_raw : upb_FieldDef :=
  field_def "raw" 3 12 kUpb_CType_Bytes None (Some (bytes_value [x00; x41])).

(** [Inner inner = 4] *)
Definition field_inner : upb_FieldDef :=
  field_def "inner" 4 11 kUpb_CType_Message (Some "a.b.Inner"%string) None.

Definition message_def (name full_name : string) (fields : list upb_FieldDef)
  (oneofs : list upb_OneofDef) (reserved_names : list (list byte)) : upb_MessageDef :=
  {| upb_MessageDef_Name := name;
     upb_MessageDef_FullName := full_name;
     upb_MessageDef_Fields := fields;
     upb_MessageDef_Oneofs := oneofs;
     upb_MessageDef_NestedMessages := [];
     upb_MessageDef_NestedEnums := [];
     upb_MessageDef_NestedExtensions := [];
     upb_MessageDef_ExtensionRanges := [];
     upb_MessageDef_ReservedRanges := [];
     upb_MessageDef_ReservedNames := reserved_names;
     upb_MessageDef_HasOptions := false;
     upb_MessageDef_Options := [] |}.

(** [message M { optional int32 x = 1 [default = 5]; }] *)
Definition message_M : upb_MessageDef := message_def "M" "a.b.M" [field_x] [] [].

(** [message Empty {}] *)
Definition message_Empty : upb_MessageDef := message_def "Empty" "a.b.Empty" [] [] [].

(** [message Choice { oneof kind {} }] *)
Definition message_Choice : upb_MessageDef :=
  message_def "Choice" "a.b.Choice" []
    [{| upb_OneofDef_Name := "kind";
        upb_OneofDef_HasOptions := false;
        upb_OneofDef_Options := [] |}] [].

(** [message Old { reserved "gone"; }] *)
Definition message_Old : upb_MessageDef :=
  message_def "Old" "a.b.Old" [] [] [list_byte_of_string "gone"].

(** [enum E { A = 0; B = 1; reserved "OLD"; }] *)
Definition enum_E : upb_EnumDef :=
  {| upb_EnumDef_Name := "E";
     upb_EnumDef_FullName := "a.b.E";
     upb_EnumDef_Values :=
       [{| upb_EnumValueDef_Name := "A"; upb_EnumValueDef_Number := 0;
           upb_EnumValueDef_HasOptions := false; upb_EnumValueDef_Options := [] |};
        {| upb_EnumValueDef_Name := "B"; upb_EnumValueDef_Number := 1;
           upb_EnumValueDef_HasOptions := false; upb_EnumValueDef_Options := [] |}];
     upb_EnumDef_ReservedRanges := [];
     upb_EnumDef_ReservedNames := [list_byte_of_string "OLD"];
     upb_EnumDef_HasOptions := false;
     upb_EnumDef_Options := [] |}.

(** The file [a/b.proto]: [syntax = "proto3"; package a.b;] and the
    message [M]. *)
Definition file_ab : upb_FileDef :=
  {| upb_FileDef_Name := "a/b.proto";
     upb_FileDef_Package := Some "a.b"%string;
     upb_FileDef_Syntax := kUpb_Syntax_Proto3;
     upb_FileDef_Edition := 0;
     upb_FileDef_Dependencies := [];
     _upb_FileDef_PublicDependencyIndexes := [];
     _upb_FileDef_WeakDependencyIndexes := [];
     upb_FileDef_TopLevelMessages := [message_M];
     upb_FileDef_TopLevelEnums := [enum_E];
     upb_FileDef_Services := [];
     upb_FileDef_TopLevelExtensions := [];
     upb_FileDef_HasOptions := false;
     upb_FileDef_Options := [] |}.

(** What [message_M], [message_Empty] and [field_x] convert to. *)
Definition field_x_proto : FieldDescriptorProto :=
  {| FieldDescriptorProto_name := Some (arena_view "x");
     FieldDescriptorProto_number := Some 1;
     FieldDescriptorProto_label := Some 1;
     FieldDescriptorProto_type := Some 5;
     FieldDescriptorProto_json_name := None;
     FieldDescriptorProto_type_name := None;
     FieldDescriptorProto_extendee := None;
     FieldDescriptorProto_default_value := Some (arena_view "5");
     FieldDescriptorProto_oneof_index := None;
     FieldDescriptorProto_proto3_optional := None;
     FieldDescriptorProto_options := None |}.

Definition message_proto (name : string) (fields : slots FieldDescriptorProto)
  : DescriptorProto :=
  {| DescriptorProto_name := Some (arena_view name);
     DescriptorProto_field := fields;
     DescriptorProto_oneof_decl := [];
     DescriptorProto_nested_type := [];
     DescriptorProto_enum_type := [];
     DescriptorProto_extension := [];
     DescriptorProto_extension_range := [];
     DescriptorProto_reserved_range := [];
     DescriptorProto_reserved_name := [];
     DescriptorProto_options := None |}.


(** ** Numeric defaults *)

(** The values the default of a field of a numeric kind can take: the
    integers of the kind's width, the binary32 floats and the binary64
    doubles. *)
Definition numeric_in_range (type : upb_CType) (d : upb_MessageValue) : Prop :=
  match type with
  | kUpb_CType_Int32 => - 2 ^ 31 <= int32_val d < 2 ^ 31
  | kUpb_CType_Int64 => - 2 ^ 63 <= int64_val d < 2 ^ 63
  | kUpb_CType_UInt32 => 0 <= uint32_val d < 2 ^ 32
  | kUpb_CType_UInt64 => 0 <= uint64_val d < 2 ^ 64
  | kUpb_CType_Float => valid_binary 24 128 (float_val d) = true
  | kUpb_CType_Double => valid_binary 53 1024 (double_val d) = true
  | _ => False
  end.


(** ** Plain bytes *)

(** A byte that neither loop of [default_bytes] escapes: [special_escape]
    has no escape for it and [upb_isprint] accepts it. *)
Definition plain_byte (b : byte) : bool :=
  (special_escape (uchar_val b) <? 0) && upb_isprint (uchar_val b).

(** ** Conversions and the arena *)

(** How a computation may depend on the arena [a]: what it leaves is a
    rest of [a]; if it finishes, it finishes with the same value when no
    allocator call fails (the arena [[]]); if it leaves through
    [UPB_LONGJMP], some allocator call of [a] fails. *)
Definition alloc_sound {A} (m : M A) : Prop :=
  forall a,
    match m a with
    | Done y a' => (exists used, a = used ++ a') /\ m [] = Done y []
    | LongJmp => In false a
    | Fault _ => True
    end.

(** [m] finishes when no allocator call fails. *)
Definition succeeds {A} (m : M A) : Prop := exists y, m [] = Done y [].

(** ** Undefined behaviour *)

(** The undefined behaviour [m] can run into is among [P]. *)
Definition faults_within {A} (P : fault -> Prop) (m : M A) : Prop :=
  forall a flt, m a = Fault flt -> P flt.

(** [m] never finishes: it leaves through [UPB_LONGJMP] or runs into
    undefined behaviour among [P]. *)
Definition never_finishes {A} (P : fault -> Prop) (m : M A) : Prop :=
  forall a,
    match m a with
    | Done _ _ => False
    | LongJmp => True
    | Fault flt => P flt
    end.

(** The undefined behaviour of a converter that follows a null link or
    meets a default of message kind. *)
Definition null_or_unreachable (flt : fault) : Prop :=
  flt = NullDeref \/ flt = Unreachable.

(** ** The caller's contract *)

(** What [default_string] relies on for the default of [f]: a kind that
    has a default, an enum default that names a value of the enum, a
    numeric default in the range of its kind. *)
Definition default_ok (f : upb_FieldDef) : Prop :=
  let d := upb_FieldDef_Default f in
  match upb_FieldDef_CType f with
  | kUpb_CType_Bool | kUpb_CType_String | kUpb_CType_Bytes => True
  | kUpb_CType_Enum =>
      exists e, upb_FieldDef_EnumSubDef f = Some e /\
                is_Some (upb_EnumDef_FindValueByNumber e (int32_val d))
  | kUpb_CType_Message => False
  | type => numeric_in_range type d
  end.

(** What [fielddef_toproto] relies on: the links it follows are resolved
    and the default, if any, is as [default_string] needs it. *)
Definition field_ok (f : upb_FieldDef) : Prop :=
  (upb_FieldDef_IsSubMessage f = true -> is_Some (upb_FieldDef_MessageSubDef f)) /\
  (upb_FieldDef_IsSubMessage f = false ->
   upb_FieldDef_CType f = kUpb_CType_Enum -> is_Some (upb_FieldDef_EnumSubDef f)) /\
  (upb_FieldDef_IsExtension f = true -> is_Some (upb_FieldDef_ContainingType f)) /\
  (upb_FieldDef_HasDefault f = true -> default_ok f).

Fixpoint msg_ok (m : upb_MessageDef) : Prop :=
  Forall field_ok (upb_MessageDef_Fields m) /\
  Forall field_ok (upb_MessageDef_NestedExtensions m) /\
  (fix all_ok (nested : list upb_MessageDef) : Prop :=
     match nested with
     | [] => True
     | child :: rest => msg_ok child /\ all_ok rest
     end) (upb_MessageDef_NestedMessages m).

Definition file_ok (f : upb_FileDef) : Prop :=
  Forall msg_ok (upb_FileDef_TopLevelMessages f) /\
  Forall field_ok (upb_FileDef_TopLevelExtensions f).

(** ** Computations that agree *)

(** [m] and [m'] have the same outcome on every arena. *)
Definition agree {A} (m m' : M A) : Prop := forall a, m a = m' a.

(** ** The strings of a proto *)

Definition opt_list {B} (o : option B) : list B :=
  match o with
  | Some x => [x]
  | None => []
  end.

(** The protos in the filled slots of a repeated field. *)
Definition filled {B} (l : slots B) : list B := flat_map opt_list l.

Definition field_strings (p : FieldDescriptorProto) : list upb_StringView :=
  opt_list (FieldDescriptorProto_name p)
    ++ opt_list (FieldDescriptorProto_json_name p)
    ++ opt_list (FieldDescriptorProto_type_name p)
    ++ opt_list (FieldDescriptorProto_extendee p)
    ++ opt_list (FieldDescriptorProto_default_value p).

Definition oneof_strings (p : OneofDescriptorProto) : list upb_StringView :=
  opt_list (OneofDescriptorProto_name p).

Definition enumvalue_strings (p : EnumValueDescriptorProto) : list upb_StringView :=
  opt_list (EnumValueDescriptorProto_name p).

(** The strings of an enum proto other than its reserved names. *)
Definition enum_strings (p : EnumDescriptorProto) : list upb_StringView :=
  opt_list (EnumDescriptorProto_name p)
    ++ flat_map enumvalue_strings (filled (EnumDescriptorProto_value p)).

Definition method_strings (p : MethodDescriptorProto) : list upb_StringView :=
  opt_list (MethodDescriptorProto_name p)
    ++ opt_list (MethodDescriptorProto_input_type p)
    ++ opt_list (MethodDescriptorProto_output_type p).

Definition service_strings (p : ServiceDescriptorProto) : list upb_StringView :=
  opt_list (ServiceDescriptorProto_name p)
    ++ flat_map method_strings (filled (ServiceDescriptorProto_method p)).

(** The strings of a message proto and of the protos nested in it, other
    than reserved names. *)
Fixpoint msg_strings (p : DescriptorProto) : list upb_StringView :=
  opt_list (DescriptorProto_name p)
    ++ flat_map field_strings (filled (DescriptorProto_field p))
    ++ flat_map oneof_strings (filled (DescriptorProto_oneof_decl p))
    ++ (fix nested_strings (l : list (option DescriptorProto)) :=
          match l with
          | [] => []
          | Some child :: rest => msg_strings child ++ nested_strings rest
          | None :: rest => nested_strings rest
          end) (DescriptorProto_nested_type p)
    ++ flat_map enum_strings (filled (DescriptorProto_enum_type p))
    ++ flat_map field_strings (filled (DescriptorProto_extension p)).

(** The strings of a file proto and of the protos in it, other than
    reserved names. *)
Definition file_strings (p : FileDescriptorProto) : list upb_StringView :=
  opt_list (FileDescriptorProto_name p)
    ++ opt_list (FileDescriptorProto_package p)
    ++ opt_list (FileDescriptorProto_syntax p)
    ++ filled (FileDescriptorProto_dependency p)
    ++ flat_map msg_strings (filled (FileDescriptorProto_message_type p))
    ++ flat_map enum_strings (filled (FileDescriptorProto_enum_type p))
    ++ flat_map service_strings (filled (FileDescriptorProto_service p))
    ++ flat_map field_strings (filled (FileDescriptorProto_extension p)).

Definition in_arena (v : upb_StringView) : Prop := data_storage v = InArena.

(** ** A small service *)

(** [rpc Get (M) returns (stream M);] *)
Definition method_Get : upb_MethodDef :=
  {| upb_MethodDef_Name := "Get";
     upb_MethodDef_InputType := "a.b.M";
     upb_MethodDef_OutputType := "a.b.M";
     upb_MethodDef_ClientStreaming := false;
     upb_MethodDef_ServerStreaming := true;
     upb_MethodDef_HasOptions := false;
     upb_MethodDef_Options := [] |}.

(** [service S { rpc Get (M) returns (stream M); }] *)
Definition service_S : upb_ServiceDef :=
  {| upb_ServiceDef_Name := "S";
     upb_ServiceDef_Methods := [method_Get];
     upb_ServiceDef_HasOptions := false;
     upb_ServiceDef_Options := [] |}.

(** * Properties *)

(** ** The conversion monad *)

Lemma bind_Done_inv {A B} (m : M A) (k : A -> M B) a y a' :
  bind m k a = Done y a' ->
  exists x a1, m a = Done x a1 /\ k x a1 = Done y a'.
Proof.
  unfold bind. destruct (m a) as [x a1| |]; [eauto | discriminate..].
Qed.

Lemma bind_Done {A B} (m : M A) (k : A -> M B) a x a1 :
  m a = Done x a1 -> bind m k a = k x a1.
Proof. unfold bind. now intros ->. Qed.

Lemma CHK_OOM_Done_inv val a u a' :
  CHK_OOM val a = Done u a' -> val = true /\ a' = a.
Proof. unfold CHK_OOM. destruct val; [intros [= _ ->]; auto | discriminate]. Qed.

Lemma when_Done_inv {A} cond (value : M A) a o a' :
  when cond value a = Done o a' ->
  if cond then exists x, value a = Done x a' /\ o = Some x
  else o = None /\ a' = a.
Proof.
  unfold when. destruct cond.
  - intros H. apply bind_Done_inv in H as (x & a1 & Hx & [= <- <-]). eauto.
  - intros [= <- <-]. auto.
Qed.

(** Splits an equation [m a = Done y a'] along the binds of [m]. *)
Ltac inv_Done H :=
  lazymatch type of H with
  | bind _ _ _ = Done _ _ =>
      let x := fresh "x" in
      let a := fresh "a" in
      let Hx := fresh "Hx" in
      apply bind_Done_inv in H as (x & a & Hx & H); inv_Done H
  | ret _ _ = Done _ _ => injection H as H ?; subst
  | _ => idtac
  end.

(** ** [qual_dup] *)

Lemma length_list_byte_of_string (s : string) :
  length (list_byte_of_string s) = String.length s.
Proof.
  unfold list_byte_of_string. rewrite length_map.
  induction s as [|c s IH]; [reflexivity|].
  cbn [list_ascii_of_string String.length length]. now rewrite IH.
Qed.

Lemma qual_dup_Done (s : string) (a a' : upb_Arena) :
  upb_Arena_Malloc a = Done true a' ->
  qual_dup s a =
  Done {| data_storage := InArena; data := "."%byte :: list_byte_of_string s |} a'.
Proof.
  intros Hp. unfold qual_dup. rewrite (bind_Done _ _ _ _ _ Hp).
  cbn. unfold ret. do 3 f_equal.
  apply firstn_all2. now rewrite length_list_byte_of_string.
Qed.

(** C9: for every non-empty name, [qual_dup] returns the dot followed by
    the name: the view starts with ['.'] and its size is the length of the
    name plus one. *)
Theorem qual_dup_is_dot_name (s : string) (a a' : upb_Arena) :
  s <> ""%string ->
  upb_Arena_Malloc a = Done true a' ->
  exists v,
    qual_dup s a = Done v a' /\
    data v = "."%byte :: list_byte_of_string s /\
    string_of_list_byte (data v) = ("." ++ s)%string /\
    head (data v) = Some "."%byte /\
    size v = S (String.length s).
Proof.
  intros _ Hp. eexists. split; [apply (qual_dup_Done s a a' Hp)|].
  cbn [data]. repeat split.
  - change ("."%byte :: list_byte_of_string s)
      with (list_byte_of_string ("." ++ s)%string).
    apply string_of_list_byte_of_string.
  - unfold size. cbn [data length]. now rewrite length_list_byte_of_string.
Qed.

Lemma qual_dup_is_dot_name_witness :
  exists v,
    qual_dup "pkg.Msg" [] = Done v [] /\
    data v = "."%byte :: list_byte_of_string "pkg.Msg" /\
    string_of_list_byte (data v) = ".pkg.Msg"%string /\
    head (data v) = Some "."%byte /\
    size v = 8%nat.
Proof.
  apply (qual_dup_is_dot_name "pkg.Msg" [] []); [discriminate | reflexivity].
Defined.

(** ** [default_bytes] *)

Lemma to_byte_uchar_val (b : byte) : to_byte (uchar_val b) = b.
Proof. destruct b; reflexivity. Qed.

Lemma stores_fit {R} (cs : list byte) (k : list byte -> nat -> option R)
  (p : list byte) (dst : nat) :
  (dst + length cs <= length p)%nat ->
  stores cs k p dst =
  k (take dst p ++ cs ++ drop (dst + length cs) p) (dst + length cs)%nat.
Proof.
  revert p dst. induction cs as [|c cs IH]; intros p dst Hfit; cbn [stores length] in *.
  - rewrite Nat.add_0_r, app_nil_l, take_drop. reflexivity.
  - unfold store. destruct (Nat.ltb_spec dst (length p)) as [Hlt|]; [|lia].
    cbn. rewrite IH by (rewrite length_insert; lia).
    rewrite to_byte_uchar_val.
    rewrite (take_S_r _ dst c) by (now apply list_lookup_insert_eq).
    rewrite take_insert_ge, drop_insert_lt by lia.
    rewrite <- app_assoc. cbn [app].
    now replace (dst + S (length cs))%nat with (S dst + length cs)%nat by lia.
Qed.

Section Escaping.

Variable sgn : bool.

(** One round of either loop, byte by byte against the spec's rules. *)
Lemma escaped_size_cons (b : byte) (rest : list byte) (n : nat) :
  escaped_size sgn (b :: rest) n =
  escaped_size sgn rest (n + length (escape_byte_spec b)).
Proof. destruct sgn, b; reflexivity. Qed.

Lemma write_escaped_cons (b : byte) (rest p : list byte) (dst : nat) :
  write_escaped sgn (b :: rest) p dst =
  stores (escape_byte_spec b) (write_escaped sgn rest) p dst.
Proof. destruct sgn, b; reflexivity. Qed.

Lemma escaped_size_spec (src : list byte) (n : nat) :
  escaped_size sgn src n = (n + length (escape_bytes_spec src))%nat.
Proof.
  revert n. induction src as [|b src IH]; intros n.
  - cbn. lia.
  - rewrite escaped_size_cons, IH. unfold escape_bytes_spec.
    cbn [flat_map]. rewrite length_app. lia.
Qed.

Lemma write_escaped_spec (src p : list byte) (dst : nat) :
  (dst + length (escape_bytes_spec src) <= length p)%nat ->
  write_escaped sgn src p dst =
  Some (take dst p ++ escape_bytes_spec src
          ++ drop (dst + length (escape_bytes_spec src)) p,
        (dst + length (escape_bytes_spec src))%nat).
Proof.
  revert p dst. induction src as [|b src IH]; intros p dst.
  - cbn. rewrite Nat.add_0_r, take_drop. reflexivity.
  - unfold escape_bytes_spec. cbn [flat_map]. fold (escape_bytes_spec src).
    rewrite length_app. intros Hfit.
    set (tok := escape_byte_spec b) in *.
    set (out := escape_bytes_spec src) in *.
    rewrite write_escaped_cons. fold tok.
    rewrite stores_fit by lia.
    assert (Htake : length (take dst p) = dst) by (apply length_take_le; lia).
    rewrite IH; fold out.
    + assert (Hl : length (take dst p ++ tok) = (dst + length tok)%nat)
        by (rewrite length_app, Htake; reflexivity).
      rewrite (app_assoc (take dst p) tok).
      rewrite take_app_length' by (now rewrite Hl).
      rewrite drop_app_ge by (rewrite Hl; lia).
      rewrite Hl, drop_drop, <- !app_assoc.
      replace (dst + length tok + length out - (dst + length tok))%nat
        with (length out) by lia.
      now rewrite !Nat.add_assoc.
    + rewrite !length_app, length_drop, Htake. lia.
Qed.

End Escaping.

Lemma write_escaped_exact (sgn : bool) (src : list byte) :
  write_escaped sgn src (replicate (escaped_size sgn src 0) x00) 0 =
  Some (escape_bytes_spec src, escaped_size sgn src 0).
Proof.
  rewrite write_escaped_spec by (rewrite length_replicate, escaped_size_spec; lia).
  rewrite escaped_size_spec, take_0, drop_ge, app_nil_r
    by (rewrite length_replicate; lia).
  reflexivity.
Qed.

Lemma default_bytes_Done (sgn : bool) (val : upb_StringView) (a a' : upb_Arena) :
  upb_Arena_Malloc a = Done true a' ->
  default_bytes sgn val a =
  Done {| data_storage := InArena; data := escape_bytes_spec (data val) |} a'.
Proof.
  intros Hp. unfold default_bytes. rewrite (bind_Done _ _ _ _ _ Hp).
  cbn. now rewrite write_escaped_exact.
Qed.



(** The escaped text consists of bytes from 0x20 to 0x7f only. *)
Lemma escape_byte_spec_range (b : byte) :
  forallb (fun c => (0x20 <=? uchar_val c) && (uchar_val c <=? 0x7f))
    (escape_byte_spec b) = true.
Proof. destruct b; reflexivity. Qed.

Lemma escape_bytes_spec_range (raw : list byte) :
  forallb (fun c => (0x20 <=? uchar_val c) && (uchar_val c <=? 0x7f))
    (escape_bytes_spec raw) = true.
Proof.
  induction raw as [|b raw IH]; [reflexivity|].
  unfold escape_bytes_spec. cbn [flat_map]. rewrite forallb_app.
  now rewrite escape_byte_spec_range.
Qed.

(** Unescaping the escaped text gives the raw bytes back. *)
Lemma unescape_escape_byte (b : byte) (text : list byte) :
  unescape (escape_byte_spec b ++ text) = cons b <$> unescape text.
Proof. destruct b; reflexivity. Qed.

Lemma unescape_escape_bytes (raw : list byte) :
  unescape (escape_bytes_spec raw) = Some raw.
Proof.
  induction raw as [|b raw IH]; [reflexivity|].
  unfold escape_bytes_spec. cbn [flat_map].
  rewrite unescape_escape_byte. fold (escape_bytes_spec raw). now rewrite IH.
Qed.

Lemma default_bytes_round_trip (sgn : bool) (val v : upb_StringView) (a a' : upb_Arena) :
  default_bytes sgn val a = Done v a' ->
  unescape (data v) = Some (data val) /\ data_storage v = InArena.
Proof.
  unfold default_bytes, bind, upb_Arena_Malloc, CHK_OOM.
  rewrite write_escaped_exact.
  destruct a as [|[] a]; intros [= <- _] || discriminate;
    cbn [data data_storage]; auto using unescape_escape_bytes.
Qed.

Lemma default_bytes_output_range (sgn : bool) (val v : upb_StringView) (a a' : upb_Arena) :
  default_bytes sgn val a = Done v a' ->
  forallb (fun c => (0x20 <=? uchar_val c) && (uchar_val c <=? 0x7f)) (data v) = true.
Proof.
  unfold default_bytes, bind, upb_Arena_Malloc, CHK_OOM.
  rewrite write_escaped_exact.
  destruct a as [|[] a]; intros [= <- _] || discriminate;
    apply escape_bytes_spec_range.
Qed.

(** C3: the bytes [default_bytes] emits verbatim are those from 0x20 to
    0x7f ([upb_isprint]), not from 0x20 to 0x7e: the byte 0x7f is copied
    to the output as it is. *)
Theorem default_bytes_emits_del (sgn : bool) :
  default_bytes sgn {| data_storage := InDefPool; data := [x7f] |} [] =
  Done {| data_storage := InArena; data := [x7f] |} []
  /\ upb_isprint (char_val sgn x7f) = true
  /\ ~ (0x20 <= uchar_val x7f <= 0x7e).
Proof.
  split; [|split].
  - destruct sgn; reflexivity.
  - destruct sgn; reflexivity.
  - cbn. lia.
Qed.

(** ** [default_string] *)

Lemma SFeqb_refl (v : spec_float) : v <> S754_nan -> SFeqb v v = true.
Proof.
  destruct v as [s|s| |s m e]; intros Hnan; try easy; unfold SFeqb; cbn.
  - now destruct s.
  - now destruct s; rewrite Z.compare_refl, Pos.compare_cont_refl.
Qed.

Lemma special_float_cases (val : spec_float) :
  special_float val =
  match val with
  | S754_infinity false => Some "inf"%string
  | S754_infinity true => Some "-inf"%string
  | S754_nan => Some "nan"%string
  | _ => None
  end.
Proof.
  destruct val as [s|s| |s m e]; try reflexivity.
  - now destruct s.
  - unfold special_float.
    rewrite (SFeqb_refl (S754_finite s m e)) by discriminate.
    now destruct s.
Qed.

(** [default_string] on a float or double default, over any formatter. *)
Lemma default_string_with_floats (sgn : bool)
  (vsnprintf_g : Z -> spec_float -> list byte) (f : upb_FieldDef) :
  upb_FieldDef_CType f = kUpb_CType_Float \/
  upb_FieldDef_CType f = kUpb_CType_Double ->
  let d := upb_FieldDef_Default f in
  let val := match upb_FieldDef_CType f with
             | kUpb_CType_Float => float_val d
             | _ => double_val d
             end in
  let digits := match upb_FieldDef_CType f with
                | kUpb_CType_Float => 9
                | _ => 17
                end in
  default_string_with sgn vsnprintf_g f =
  match val with
  | S754_infinity false => strviewdup "inf"
  | S754_infinity true => strviewdup "-inf"
  | S754_nan => strviewdup "nan"
  | S754_zero _ | S754_finite _ _ _ => printf_dup (vsnprintf_g digits val)
  end.
Proof.
  intros Hkind d val digits.
  unfold default_string_with. fold d. subst val digits.
  destruct Hkind as [-> | ->]; cbn [default_special];
    rewrite special_float_cases;
    [destruct (float_val d) as [s|s| |s m e]
    |destruct (double_val d) as [s|s| |s m e]];
    try reflexivity; now destruct s.
Qed.

(** C5: for a float or double default the special values are tested
    before the formatter is called: plus infinity gives [inf], minus
    infinity [-inf], a value that differs from itself [nan], whatever the
    formatter would print for them, also a text that would trip the
    assertion of [printf_dup]: the result does not depend on the
    formatter, which they do not reach.  Every other value, and no special
    one, is formatted with 9 (float) or 17 (double) significant digits. *)
Theorem default_string_special_floats (sgn : bool) (f : upb_FieldDef) :
  upb_FieldDef_CType f = kUpb_CType_Float \/
  upb_FieldDef_CType f = kUpb_CType_Double ->
  let d := upb_FieldDef_Default f in
  let val := match upb_FieldDef_CType f with
             | kUpb_CType_Float => float_val d
             | _ => double_val d
             end in
  let digits := match upb_FieldDef_CType f with
                | kUpb_CType_Float => 9
                | _ => 17
                end in
  (SFeqb val val = false <-> val = S754_nan) /\
  (forall vsnprintf_g : Z -> spec_float -> list byte,
     default_string_with sgn vsnprintf_g f =
     match val with
     | S754_infinity false => strviewdup "inf"
     | S754_infinity true => strviewdup "-inf"
     | S754_nan => strviewdup "nan"
     | S754_zero _ | S754_finite _ _ _ => printf_dup (vsnprintf_g digits val)
     end) /\
  default_string sgn f =
  match val with
  | S754_infinity false => strviewdup "inf"
  | S754_infinity true => strviewdup "-inf"
  | S754_nan => strviewdup "nan"
  | S754_zero _ | S754_finite _ _ _ => printf_dup (format_g digits val)
  end.
Proof.
  intros Hkind d val digits. split; [|split].
  - split; [|now intros ->].
    destruct val eqn:E; try reflexivity; intros Hne;
      rewrite SFeqb_refl in Hne; discriminate.
  - intros vsnprintf_g. exact (default_string_with_floats sgn vsnprintf_g f Hkind).
  - exact (default_string_with_floats sgn format_g f Hkind).
Qed.

(** ** [fielddef_toproto] *)

Lemma qual_dup_Done_inv (s : string) (a a' : upb_Arena) (v : upb_StringView) :
  qual_dup s a = Done v a' ->
  v = {| data_storage := InArena; data := "."%byte :: list_byte_of_string s |}.
Proof.
  intros H. destruct a as [|[] a].
  - rewrite (qual_dup_Done s [] []) in H by reflexivity. congruence.
  - rewrite (qual_dup_Done s (true :: a) a) in H by reflexivity. congruence.
  - discriminate.
Qed.

Lemma full_name_of_Done_inv (def : option string) (a a' : upb_Arena) (s : string) :
  full_name_of def a = Done s a' -> def = Some s.
Proof. destruct def; [intros [= -> _]; reflexivity | discriminate]. Qed.

Ltac inv_names :=
  repeat match goal with
  | H : full_name_of _ _ = Done _ _ |- _ => apply full_name_of_Done_inv in H
  | H : qual_dup _ _ = Done _ _ |- _ => apply qual_dup_Done_inv in H
  end.

(** C6: in a converted field the type name is the qualified full name of
    the message sub-def whenever the field is a sub-message, whatever its
    C type; it is the qualified full name of the enum sub-def when the
    field is not a sub-message and its C type is enum; it is absent
    otherwise. *)
Theorem fielddef_type_name (sgn : bool) (f : upb_FieldDef) (a a' : upb_Arena)
  (proto : FieldDescriptorProto) :
  fielddef_toproto sgn f a = Done proto a' ->
  (upb_FieldDef_IsSubMessage f = true ->
   exists m, upb_FieldDef_MessageSubDef f = Some m /\
     FieldDescriptorProto_type_name proto =
     Some {| data_storage := InArena;
             data := "."%byte :: list_byte_of_string m |}) /\
  (upb_FieldDef_IsSubMessage f = false ->
   upb_FieldDef_CType f = kUpb_CType_Enum ->
   exists e, upb_FieldDef_EnumSubDef f = Some e /\
     FieldDescriptorProto_type_name proto =
     Some {| data_storage := InArena;
             data := "."%byte :: list_byte_of_string (upb_EnumDef_FullName e) |}) /\
  (upb_FieldDef_IsSubMessage f = false ->
   upb_FieldDef_CType f <> kUpb_CType_Enum ->
   FieldDescriptorProto_type_name proto = None).
Proof.
  intros H. unfold fielddef_toproto in H. inv_Done H.
  cbn [FieldDescriptorProto_type_name].
  match goal with
  | Ht : (if upb_FieldDef_IsSubMessage f then _ else _) _ = Done ?t _ |- _ =>
      rename Ht into Htype; rename t into type_name
  end.
  repeat split.
  - intros Hsub. rewrite Hsub in Htype. inv_Done Htype. inv_names.
    subst. eauto.
  - intros Hsub Henum. rewrite Hsub, Henum in Htype. inv_Done Htype. inv_names.
    destruct (upb_FieldDef_EnumSubDef f) as [e|]; [|discriminate].
    match goal with He : _ <$> Some e = Some _ |- _ => injection He as <- end.
    subst. eauto.
  - intros Hsub Hnot. rewrite Hsub in Htype.
    destruct (upb_FieldDef_CType f); try (now injection Htype as <-).
    now destruct Hnot.
Qed.

(** ** [filedef_toproto] *)

Lemma strviewdup2_Done_inv (str v : upb_StringView) (a a' : upb_Arena) :
  strviewdup2 str a = Done v a' ->
  v = {| data_storage := InArena; data := data str |}.
Proof.
  unfold strviewdup2, bind, upb_Arena_Malloc, CHK_OOM, ret.
  destruct a as [|[] a]; intros [= <- _] || discriminate; reflexivity.
Qed.

Lemma strviewdup_Done_inv (s : string) (v : upb_StringView) (a a' : upb_Arena) :
  strviewdup s a = Done v a' ->
  v = {| data_storage := InArena; data := list_byte_of_string s |}.
Proof. apply strviewdup2_Done_inv. Qed.

(** C7: in a converted file the package is present only if the file has a
    non-empty package name, the edition only if the syntax is the edition
    based one, the syntax only if the syntax is proto3, and it then is the
    text [proto3]; a proto2 file has no syntax. *)
Theorem filedef_package_edition_syntax (sgn : bool) (f : upb_FileDef)
  (a a' : upb_Arena) (proto : FileDescriptorProto) :
  filedef_toproto sgn f a = Done proto a' ->
  (forall v, FileDescriptorProto_package proto = Some v ->
     exists package, upb_FileDef_Package f = Some package /\
       package <> ""%string /\
       v = {| data_storage := InArena; data := list_byte_of_string package |}) /\
  (forall e, FileDescriptorProto_edition proto = Some e ->
     upb_FileDef_Syntax f = kUpb_Syntax_Editions /\ e = upb_FileDef_Edition f) /\
  (forall v, FileDescriptorProto_syntax proto = Some v ->
     upb_FileDef_Syntax f = kUpb_Syntax_Proto3 /\
     v = {| data_storage := InArena; data := list_byte_of_string "proto3" |}) /\
  (upb_FileDef_Syntax f = kUpb_Syntax_Proto2 ->
     FileDescriptorProto_syntax proto = None).
Proof.
  intros H. unfold filedef_toproto in H. inv_Done H.
  cbn [FileDescriptorProto_package FileDescriptorProto_edition
       FileDescriptorProto_syntax].
  match goal with
  | Hp : (match upb_FileDef_Package f with Some _ => _ | None => _ end) _ = Done ?p _,
    Hs : (match upb_FileDef_Syntax f with kUpb_Syntax_Proto3 => _ | _ => _ end) _ = Done ?s _
    |- _ => rename Hp into Hpackage; rename Hs into Hsyntax
  end.
  split; [|split; [|split]].
  - intros v ->. destruct (upb_FileDef_Package f) as [package|];
      [|discriminate Hpackage].
    apply when_Done_inv in Hpackage.
    destruct package as [|c package]; cbn in Hpackage.
    + now destruct Hpackage.
    + destruct Hpackage as (w & Hw & [= <-]).
      apply strviewdup_Done_inv in Hw. exists (String c package).
      repeat split; [discriminate | assumption].
  - intros e. destruct (upb_FileDef_Syntax f); intros [= <-] || discriminate.
    now split.
  - intros v ->. destruct (upb_FileDef_Syntax f); try discriminate Hsyntax.
    inv_Done Hsyntax.
    match goal with Hv : strviewdup _ _ = Done _ _ |- _ =>
      apply strviewdup_Done_inv in Hv end.
    split; congruence.
  - intros Hsyn. rewrite Hsyn in Hsyntax. now injection Hsyntax as <-.
Qed.

(** ** Repeated children *)

Section FillSlots.

Context {A B : Type}.
Variable conv : A -> M B.

Lemma fill_slots_null (children : list A) (i : nat) (a a' : upb_Arena)
  (r : option (slots B)) :
  fill_slots conv children i None a = Done r a' -> children = [] /\ r = None.
Proof.
  destruct children as [|child rest]; cbn.
  - intros [= <- _]. auto.
  - intros H. apply bind_Done_inv in H as (y & a1 & _ & H). discriminate.
Qed.

Lemma fill_slots_Done (children : list A) :
  forall (i : nat) (l : slots B) (a a' : upb_Arena) (r : option (slots B)),
  fill_slots conv children i (Some l) a = Done r a' ->
  (i + length children <= length l)%nat ->
  exists l', r = Some l' /\ length l' = length l /\
    (forall k, (k < i)%nat -> l' !! k = l !! k) /\
    (forall j child, children !! j = Some child ->
       exists y a1 a2, conv child a1 = Done y a2 /\ l' !! (i + j)%nat = Some (Some y)).
Proof.
  induction children as [|child rest IH]; intros i l a a' r H Hlen.
  - injection H as <- _. exists l. repeat split. intros j c [=].
  - cbn [fill_slots length] in *.
    apply bind_Done_inv in H as (y & a1 & Hy & H).
    apply IH in H as (l' & -> & Hl' & Hbefore & Hslots);
      [|rewrite length_insert; lia].
    rewrite length_insert in Hl'. exists l'. repeat split; [assumption | |].
    + intros k Hk. rewrite Hbefore by lia.
      apply list_lookup_insert_ne. lia.
    + intros [|j] c Hc.
      * injection Hc as <-. exists y, a, a1. split; [assumption|].
        rewrite Nat.add_0_r, Hbefore by lia.
        apply list_lookup_insert_eq. lia.
      * cbn in Hc. apply Hslots in Hc as (z & b1 & b2 & Hz & Hlook).
        exists z, b1, b2. split; [assumption|].
        now replace (i + S j)%nat with (S i + j)%nat by lia.
Qed.

(** A resized slot array filled by the loop. *)
Lemma resize_fill_slots (children : list A) (a a1 a' : upb_Arena)
  (arr r : option (slots B)) :
  resize (length children) a = Done arr a1 ->
  fill_slots conv children 0 arr a1 = Done r a' ->
  slots_hold conv children (repeated r).
Proof.
  intros Hresize Hfill. unfold resize in Hresize.
  apply bind_Done_inv in Hresize as (p & a2 & _ & [= <- <-]).
  destruct p.
  - apply fill_slots_Done in Hfill as (l' & -> & Hlen & _ & Hslots);
      [|rewrite length_replicate; lia].
    rewrite length_replicate in Hlen. now split.
  - apply fill_slots_null in Hfill as [-> ->]. split; [reflexivity|].
    intros i child [=].
Qed.

End FillSlots.

Lemma memcpy_int32_Done_inv (dst : option (slots Z)) (src out : list Z)
  (a a' : upb_Arena) :
  memcpy_int32 dst src a = Done out a' -> out = src.
Proof.
  destruct src, dst; cbn; intros [= <- _] || discriminate; reflexivity.
Qed.

Lemma msgdef_toproto_unfold (sgn : bool) (m : upb_MessageDef) :
  msgdef_toproto sgn m =
  (new_proto ;;;
   name <- strviewdup (upb_MessageDef_Name m) ;;
   fields <- resize (length (upb_MessageDef_Fields m)) ;;
   CHK_OOM (bool_decide (is_Some fields)) ;;;
   fields <- fill_slots (fielddef_toproto sgn) (upb_MessageDef_Fields m) 0 fields ;;
   oneofs <- resize (length (upb_MessageDef_Oneofs m)) ;;
   oneofs <- fill_slots oneofdef_toproto (upb_MessageDef_Oneofs m) 0 oneofs ;;
   nested_msgs <- resize (length (upb_MessageDef_NestedMessages m)) ;;
   nested_msgs <- fill_slots (msgdef_toproto sgn) (upb_MessageDef_NestedMessages m) 0 nested_msgs ;;
   nested_enums <- resize (length (upb_MessageDef_NestedEnums m)) ;;
   nested_enums <- fill_slots enumdef_toproto (upb_MessageDef_NestedEnums m) 0 nested_enums ;;
   nested_exts <- resize (length (upb_MessageDef_NestedExtensions m)) ;;
   nested_exts <- fill_slots (fielddef_toproto sgn) (upb_MessageDef_NestedExtensions m) 0 nested_exts ;;
   ext_ranges <- resize (length (upb_MessageDef_ExtensionRanges m)) ;;
   ext_ranges <- fill_slots extrange_toproto (upb_MessageDef_ExtensionRanges m) 0 ext_ranges ;;
   res_ranges <- resize (length (upb_MessageDef_ReservedRanges m)) ;;
   res_ranges <- fill_slots resrange_toproto (upb_MessageDef_ReservedRanges m) 0 res_ranges ;;
   res_names <- resize (length (upb_MessageDef_ReservedNames m)) ;;
   res_names <- fill_slots (fun name => ret (reserved_name_view name))
                  (upb_MessageDef_ReservedNames m) 0 res_names ;;
   options <- when (upb_MessageDef_HasOptions m)
                (SET_OPTIONS (upb_MessageDef_Options m)) ;;
   ret {| DescriptorProto_name := Some name;
          DescriptorProto_field := repeated fields;
          DescriptorProto_oneof_decl := repeated oneofs;
          DescriptorProto_nested_type := repeated nested_msgs;
          DescriptorProto_enum_type := repeated nested_enums;
          DescriptorProto_extension := repeated nested_exts;
          DescriptorProto_extension_range := repeated ext_ranges;
          DescriptorProto_reserved_range := repeated res_ranges;
          DescriptorProto_reserved_name := repeated res_names;
          DescriptorProto_options := options |}).
Proof. destruct m; reflexivity. Qed.

(** Uses the pairs of a [resize] and its loop among the hypotheses. *)
Ltac slots_from_loops :=
  repeat match goal with
  | Hr : resize (length ?children) _ = Done ?arr ?a1,
    Hf : fill_slots ?conv ?children 0 ?arr ?a1 = Done _ _ |- _ =>
      pose proof (resize_fill_slots conv children _ _ _ _ _ Hr Hf);
      clear Hf
  | Hc : CHK_OOM (bool_decide (is_Some ?arr)) ?a = Done _ _ |- _ =>
      apply CHK_OOM_Done_inv in Hc as [_ ->]
  end.

Lemma msgdef_toproto_slots (sgn : bool) (m : upb_MessageDef) (a a' : upb_Arena)
  (proto : DescriptorProto) :
  msgdef_toproto sgn m a = Done proto a' ->
  slots_hold (fielddef_toproto sgn) (upb_MessageDef_Fields m)
    (DescriptorProto_field proto) /\
  slots_hold oneofdef_toproto (upb_MessageDef_Oneofs m)
    (DescriptorProto_oneof_decl proto) /\
  slots_hold (msgdef_toproto sgn) (upb_MessageDef_NestedMessages m)
    (DescriptorProto_nested_type proto) /\
  slots_hold enumdef_toproto (upb_MessageDef_NestedEnums m)
    (DescriptorProto_enum_type proto) /\
  slots_hold (fielddef_toproto sgn) (upb_MessageDef_NestedExtensions m)
    (DescriptorProto_extension proto) /\
  slots_hold extrange_toproto (upb_MessageDef_ExtensionRanges m)
    (DescriptorProto_extension_range proto) /\
  slots_hold resrange_toproto (upb_MessageDef_ReservedRanges m)
    (DescriptorProto_reserved_range proto) /\
  slots_hold (fun name => ret (reserved_name_view name))
    (upb_MessageDef_ReservedNames m)
    (DescriptorProto_reserved_name proto).
Proof.
  intros H. rewrite msgdef_toproto_unfold in H.
  inv_Done H. slots_from_loops. cbn. tauto.
Qed.

Lemma enumdef_toproto_slots (e : upb_EnumDef) (a a' : upb_Arena)
  (proto : EnumDescriptorProto) :
  enumdef_toproto e a = Done proto a' ->
  slots_hold enumvaldef_toproto (upb_EnumDef_Values e)
    (EnumDescriptorProto_value proto) /\
  slots_hold enumresrange_toproto (upb_EnumDef_ReservedRanges e)
    (EnumDescriptorProto_reserved_range proto) /\
  slots_hold (fun name => ret (reserved_name_view name))
    (upb_EnumDef_ReservedNames e)
    (EnumDescriptorProto_reserved_name proto).
Proof.
  intros H. unfold enumdef_toproto, upb_EnumDef_ValueCount in H.
  inv_Done H. slots_from_loops. cbn. tauto.
Qed.

Lemma servicedef_toproto_slots (s : upb_ServiceDef) (a a' : upb_Arena)
  (proto : ServiceDescriptorProto) :
  servicedef_toproto s a = Done proto a' ->
  slots_hold methoddef_toproto (upb_ServiceDef_Methods s)
    (ServiceDescriptorProto_method proto).
Proof.
  intros H. unfold servicedef_toproto in H.
  inv_Done H. slots_from_loops. cbn. tauto.
Qed.

Lemma filedef_toproto_slots (sgn : bool) (f : upb_FileDef) (a a' : upb_Arena)
  (proto : FileDescriptorProto) :
  filedef_toproto sgn f a = Done proto a' ->
  slots_hold strviewdup (upb_FileDef_Dependencies f)
    (FileDescriptorProto_dependency proto) /\
  FileDescriptorProto_public_dependency proto =
    _upb_FileDef_PublicDependencyIndexes f /\
  FileDescriptorProto_weak_dependency proto =
    _upb_FileDef_WeakDependencyIndexes f /\
  slots_hold (msgdef_toproto sgn) (upb_FileDef_TopLevelMessages f)
    (FileDescriptorProto_message_type proto) /\
  slots_hold enumdef_toproto (upb_FileDef_TopLevelEnums f)
    (FileDescriptorProto_enum_type proto) /\
  slots_hold servicedef_toproto (upb_FileDef_Services f)
    (FileDescriptorProto_service proto) /\
  slots_hold (fielddef_toproto sgn) (upb_FileDef_TopLevelExtensions f)
    (FileDescriptorProto_extension proto).
Proof.
  intros H. unfold filedef_toproto in H.
  inv_Done H. slots_from_loops.
  repeat match goal with
  | Hm : memcpy_int32 _ _ _ = Done _ _ |- _ =>
      apply memcpy_int32_Done_inv in Hm
  end.
  subst. cbn. tauto.
Qed.

(** C4: whenever a converter returns a proto, each of its repeated fields
    has exactly one slot per child of the source def, and slot [i] holds
    the conversion of child [i]: the source order is kept, for the fields,
    oneofs, nested messages, nested enums, nested extensions, extension
    ranges, reserved ranges and reserved names of a message, the values,
    reserved ranges and reserved names of an enum, the methods of a
    service, and the dependencies, messages, enums, services and extensions
    of a file. *)
Theorem repeated_children_in_order (sgn : bool) :
  (forall m a proto a',
     msgdef_toproto sgn m a = Done proto a' ->
     slots_hold (fielddef_toproto sgn) (upb_MessageDef_Fields m)
       (DescriptorProto_field proto) /\
     slots_hold oneofdef_toproto (upb_MessageDef_Oneofs m)
       (DescriptorProto_oneof_decl proto) /\
     slots_hold (msgdef_toproto sgn) (upb_MessageDef_NestedMessages m)
       (DescriptorProto_nested_type proto) /\
     slots_hold enumdef_toproto (upb_MessageDef_NestedEnums m)
       (DescriptorProto_enum_type proto) /\
     slots_hold (fielddef_toproto sgn) (upb_MessageDef_NestedExtensions m)
       (DescriptorProto_extension proto) /\
     slots_hold extrange_toproto (upb_MessageDef_ExtensionRanges m)
       (DescriptorProto_extension_range proto) /\
     slots_hold resrange_toproto (upb_MessageDef_ReservedRanges m)
       (DescriptorProto_reserved_range proto) /\
     slots_hold (fun name => ret (reserved_name_view name))
       (upb_MessageDef_ReservedNames m)
       (DescriptorProto_reserved_name proto)) /\
  (forall e a proto a',
     enumdef_toproto e a = Done proto a' ->
     slots_hold enumvaldef_toproto (upb_EnumDef_Values e)
       (EnumDescriptorProto_value proto) /\
     slots_hold enumresrange_toproto (upb_EnumDef_ReservedRanges e)
       (EnumDescriptorProto_reserved_range proto) /\
     slots_hold (fun name => ret (reserved_name_view name))
       (upb_EnumDef_ReservedNames e)
       (EnumDescriptorProto_reserved_name proto)) /\
  (forall s a proto a',
     servicedef_toproto s a = Done proto a' ->
     slots_hold methoddef_toproto (upb_ServiceDef_Methods s)
       (ServiceDescriptorProto_method proto)) /\
  (forall f a proto a',
     filedef_toproto sgn f a = Done proto a' ->
     slots_hold strviewdup (upb_FileDef_Dependencies f)
       (FileDescriptorProto_dependency proto) /\
     FileDescriptorProto_public_dependency proto =
       _upb_FileDef_PublicDependencyIndexes f /\
     FileDescriptorProto_weak_dependency proto =
       _upb_FileDef_WeakDependencyIndexes f /\
     slots_hold (msgdef_toproto sgn) (upb_FileDef_TopLevelMessages f)
       (FileDescriptorProto_message_type proto) /\
     slots_hold enumdef_toproto (upb_FileDef_TopLevelEnums f)
       (FileDescriptorProto_enum_type proto) /\
     slots_hold servicedef_toproto (upb_FileDef_Services f)
       (FileDescriptorProto_service proto) /\
     slots_hold (fielddef_toproto sgn) (upb_FileDef_TopLevelExtensions f)
       (FileDescriptorProto_extension proto)).
Proof.
  repeat apply conj; intros ? a proto a'.
  - apply msgdef_toproto_slots.
  - apply enumdef_toproto_slots.
  - apply servicedef_toproto_slots.
  - apply filedef_toproto_slots.
Qed.

(** ** Allocation failure *)

Lemma checks_oom_ret {A} (x : A) : checks_oom (ret x).
Proof. intros a y a' [= _ <-]. exists []. split; [reflexivity | constructor]. Qed.

Lemma checks_oom_raise {A} (f : fault) : checks_oom (@raise A f).
Proof. intros a y a' [=]. Qed.

Lemma checks_oom_bind {A B} (m : M A) (k : A -> M B) :
  checks_oom m -> (forall x, checks_oom (k x)) -> checks_oom (bind m k).
Proof.
  intros Hm Hk a y a' H. apply bind_Done_inv in H as (x & a1 & Hx & Hy).
  apply Hm in Hx as (u1 & -> & Hu1). apply Hk in Hy as (u2 & -> & Hu2).
  exists (u1 ++ u2). split; [now rewrite app_assoc | now apply Forall_app].
Qed.

(** An allocator call followed by [CHK_OOM]. *)
Lemma checks_oom_alloc {A} (k : bool -> M A) :
  (forall p, checks_oom (k p)) ->
  checks_oom (p <- upb_Arena_Malloc ;; CHK_OOM p ;;; k p).
Proof.
  intros Hk a y a' H. unfold bind, upb_Arena_Malloc, CHK_OOM in H.
  destruct a as [|[] a]; try discriminate.
  - apply Hk in H as (u & E & Hu). symmetry in E.
    apply app_eq_nil in E as [-> ->].
    exists []. split; [reflexivity | constructor].
  - apply Hk in H as (u & -> & Hu). exists (true :: u).
    split; [reflexivity | now constructor].
Qed.

Lemma checks_oom_new_proto : checks_oom new_proto.
Proof.
  intros a y a' H. apply (checks_oom_alloc (fun _ => ret tt) (fun _ => checks_oom_ret tt) a y a').
  unfold new_proto, bind in *. destruct (upb_Arena_Malloc a) as [p a1| |]; try discriminate.
  unfold CHK_OOM in *. now destruct p.
Qed.

Lemma checks_oom_when {A} (cond : bool) (m : M A) :
  checks_oom m -> checks_oom (when cond m).
Proof.
  intros Hm. unfold when. destruct cond; [|apply checks_oom_ret].
  apply checks_oom_bind; [assumption | intros x; apply checks_oom_ret].
Qed.

Lemma checks_oom_strviewdup2 (str : upb_StringView) : checks_oom (strviewdup2 str).
Proof. apply (checks_oom_alloc (fun _ => ret _)). intros _. apply checks_oom_ret. Qed.

Lemma checks_oom_strviewdup (s : string) : checks_oom (strviewdup s).
Proof. apply checks_oom_strviewdup2. Qed.

Lemma checks_oom_qual_dup (s : string) : checks_oom (qual_dup s).
Proof. apply (checks_oom_alloc (fun _ => ret _)). intros _. apply checks_oom_ret. Qed.

Lemma checks_oom_printf_dup (text : list byte) : checks_oom (printf_dup text).
Proof.
  apply (checks_oom_alloc (fun _ => if (_ <? _)%nat then ret _ else raise _)).
  intros _. destruct (_ <? _)%nat; [apply checks_oom_ret | apply checks_oom_raise].
Qed.

Lemma checks_oom_default_bytes (sgn : bool) (val : upb_StringView) :
  checks_oom (default_bytes sgn val).
Proof.
  apply (checks_oom_alloc (fun _ => match write_escaped _ _ _ _ with
                                    | Some (p, _) => ret _
                                    | None => raise _
                                    end)).
  intros _. destruct (write_escaped _ _ _ _) as [[p dst]|];
    [apply checks_oom_ret | apply checks_oom_raise].
Qed.

Lemma checks_oom_SET_OPTIONS (src : Options) : checks_oom (SET_OPTIONS src).
Proof.
  apply (checks_oom_alloc (fun _ => dst <- upb_Arena_Malloc ;; CHK_OOM dst ;;; ret src)).
  intros _. apply (checks_oom_alloc (fun _ => ret src)). intros _. apply checks_oom_ret.
Qed.

Lemma checks_oom_full_name_of (def : option string) : checks_oom (full_name_of def).
Proof. destruct def; [apply checks_oom_ret | apply checks_oom_raise]. Qed.

Create HintDb checks.

#[local] Hint Resolve checks_oom_ret checks_oom_raise checks_oom_new_proto
  checks_oom_when checks_oom_strviewdup2 checks_oom_strviewdup
  checks_oom_qual_dup checks_oom_printf_dup checks_oom_default_bytes
  checks_oom_SET_OPTIONS checks_oom_full_name_of : checks.

Ltac checks :=
  repeat lazymatch goal with
  | |- checks_oom (bind _ _) => apply checks_oom_bind; [|intros ?]
  end;
  auto with checks.

Lemma checks_oom_default_string (sgn : bool) (f : upb_FieldDef) :
  checks_oom (default_string sgn f).
Proof.
  unfold default_string, default_string_with. destruct (default_special _ _); [checks|].
  destruct (upb_FieldDef_CType f); checks.
  destruct (upb_FieldDef_EnumSubDef f) as [e|]; checks.
  match goal with
  | |- context [upb_EnumDef_FindValueByNumber ?e ?n] =>
      destruct (upb_EnumDef_FindValueByNumber e n)
  end; checks.
Qed.

#[local] Hint Resolve checks_oom_default_string : checks.

Lemma checks_oom_fielddef_toproto (sgn : bool) (f : upb_FieldDef) :
  checks_oom (fielddef_toproto sgn f).
Proof.
  unfold fielddef_toproto. checks.
  - destruct (upb_FieldDef_IsSubMessage f); [checks|].
    destruct (upb_FieldDef_CType f); checks.
  - apply checks_oom_when. checks.
Qed.

Lemma checks_oom_oneofdef_toproto (o : upb_OneofDef) : checks_oom (oneofdef_toproto o).
Proof. unfold oneofdef_toproto. checks. Qed.

Lemma checks_oom_enumvaldef_toproto (e : upb_EnumValueDef) :
  checks_oom (enumvaldef_toproto e).
Proof. unfold enumvaldef_toproto. checks. Qed.

Lemma checks_oom_methoddef_toproto (m : upb_MethodDef) :
  checks_oom (methoddef_toproto m).
Proof. unfold methoddef_toproto. checks. Qed.

(** The entry points for fields, oneofs, enum values and methods return a
    proto only if none of the allocator calls of the conversion failed:
    the outcomes [used] the conversion took from the arena, up to the rest
    [a'] it left, are all successes. *)
Lemma setjmp_return_checked {A} (conv : M A) (a : upb_Arena) (proto : A) :
  checks_oom conv ->
  setjmp_return conv a = Returned (Some proto) ->
  exists used a',
    conv a = Done proto a' /\ a = used ++ a' /\ Forall (eq true) used.
Proof.
  intros Hconv. unfold setjmp_return.
  destruct (conv a) as [y a'| |] eqn:E; intros [= <-].
  destruct (Hconv a y a' E) as (used & Ha & Hused). eauto.
Qed.

Lemma checked_entry_points (sgn : bool) :
  (forall f a proto, upb_FieldDef_ToProto sgn f a = Returned (Some proto) ->
     exists used a', fielddef_toproto sgn f a = Done proto a' /\
       a = used ++ a' /\ Forall (eq true) used) /\
  (forall o a proto, upb_OneofDef_ToProto o a = Returned (Some proto) ->
     exists used a', oneofdef_toproto o a = Done proto a' /\
       a = used ++ a' /\ Forall (eq true) used) /\
  (forall e a proto, upb_EnumValueDef_ToProto e a = Returned (Some proto) ->
     exists used a', enumvaldef_toproto e a = Done proto a' /\
       a = used ++ a' /\ Forall (eq true) used) /\
  (forall m a proto, upb_MethodDef_ToProto m a = Returned (Some proto) ->
     exists used a', methoddef_toproto m a = Done proto a' /\
       a = used ++ a' /\ Forall (eq true) used).
Proof.
  repeat apply conj; intros x a proto; apply setjmp_return_checked.
  - apply checks_oom_fielddef_toproto.
  - apply checks_oom_oneofdef_toproto.
  - apply checks_oom_enumvaldef_toproto.
  - apply checks_oom_methoddef_toproto.
Qed.

(** C1: an allocation failure at the unchecked resize of the oneof slots
    of a message is not detected.  With the fourth allocator call of the
    arena failing, the conversion of the empty message goes on past it and
    returns a proto. *)
Theorem msgdef_resize_failure_undetected (sgn : bool) :
  upb_MessageDef_ToProto sgn message_Empty [true; true; true; false] =
  Returned (Some (message_proto "Empty" [])).
Proof. reflexivity. Qed.

(** With a oneof to convert, the loop stores through the null slot
    array. *)
Example msgdef_resize_failure_null_store (sgn : bool) :
  upb_MessageDef_ToProto sgn message_Choice [true; true; true; false] =
  Undefined NullStore.
Proof. reflexivity. Qed.

(** The resize of the field slots is checked: a failure there gives the
    null result. *)
Example msgdef_third_allocation_fails (sgn : bool) :
  upb_MessageDef_ToProto sgn message_M [true; true; false] = Returned None.
Proof. reflexivity. Qed.

(** ** Storage of the output text *)

(** Whatever the def, slot [i] of the reserved names of the converted enum
    or message is the view its accessor returns for index [i], which
    points into the def pool. *)
Lemma reserved_name_slots (names : list (list byte)) (out : slots upb_StringView) :
  slots_hold (fun name => ret (reserved_name_view name)) names out ->
  forall i v, reserved_name_view <$> names !! i = Some v ->
    out !! i = Some (Some v) /\ data_storage v = InDefPool.
Proof.
  intros [_ Hslots] i v Hv.
  destruct (names !! i) as [name|] eqn:E; [|discriminate].
  injection Hv as <-. destruct (Hslots i name E) as (y & a1 & a2 & [= <- _] & Hy).
  split; [assumption | reflexivity].
Qed.

Lemma enumdef_reserved_names_alias (e : upb_EnumDef) (a a' : upb_Arena)
  (proto : EnumDescriptorProto) :
  enumdef_toproto e a = Done proto a' ->
  forall i v, upb_EnumDef_ReservedName e i = Some v ->
    EnumDescriptorProto_reserved_name proto !! i = Some (Some v) /\
    data_storage v = InDefPool.
Proof.
  intros H. apply (reserved_name_slots (upb_EnumDef_ReservedNames e)).
  now destruct (enumdef_toproto_slots e a a' proto H) as (_ & _ & Hnames).
Qed.

Lemma msgdef_reserved_names_alias (sgn : bool) (m : upb_MessageDef) (a a' : upb_Arena)
  (proto : DescriptorProto) :
  msgdef_toproto sgn m a = Done proto a' ->
  forall i v, upb_MessageDef_ReservedName m i = Some v ->
    DescriptorProto_reserved_name proto !! i = Some (Some v) /\
    data_storage v = InDefPool.
Proof.
  intros H. apply (reserved_name_slots (upb_MessageDef_ReservedNames m)).
  destruct (msgdef_toproto_slots sgn m a a' proto H)
    as (_ & _ & _ & _ & _ & _ & _ & Hnames).
  exact Hnames.
Qed.

(** C2: the reserved names of a converted enum and of a converted message
    are the views the source defs hand out, pointing into the memory of the
    source model; they are not copied into the arena as the names are. *)
Theorem reserved_names_not_copied (sgn : bool) :
  (exists proto,
     upb_EnumDef_ToProto enum_E [] = Returned (Some proto) /\
     EnumDescriptorProto_name proto = Some (arena_view "E") /\
     EnumDescriptorProto_reserved_name proto =
       [Some {| data_storage := InDefPool; data := list_byte_of_string "OLD" |}]) /\
  (exists proto,
     upb_MessageDef_ToProto sgn message_Old [] = Returned (Some proto) /\
     DescriptorProto_name proto = Some (arena_view "Old") /\
     DescriptorProto_reserved_name proto =
       [Some {| data_storage := InDefPool; data := list_byte_of_string "gone" |}]).
Proof. split; eexists; repeat split. Qed.

(** ** The numeric formatter *)

Lemma pow10_succ (k : nat) : 10 ^ Z.of_nat (S k) = 10 * 10 ^ Z.of_nat k.
Proof. rewrite Nat2Z.inj_succ, Z.pow_succ_r by lia. reflexivity. Qed.

Lemma pow10_pos (k : Z) : 0 <= k -> 0 < 10 ^ k.
Proof. intros. apply Z.pow_pos_nonneg; lia. Qed.

(** A number below [10 ^ k] has at most [k] digits. *)
Lemma decimal_fuel_length (fuel : nat) :
  forall (n : Z) (acc : list byte) (k : nat),
  0 <= n < 10 ^ Z.of_nat k -> (1 <= k)%nat ->
  (length (decimal_fuel fuel n acc) <= length acc + k)%nat.
Proof.
  induction fuel as [|fuel IH]; intros n acc k Hn Hk; cbn [decimal_fuel].
  - lia.
  - destruct (Z.ltb_spec n 10) as [Hlt|Hge]; cbn [length]; [lia|].
    destruct k as [|[|k]]; [lia | cbn in Hn; lia |].
    specialize (IH (n / 10) (digit (n mod 10) :: acc) (S k)).
    cbn [length] in IH. etransitivity; [apply IH|]; [|lia..].
    rewrite (pow10_succ (S k)) in Hn. split.
    + apply Z.div_pos; lia.
    + apply Z.div_lt_upper_bound; lia.
Qed.

Lemma decimal_length (n : Z) (k : nat) :
  0 <= n < 10 ^ Z.of_nat k -> (1 <= k)%nat -> (length (decimal n) <= k)%nat.
Proof. intros Hn Hk. apply (decimal_fuel_length _ n [] k Hn Hk). Qed.

(** With enough fuel the number of digits [d] of [n >= 1] is the one with
    [10 ^ (d - 1) <= n < 10 ^ d]. *)
Lemma decimal_fuel_digits (fuel : nat) :
  forall (n : Z) (acc : list byte),
  1 <= n < 2 ^ Z.of_nat fuel ->
  exists d : nat,
    length (decimal_fuel fuel n acc) = (length acc + S d)%nat /\
    10 ^ Z.of_nat d <= n < 10 ^ Z.of_nat (S d).
Proof.
  induction fuel as [|fuel IH]; intros n acc Hn; [cbn in Hn; lia|].
  cbn [decimal_fuel]. destruct (Z.ltb_spec n 10) as [Hlt|Hge].
  - exists 0%nat. cbn. split; lia.
  - rewrite Nat2Z.inj_succ, Z.pow_succ_r in Hn by lia.
    destruct (IH (n / 10) (digit (n mod 10) :: acc)) as (d & Hlen & Hd).
    { split.
      - apply Z.div_le_lower_bound; lia.
      - apply Z.div_lt_upper_bound; lia. }
    exists (S d). split; [rewrite Hlen; cbn [length]; lia|].
    rewrite !pow10_succ in *. pose proof (Z.div_mod n 10 ltac:(lia)).
    pose proof (Z.mod_pos_bound n 10 ltac:(lia)). lia.
Qed.

Lemma decimal_digits (n : Z) :
  1 <= n ->
  exists d : nat,
    length (decimal n) = S d /\ 10 ^ Z.of_nat d <= n < 10 ^ Z.of_nat (S d).
Proof.
  intros Hn. destruct (decimal_fuel_digits (S (Z.to_nat (Z.log2 n))) n []) as (d & Hlen & Hd).
  - split; [assumption|]. rewrite Nat2Z.inj_succ, Z2Nat.id by apply Z.log2_nonneg.
    apply Z.log2_spec. lia.
  - exists d. split; assumption.
Qed.

(** *** Integers *)

Lemma format_unsigned_length (n : Z) :
  0 <= n < 2 ^ 64 -> (length (format_unsigned n) <= 20)%nat.
Proof.
  intros Hn. apply decimal_length; [|lia].
  assert (2 ^ 64 < 10 ^ Z.of_nat 20) by reflexivity. lia.
Qed.

Lemma format_signed_length (n : Z) :
  - 2 ^ 63 <= n < 2 ^ 63 -> (length (format_signed n) <= 20)%nat.
Proof.
  intros Hn. unfold format_signed.
  assert (2 ^ 63 < 10 ^ Z.of_nat 19) by reflexivity.
  destruct (Z.ltb_spec n 0); cbn [length].
  - apply le_n_S. apply decimal_length; lia.
  - etransitivity; [apply (decimal_length n 19)|]; lia.
Qed.

(** *** Significant digits *)

Lemma round_half_even_bounds (n d : Z) :
  n / d <= round_half_even n d <= n / d + 1.
Proof. unfold round_half_even. destruct (_ || _); lia. Qed.

(** [exponent10] does not underestimate the decimal exponent. *)
Lemma exponent10_above (num den : Z) :
  0 < num -> 0 < den ->
  let X := exponent10 num den in
  (den <= num -> 0 <= X /\ num < den * 10 ^ (X + 1)) /\
  (num < den -> X <= -1 /\ num * 10 ^ (- X - 1) < den).
Proof.
  intros Hnum Hden X. subst X. unfold exponent10.
  destruct (Z.leb_spec den num) as [Hle|Hlt]; (split; [|lia]) || (split; [lia|]);
    intros _.
  - destruct (decimal_digits (num / den)) as (d & -> & _ & Hd).
    { apply Z.div_le_lower_bound; lia. }
    replace (Z.of_nat (S d) - 1 + 1) with (Z.of_nat (S d)) by lia.
    split; [lia|].
    pose proof (Z.mul_succ_div_gt num den Hden).
    assert (den * Z.succ (num / den) <= den * 10 ^ Z.of_nat (S d))
      by (apply Z.mul_le_mono_nonneg_l; lia).
    lia.
  - destruct (decimal_digits ((den - 1) / num)) as (d & -> & Hd & _).
    { apply Z.div_le_lower_bound; lia. }
    replace (- - Z.of_nat (S d) - 1) with (Z.of_nat d) by lia.
    split; [lia|].
    pose proof (Z.mul_div_le (den - 1) num Hnum).
    assert (num * 10 ^ Z.of_nat d <= num * ((den - 1) / num))
      by (apply Z.mul_le_mono_nonneg_l; lia).
    lia.
Qed.

(** [to_sci] returns at most [P] digits and moves the exponent by at most
    one. *)
Lemma to_sci_bounds (P num den : Z) :
  1 <= P -> 0 < num -> 0 < den ->
  0 <= fst (to_sci P num den) < 10 ^ P /\
  exponent10 num den <= snd (to_sci P num den) <= exponent10 num den + 1.
Proof.
  intros HP Hnum Hden. unfold to_sci.
  destruct (exponent10_above num den Hnum Hden) as [Hge Hlt].
  set (X := exponent10 num den) in *.
  set (D := if 0 <=? P - 1 - X then _ else _).
  assert (HD : 0 <= D <= 10 ^ P).
  { subst D. destruct (Z.leb_spec 0 (P - 1 - X)) as [Hs|Hs].
    - pose proof (round_half_even_bounds (num * 10 ^ (P - 1 - X)) den).
      pose proof (pow10_pos (P - 1 - X) Hs).
      assert (0 <= num * 10 ^ (P - 1 - X) / den) by (apply Z.div_pos; nia).
      assert (num * 10 ^ (P - 1 - X) / den < 10 ^ P); [|lia].
      apply Z.div_lt_upper_bound; [lia|].
      destruct (Z.le_gt_cases den num) as [Hc|Hc].
      + destruct (Hge Hc) as [HX Hup].
        replace P with ((X + 1) + (P - 1 - X)) at 2 by lia.
        rewrite Z.pow_add_r by lia. nia.
      + destruct (Hlt Hc) as [HX Hup].
        replace (P - 1 - X) with ((- X - 1) + P) by lia.
        rewrite Z.pow_add_r by lia.
        pose proof (pow10_pos P ltac:(lia)). nia.
    - pose proof (round_half_even_bounds num (den * 10 ^ (- (P - 1 - X)))).
      pose proof (pow10_pos (- (P - 1 - X)) ltac:(lia)).
      assert (0 <= num / (den * 10 ^ (- (P - 1 - X)))) by (apply Z.div_pos; nia).
      assert (num / (den * 10 ^ (- (P - 1 - X))) < 10 ^ P); [|lia].
      apply Z.div_lt_upper_bound; [nia|].
      destruct (Z.le_gt_cases den num) as [Hc|Hc]; [|destruct (Hlt Hc); lia].
      destruct (Hge Hc) as [HX Hup].
      rewrite <- Z.mul_assoc, <- Z.pow_add_r by lia.
      now replace (- (P - 1 - X) + P) with (X + 1) by lia. }
  destruct (Z.eqb_spec D (10 ^ P)) as [E|E]; cbn [fst snd].
  - split; [|lia]. split; [apply Z.pow_nonneg; lia|].
    apply Z.pow_lt_mono_r; lia.
  - lia.
Qed.

Lemma exponent10_range (num den : Z) :
  0 < num < 2 ^ 1100 -> 0 < den <= 2 ^ 1100 ->
  - 332 <= exponent10 num den <= 331.
Proof.
  intros Hnum Hden. unfold exponent10.
  assert (Hpow : 2 ^ 1100 < 10 ^ Z.of_nat 332) by reflexivity.
  destruct (Z.leb_spec den num) as [Hle|Hlt].
  - assert (H : (length (decimal (num / den)) <= 332)%nat); [|lia].
    apply decimal_length; [|lia]. split; [apply Z.div_pos; lia|].
    apply Z.le_lt_trans with num; [|lia].
    apply Z.div_le_upper_bound; nia.
  - assert (H : (length (decimal ((den - 1) / num)) <= 332)%nat); [|lia].
    apply decimal_length; [|lia]. split; [apply Z.div_pos; lia|].
    apply Z.le_lt_trans with (den - 1); [|lia].
    apply Z.div_le_upper_bound; nia.
Qed.

(** *** The layout of [%g] *)

Lemma drop_zeros_length (l : list byte) : (length (drop_zeros l) <= length l)%nat.
Proof.
  induction l as [|b l IH]; cbn; [lia|]. destruct (Byte.eqb b "0"); cbn; lia.
Qed.

Lemma strip_zeros_length (l : list byte) : (length (strip_zeros l) <= length l)%nat.
Proof.
  unfold strip_zeros. rewrite length_rev.
  etransitivity; [apply drop_zeros_length|]. now rewrite length_rev.
Qed.

Lemma fraction_length (l : list byte) : (length (fraction l) <= S (length l))%nat.
Proof.
  unfold fraction. pose proof (strip_zeros_length l).
  destruct (strip_zeros l); cbn [length] in *; lia.
Qed.

Lemma exp_digits_length (x : Z) : 0 <= x < 1000 -> (length (exp_digits x) <= 3)%nat.
Proof.
  intros Hx. unfold exp_digits. destruct (x <? 10); cbn [length]; [lia|].
  apply decimal_length; [|lia]. assert (10 ^ Z.of_nat 3 = 1000) by reflexivity. lia.
Qed.

Lemma sign_length (s : bool) : (length (sign s) <= 1)%nat.
Proof. destruct s; cbn; lia. Qed.

Lemma format_g_finite_length (P : Z) (s : bool) (m : positive) (e : Z) :
  1 <= P -> Zpos m < 2 ^ 53 -> - 1074 <= e <= 971 ->
  (length (format_g P (S754_finite s m e)) <= Z.to_nat P + 7)%nat.
Proof.
  intros HP Hm He. unfold format_g.
  set (nd := if 0 <=? e then _ else _).
  assert (Hnd : 0 < fst nd < 2 ^ 1100 /\ 0 < snd nd <= 2 ^ 1100).
  { subst nd. destruct (Z.leb_spec 0 e); cbn [fst snd].
    - assert (2 ^ e <= 2 ^ 971) by (apply Z.pow_le_mono_r; lia).
      assert (0 < 2 ^ e) by (apply Z.pow_pos_nonneg; lia).
      assert (2 ^ 53 * 2 ^ 971 < 2 ^ 1100) by reflexivity.
      assert (1 <= 2 ^ 1100) by discriminate. nia.
    - assert (2 ^ (- e) <= 2 ^ 1074) by (apply Z.pow_le_mono_r; lia).
      assert (0 < 2 ^ (- e)) by (apply Z.pow_pos_nonneg; lia).
      assert (2 ^ 53 < 2 ^ 1100) by reflexivity.
      assert (2 ^ 1074 <= 2 ^ 1100) by discriminate. lia. }
  destruct nd as [num den]. cbn [fst snd] in Hnd. destruct Hnd as [Hnum Hden].
  pose proof (to_sci_bounds P num den HP ltac:(lia) ltac:(lia)) as [HD HX].
  pose proof (exponent10_range num den Hnum Hden) as HX0.
  destruct (to_sci P num den) as [D X]. cbn [fst snd] in HD, HX.
  assert (Hds : (length (decimal D) <= Z.to_nat P)%nat).
  { apply decimal_length; [rewrite Z2Nat.id by lia; assumption | lia]. }
  set (ds := decimal D) in *.
  pose proof (sign_length s).
  rewrite length_app.
  destruct ((X <? -4) || (P <=? X)) eqn:Estyle.
  - pose proof (exp_digits_length (Z.abs X) ltac:(lia)).
    pose proof (fraction_length (drop 1 ds)).
    rewrite !length_app. cbn [length].
    rewrite length_take, length_drop in *. lia.
  - apply orb_false_elim in Estyle as [E4 EP].
    apply Z.ltb_ge in E4. apply Z.leb_gt in EP.
    destruct (Z.ltb_spec X 0).
    + pose proof (strip_zeros_length ds).
      cbn [length]. rewrite length_app, length_replicate. lia.
    + pose proof (fraction_length (drop (Z.to_nat (X + 1)) ds)).
      rewrite length_app, length_take, length_drop in *. lia.
Qed.

(** *** Floats and doubles *)

Lemma digits2_pos_spec (m : positive) : Zpos m < 2 ^ Zpos (digits2_pos m).
Proof.
  induction m as [m IH|m IH|]; cbn [digits2_pos];
    rewrite ?Pos2Z.inj_succ, ?Z.pow_succ_r by lia; lia.
Qed.

Lemma valid_binary_bounds (prec emax : Z) (s : bool) (m : positive) (e : Z) :
  valid_binary prec emax (S754_finite s m e) = true ->
  Zpos m < 2 ^ prec /\ 3 - emax - prec <= e <= emax - prec.
Proof.
  cbn [valid_binary]. unfold bounded, canonical_mantissa, fexp, emin.
  intros H. apply andb_prop in H as [Hc He].
  apply Z.eqb_eq in Hc. apply Z.leb_le in He.
  split; [|lia].
  apply Z.lt_le_trans with (2 ^ Zpos (digits2_pos m)); [apply digits2_pos_spec|].
  apply Z.pow_le_mono_r; lia.
Qed.

Lemma format_g_length (P : Z) (v : spec_float) :
  1 <= P -> valid_binary 53 1024 v = true \/ valid_binary 24 128 v = true ->
  (length (format_g P v) <= Z.to_nat P + 7)%nat.
Proof.
  intros HP Hv. destruct v as [s|s| |s m e].
  - cbn. destruct s; cbn; lia.
  - cbn. destruct s; cbn; lia.
  - cbn. lia.
  - apply format_g_finite_length; [assumption| |];
      destruct Hv as [Hv|Hv]; apply valid_binary_bounds in Hv as [Hm He];
      lia.
Qed.

(** *** [printf_dup] *)

Lemma printf_dup_fits (text : list byte) (a : upb_Arena) :
  (length text < 32)%nat ->
  printf_dup text a <> Fault AssertFailed /\
  forall v a', printf_dup text a = Done v a' -> data v = text.
Proof.
  intros Hlen. unfold printf_dup, bind, upb_Arena_Malloc, CHK_OOM.
  destruct (Nat.ltb_spec (length text) 32) as [_|]; [|lia].
  destruct a as [|[] a]; (split; [discriminate|]); intros v a' [=]; now subst.
Qed.

Lemma strviewdup_no_fault (s : string) (a : upb_Arena) (f : fault) :
  strviewdup s a <> Fault f.
Proof.
  unfold strviewdup, strviewdup2, bind, upb_Arena_Malloc, CHK_OOM.
  destruct a as [|[] a]; discriminate.
Qed.

Lemma special_float_length (val : spec_float) (text : string) :
  special_float val = Some text -> (String.length text <= 4)%nat.
Proof.
  rewrite special_float_cases.
  destruct val as [s|[]| |s m e]; intros [= <-]; cbn; lia.
Qed.

(** C10: for every default of a numeric kind (the 32- and 64-bit signed
    and unsigned integers, the binary32 floats, the binary64 doubles) the
    text handed to [printf_dup] is shorter than 32 characters: the
    assertion [n < max] of [printf_dup] holds and the view returned by
    [default_string] has fewer than 32 bytes. *)
Theorem default_string_numeric_fits (sgn : bool) (f : upb_FieldDef) :
  numeric_in_range (upb_FieldDef_CType f) (upb_FieldDef_Default f) ->
  (forall a, default_string sgn f a <> Fault AssertFailed) /\
  (forall a v a', default_string sgn f a = Done v a' -> (size v < 32)%nat).
Proof.
  intros Hrange. unfold default_string, default_string_with, size.
  assert (Hspecial : forall text a,
            strviewdup text a <> Fault AssertFailed /\
            forall v a', strviewdup text a = Done v a' ->
                         data v = list_byte_of_string text).
  { intros text a. split; [apply strviewdup_no_fault|].
    intros v a' Hv. apply strviewdup_Done_inv in Hv. now subst. }
  assert (Hprintf : forall text, (length text <= 24)%nat ->
            (forall a, printf_dup text a <> Fault AssertFailed) /\
            (forall a v a', printf_dup text a = Done v a' ->
                            (length (data v) < 32)%nat)).
  { intros text Hlen. split; intros a.
    - apply printf_dup_fits. lia.
    - intros v a' Hv. apply printf_dup_fits in Hv as ->; lia. }
  destruct (upb_FieldDef_CType f) eqn:Ekind; cbn [default_special numeric_in_range] in *;
    try contradiction.
  - (* float *)
    destruct (special_float _) as [text|] eqn:Es.
    + apply special_float_length in Es. split; [intros a; apply Hspecial|].
      intros a v a' Hv. apply Hspecial in Hv as ->.
      rewrite length_list_byte_of_string. lia.
    + apply Hprintf.
      etransitivity; [apply (format_g_length 9); [lia | now right]|].
      cbn. lia.
  - (* int32 *)
    apply Hprintf. etransitivity; [apply format_signed_length|]; lia.
  - (* uint32 *)
    apply Hprintf. etransitivity; [apply format_unsigned_length|]; lia.
  - (* double *)
    destruct (special_float _) as [text|] eqn:Es.
    + apply special_float_length in Es. split; [intros a; apply Hspecial|].
      intros a v a' Hv. apply Hspecial in Hv as ->.
      rewrite length_list_byte_of_string. lia.
    + apply Hprintf.
      etransitivity; [apply (format_g_length 17); [lia | now left]|].
      cbn. lia.
  - (* int64 *)
    apply Hprintf. etransitivity; [apply format_signed_length|]; lia.
  - (* uint64 *)
    apply Hprintf. etransitivity; [apply format_unsigned_length|]; lia.
Qed.

Lemma default_string_numeric_fits_witness :
  numeric_in_range (upb_FieldDef_CType field_x) (upb_FieldDef_Default field_x) /\
  (forall a, default_string true field_x a <> Fault AssertFailed) /\
  (forall a v a', default_string true field_x a = Done v a' -> (size v < 32)%nat).
Proof.
  assert (H : numeric_in_range (upb_FieldDef_CType field_x)
                (upb_FieldDef_Default field_x))
    by (cbn; lia).
  split; [exact H|]. exact (default_string_numeric_fits true field_x H).
Defined.

(** The longest texts: the least 64-bit integer, and a double with 17
    digits, a negative sign and a three-digit negative exponent. *)
Example format_signed_longest :
  string_of_list_byte (format_signed (- 2 ^ 63)) = "-9223372036854775808"%string.
Proof. vm_compute. reflexivity. Qed.

Example format_g_longest :
  string_of_list_byte (format_g 17 (S754_finite true 1 (-1074)))
  = "-4.9406564584124654e-324"%string.
Proof. vm_compute. reflexivity. Qed.

Example format_g_float :
  string_of_list_byte (format_g 9 (S754_finite false 13421773 (-27)))
  = "0.100000001"%string.
Proof. vm_compute. reflexivity. Qed.

(** ** The spec's scenarios *)

Example scenario_message_M (sgn : bool) :
  upb_MessageDef_ToProto sgn message_M [] =
  Returned (Some (message_proto "M" [Some field_x_proto])).
Proof. reflexivity. Qed.

Example scenario_file_ab (sgn : bool) :
  exists proto,
    upb_FileDef_ToProto sgn file_ab [] = Returned (Some proto) /\
    FileDescriptorProto_name proto = Some (arena_view "a/b.proto") /\
    FileDescriptorProto_package proto = Some (arena_view "a.b") /\
    FileDescriptorProto_syntax proto = Some (arena_view "proto3") /\
    FileDescriptorProto_edition proto = None /\
    FileDescriptorProto_message_type proto =
      [Some (message_proto "M" [Some field_x_proto])].
Proof. eexists. repeat split. Qed.

Example scenario_bytes_default (sgn : bool) :
  exists proto,
    upb_FieldDef_ToProto sgn field_raw [] = Returned (Some proto) /\
    FieldDescriptorProto_default_value proto =
      Some {| data_storage := InArena;
              data := [x5c; "0"; "0"; "0"; "A"]%byte |}.
Proof. destruct sgn; eexists; repeat split. Qed.

Example scenario_nan_default (sgn : bool) :
  exists proto,
    upb_FieldDef_ToProto sgn field_ratio [] = Returned (Some proto) /\
    FieldDescriptorProto_default_value proto = Some (arena_view "nan").
Proof. eexists. repeat split. Qed.

(** ** Instances on the small schema *)

Lemma default_string_special_floats_witness :
  (upb_FieldDef_CType field_ratio = kUpb_CType_Float \/
   upb_FieldDef_CType field_ratio = kUpb_CType_Double) /\
  default_string_with true (fun _ _ => replicate 40 "x"%byte) field_ratio
  = strviewdup "nan" /\
  default_string true field_ratio = strviewdup "nan".
Proof.
  assert (H : upb_FieldDef_CType field_ratio = kUpb_CType_Float \/
              upb_FieldDef_CType field_ratio = kUpb_CType_Double)
    by (right; reflexivity).
  split; [exact H|].
  destruct (default_string_special_floats true field_ratio H) as (_ & Hany & Hg).
  split; [exact (Hany (fun _ _ => replicate 40 "x"%byte)) | exact Hg].
Defined.

Lemma fielddef_type_name_witness :
  exists proto,
    fielddef_toproto true field_inner [] = Done proto [] /\
    FieldDescriptorProto_type_name proto = Some (arena_view ".a.b.Inner").
Proof.
  eexists. split; [vm_compute; reflexivity|].
  destruct (fielddef_type_name true field_inner [] [] _ eq_refl) as (Hsub & _).
  destruct (Hsub eq_refl) as (m & [= <-] & Htype). exact Htype.
Defined.

Lemma filedef_package_edition_syntax_witness :
  exists proto,
    filedef_toproto true file_ab [] = Done proto [] /\
    (forall v, FileDescriptorProto_syntax proto = Some v ->
       upb_FileDef_Syntax file_ab = kUpb_Syntax_Proto3 /\ v = arena_view "proto3") /\
    (forall e, FileDescriptorProto_edition proto = Some e ->
       upb_FileDef_Syntax file_ab = kUpb_Syntax_Editions /\
       e = upb_FileDef_Edition file_ab).
Proof.
  eexists. split; [vm_compute; reflexivity|].
  destruct (filedef_package_edition_syntax true file_ab [] [] _ eq_refl)
    as (_ & Hedition & Hsyntax & _).
  split; assumption.
Defined.

Lemma repeated_children_in_order_witness :
  exists proto,
    filedef_toproto true file_ab [] = Done proto [] /\
    slots_hold (msgdef_toproto true) (upb_FileDef_TopLevelMessages file_ab)
      (FileDescriptorProto_message_type proto) /\
    slots_hold enumdef_toproto (upb_FileDef_TopLevelEnums file_ab)
      (FileDescriptorProto_enum_type proto).
Proof.
  eexists. split; [vm_compute; reflexivity|].
  destruct (repeated_children_in_order true) as (_ & _ & _ & Hfile).
  destruct (Hfile file_ab [] _ [] eq_refl) as (_ & _ & _ & Hmsgs & Henums & _).
  split; assumption.
Defined.

(** * Further properties *)

(** ** The escaped text of [default_bytes] *)

Lemma default_bytes_Done_inv (sgn : bool) (val v : upb_StringView) (a a' : upb_Arena) :
  default_bytes sgn val a = Done v a' ->
  v = {| data_storage := InArena; data := escape_bytes_spec (data val) |}.
Proof.
  unfold default_bytes, bind, upb_Arena_Malloc, CHK_OOM.
  rewrite write_escaped_exact.
  destruct a as [|[] a]; intros [= <- _] || discriminate; reflexivity.
Qed.

Lemma escape_bytes_spec_app (x y : list byte) :
  escape_bytes_spec (x ++ y) = escape_bytes_spec x ++ escape_bytes_spec y.
Proof. unfold escape_bytes_spec. apply flat_map_app. Qed.

Lemma escape_byte_spec_length (b : byte) :
  (1 <= length (escape_byte_spec b) <= 4)%nat.
Proof. destruct b; cbn; lia. Qed.

Lemma escape_bytes_spec_length (raw : list byte) :
  (length raw <= length (escape_bytes_spec raw) <= 4 * length raw)%nat.
Proof.
  induction raw as [|b raw IH]; [cbn; lia|].
  unfold escape_bytes_spec in *. cbn [flat_map length]. rewrite length_app.
  pose proof (escape_byte_spec_length b). lia.
Qed.

Lemma escape_byte_spec_plain (b : byte) :
  escape_byte_spec b = [b] <-> plain_byte b = true.
Proof. destruct b; cbn; split; intros H; reflexivity || discriminate H. Qed.

(** Escaping is injective: two byte strings with the same escaped text are
    the same, whatever the signedness of [char] and the arenas. *)
Theorem default_bytes_injective (sgn sgn' : bool) (x y v w : upb_StringView)
  (a a' b b' : upb_Arena) :
  default_bytes sgn x a = Done v a' ->
  default_bytes sgn' y b = Done w b' ->
  data v = data w ->
  data x = data y.
Proof.
  intros Hv Hw E.
  apply default_bytes_round_trip in Hv as [Hv _].
  apply default_bytes_round_trip in Hw as [Hw _].
  rewrite E in Hv. congruence.
Qed.

Lemma default_bytes_injective_witness :
  default_bytes true {| data_storage := InDefPool; data := [x00; "A"%byte] |} []
  = Done {| data_storage := InArena; data := [x5c; "0"; "0"; "0"; "A"]%byte |} [] /\
  default_bytes false {| data_storage := InArena; data := [x00; "A"%byte] |} [true]
  = Done {| data_storage := InArena; data := [x5c; "0"; "0"; "0"; "A"]%byte |} [] /\
  [x00; "A"%byte] = [x00; "A"%byte].
Proof.
  assert (H1 : default_bytes true {| data_storage := InDefPool; data := [x00; "A"%byte] |} []
    = Done {| data_storage := InArena; data := [x5c; "0"; "0"; "0"; "A"]%byte |} [])
    by reflexivity.
  assert (H2 : default_bytes false {| data_storage := InArena; data := [x00; "A"%byte] |} [true]
    = Done {| data_storage := InArena; data := [x5c; "0"; "0"; "0"; "A"]%byte |} [])
    by reflexivity.
  split; [exact H1|]. split; [exact H2|].
  exact (default_bytes_injective true false _ _ _ _ _ _ _ _ H1 H2 eq_refl).
Defined.

(** The escaped text is at least as long as the raw bytes and at most four
    times as long. *)
Theorem default_bytes_size_bounds (sgn : bool) (val v : upb_StringView)
  (a a' : upb_Arena) :
  default_bytes sgn val a = Done v a' ->
  (size val <= size v <= 4 * size val)%nat.
Proof.
  intros H. apply default_bytes_Done_inv in H as ->. unfold size. cbn [data].
  apply escape_bytes_spec_length.
Qed.

Lemma default_bytes_size_bounds_witness :
  default_bytes true {| data_storage := InDefPool; data := [x00; "A"%byte] |} []
  = Done {| data_storage := InArena; data := [x5c; "0"; "0"; "0"; "A"]%byte |} [] /\
  (2 <= 5 <= 4 * 2)%nat.
Proof.
  assert (H : default_bytes true {| data_storage := InDefPool; data := [x00; "A"%byte] |} []
    = Done {| data_storage := InArena; data := [x5c; "0"; "0"; "0"; "A"]%byte |} [])
    by reflexivity.
  split; [exact H|]. exact (default_bytes_size_bounds _ _ _ _ _ H).
Defined.

(** Escaping distributes over concatenation: the escaped text of [x ++ y]
    is the escaped text of [x] followed by that of [y]. *)
Theorem default_bytes_app (sgn : bool) (x y xy vx vy v : upb_StringView)
  (a a' b b' c c' : upb_Arena) :
  data xy = data x ++ data y ->
  default_bytes sgn x a = Done vx a' ->
  default_bytes sgn y b = Done vy b' ->
  default_bytes sgn xy c = Done v c' ->
  data v = data vx ++ data vy.
Proof.
  intros E Hx Hy Hxy.
  apply default_bytes_Done_inv in Hx as ->. apply default_bytes_Done_inv in Hy as ->.
  apply default_bytes_Done_inv in Hxy as ->. cbn [data].
  rewrite E. apply escape_bytes_spec_app.
Qed.

Lemma default_bytes_app_witness :
  exists v,
    default_bytes true {| data_storage := InDefPool; data := [x0a; "A"%byte] |} []
    = Done v [] /\
    data v = [x5c; "n"%byte] ++ ["A"%byte].
Proof.
  eexists. split; [reflexivity|].
  exact (default_bytes_app true
           {| data_storage := InDefPool; data := [x0a] |}
           {| data_storage := InDefPool; data := ["A"%byte] |}
           {| data_storage := InDefPool; data := [x0a; "A"%byte] |}
           _ _ _ [] [] [] [] [] [] eq_refl eq_refl eq_refl eq_refl).
Defined.

(** The escaped text is the raw text exactly when every byte is plain: in
    the range 0x20 to 0x7f and none of the two quotes and the backslash. *)
Theorem default_bytes_identity_iff_plain (sgn : bool) (val v : upb_StringView)
  (a a' : upb_Arena) :
  default_bytes sgn val a = Done v a' ->
  (data v = data val <-> forallb plain_byte (data val) = true).
Proof.
  intros H. apply default_bytes_Done_inv in H as ->. cbn [data].
  induction (data val) as [|b raw IH]; [now split|].
  unfold escape_bytes_spec in *. cbn [flat_map forallb]. split.
  - intros E. pose proof (escape_byte_spec_length b) as Hb.
    pose proof (escape_bytes_spec_length raw) as Hraw.
    unfold escape_bytes_spec in Hraw.
    assert (Hlen : length (escape_byte_spec b ++ flat_map escape_byte_spec raw)
                   = S (length raw)) by now rewrite E.
    rewrite length_app in Hlen.
    destruct (escape_byte_spec b) as [|c [|c' tok]] eqn:Etok; cbn [length] in *;
      try lia.
    injection E as -> E. apply IH in E. rewrite E.
    apply escape_byte_spec_plain in Etok. now rewrite Etok.
  - intros Hp. apply andb_prop in Hp as [Hb Hraw].
    apply escape_byte_spec_plain in Hb. rewrite Hb. cbn. f_equal. now apply IH.
Qed.

Lemma default_bytes_identity_iff_plain_witness :
  default_bytes true (view_of "a.b") [] = Done (arena_view "a.b") [] /\
  (data (arena_view "a.b") = data (view_of "a.b") <->
   forallb plain_byte (data (view_of "a.b")) = true).
Proof.
  assert (H : default_bytes true (view_of "a.b") [] = Done (arena_view "a.b") [])
    by reflexivity.
  split; [exact H|]. exact (default_bytes_identity_iff_plain _ _ _ _ _ H).
Defined.

(** ** Induction on nested messages *)

Lemma upb_MessageDef_nested_ind (P : upb_MessageDef -> Prop) :
  (forall m, Forall P (upb_MessageDef_NestedMessages m) -> P m) ->
  forall m, P m.
Proof.
  intros H. fix IH 1. intros m. apply H.
  destruct m as [name full fields oneofs nested enums exts xr rr rn ho o].
  cbn [upb_MessageDef_NestedMessages]. clear -IH.
  induction nested as [|child nested IHn]; constructor; [apply IH | exact IHn].
Qed.

(** ** Conversions and the arena *)

Lemma alloc_sound_ret {A} (x : A) : alloc_sound (ret x).
Proof. intros a. cbn. split; [exists []; reflexivity | reflexivity]. Qed.

Lemma alloc_sound_raise {A} (f : fault) : alloc_sound (@raise A f).
Proof. intros a. exact I. Qed.

Lemma alloc_sound_bind {A B} (m : M A) (k : A -> M B) :
  alloc_sound m -> (forall x, alloc_sound (k x)) -> alloc_sound (bind m k).
Proof.
  intros Hm Hk a. unfold bind. specialize (Hm a).
  destruct (m a) as [x a1| |] eqn:Em; [|assumption|exact I].
  destruct Hm as [[u1 ->] Hm0]. specialize (Hk x a1).
  rewrite Hm0. destruct (k x a1) as [y a'| |]; [| |exact I].
  - destruct Hk as [[u2 ->] Hk0]. split; [|assumption].
    exists (u1 ++ u2). now rewrite app_assoc.
  - apply in_or_app. now right.
Qed.

(** An allocator call followed by [CHK_OOM]. *)
Lemma alloc_sound_alloc {A} (k : bool -> M A) :
  (forall p, alloc_sound (k p)) ->
  alloc_sound (p <- upb_Arena_Malloc ;; CHK_OOM p ;;; k p).
Proof.
  intros Hk a. unfold bind, upb_Arena_Malloc, CHK_OOM.
  destruct a as [|[] a].
  - exact (Hk true []).
  - specialize (Hk true a). destruct (k true a) as [y a'| |]; [| |exact I].
    + destruct Hk as [[u ->] Hk0]. split; [now exists (true :: u) | assumption].
    + now right.
  - now left.
Qed.

Lemma alloc_sound_new_proto : alloc_sound new_proto.
Proof.
  intros a. unfold new_proto, bind, upb_Arena_Malloc, CHK_OOM.
  destruct a as [|[] a]; cbn.
  - split; [now exists [] | reflexivity].
  - split; [now exists [true] | reflexivity].
  - now left.
Qed.

Lemma alloc_sound_when {A} (cond : bool) (m : M A) :
  alloc_sound m -> alloc_sound (when cond m).
Proof.
  intros Hm. unfold when. destruct cond; [|apply alloc_sound_ret].
  apply alloc_sound_bind; [assumption | intros x; apply alloc_sound_ret].
Qed.

Section SoundLoops.

Context {A B : Type}.
Variable conv : A -> M B.

Lemma alloc_sound_fill_slots (children : list A) :
  Forall (fun child => alloc_sound (conv child)) children ->
  forall i l, alloc_sound (fill_slots conv children i (Some l)).
Proof.
  induction 1 as [|child rest Hchild _ IH]; intros i l; cbn [fill_slots].
  - apply alloc_sound_ret.
  - apply alloc_sound_bind; [assumption | intros y; apply IH].
Qed.

(** An unchecked [resize] and its loop.  When the resize fails, the loop
    finishes only if there is no child, and the repeated field is empty
    as it is after a resize to length 0. *)
Lemma alloc_sound_loop {C} (children : list A) (k : option (slots B) -> M C) :
  Forall (fun child => alloc_sound (conv child)) children ->
  (forall r, alloc_sound (k r)) ->
  k None = k (Some []) ->
  alloc_sound (arr <- resize (length children) ;;
               r <- fill_slots conv children 0 arr ;;
               k r).
Proof.
  intros Hconv Hk Hnull.
  pose proof (alloc_sound_bind _ k
                (alloc_sound_fill_slots children Hconv 0
                   (replicate (length children) None)) Hk) as Hok.
  intros a. unfold resize at 1. unfold bind at 1 2. unfold upb_Arena_Malloc, ret.
  destruct a as [|[] a].
  - exact (Hok []).
  - specialize (Hok a). cbv beta iota.
    destruct (bind _ k a) as [y a'| |] eqn:E; [| |exact I].
    + destruct Hok as [[u ->] Hok0]. split; [now exists (true :: u)|].
      unfold bind at 1. unfold resize. unfold bind at 1. cbn. exact Hok0.
    + now right.
  - cbv beta iota. destruct children as [|child rest].
    + cbn [fill_slots]. unfold bind at 1, ret at 1.
      specialize (Hk None a). destruct (k None a) as [y a'| |]; [| |exact I].
      * destruct Hk as [[u ->] Hk0]. split; [now exists (false :: u)|].
        unfold bind, resize, upb_Arena_Malloc, ret. cbn.
        rewrite <- Hnull. exact Hk0.
      * now left.
    + cbn [fill_slots]. unfold bind, raise.
      destruct (conv child a); [exact I | now left | exact I].
Qed.

End SoundLoops.

Section SoundCheckedLoop.

Context {A B C : Type}.
Variable conv : A -> M B.

(** A [resize] followed by [CHK_OOM], and its loop. *)
Lemma alloc_sound_checked_loop (children : list A) (k : option (slots B) -> M C) :
  Forall (fun child => alloc_sound (conv child)) children ->
  (forall r, alloc_sound (k r)) ->
  alloc_sound (arr <- resize (length children) ;;
               CHK_OOM (bool_decide (is_Some arr)) ;;;
               r <- fill_slots conv children 0 arr ;;
               k r).
Proof.
  intros Hconv Hk.
  pose proof (alloc_sound_bind _ k
                (alloc_sound_fill_slots conv children Hconv 0
                   (replicate (length children) None)) Hk) as Hok.
  assert (Hd : forall l : slots B, bool_decide (is_Some (Some l)) = true)
    by (intros l; apply bool_decide_eq_true_2; eauto).
  intros a. unfold resize at 1. unfold bind at 1 2 3. unfold upb_Arena_Malloc, ret, CHK_OOM.
  destruct a as [|[] a]; cbv beta iota; rewrite ?Hd.
  - exact (Hok []).
  - specialize (Hok a).
    destruct (bind _ k a) as [y a'| |] eqn:E; [| |exact I].
    + destruct Hok as [[u ->] Hok0]. split; [now exists (true :: u)|].
      exact Hok0.
    + now right.
  - now left.
Qed.

End SoundCheckedLoop.

(** An unchecked [resize] and the copy of the indexes into it. *)
Lemma alloc_sound_memcpy {C} (src : list Z) (k : list Z -> M C) :
  (forall out, alloc_sound (k out)) ->
  alloc_sound (arr <- resize (length src) ;;
               out <- memcpy_int32 arr src ;;
               k out).
Proof.
  intros Hk a. unfold resize at 1. unfold bind at 1 2. unfold upb_Arena_Malloc, ret.
  assert (Hfin : forall (p : bool) a1 y a',
            bind (memcpy_int32 (if p then Some (replicate (length src) (@None Z)) else None) src)
              k a1 = Done y a' ->
            bind (resize (length src))
              (fun arr => bind (memcpy_int32 arr src) k) [] = Done y [] /\
            exists used, a1 = used ++ a').
  { intros p a1 y a' H. apply bind_Done_inv in H as (out & a2 & Hout & Hy).
    assert (out = src /\ a2 = a1) as [-> ->]
      by (destruct p, src; cbn in Hout; inversion Hout; auto).
    specialize (Hk src a1). rewrite Hy in Hk. destruct Hk as [Hu Hk0].
    split; [|assumption].
    unfold bind, resize, upb_Arena_Malloc, ret. cbn.
    destruct src; cbn; exact Hk0. }
  assert (Hjmp : forall (p : bool) a1,
            bind (memcpy_int32 (if p then Some (replicate (length src) (@None Z)) else None) src)
              k a1 = LongJmp -> In false a1).
  { intros p a1 H. unfold bind in H.
    destruct (memcpy_int32 _ src a1) as [out a2| |] eqn:Hout; try discriminate.
    - assert (a2 = a1) as -> by (destruct p, src; cbn in Hout; inversion Hout; auto).
      specialize (Hk out a1). now rewrite H in Hk.
    - destruct p, src; discriminate Hout. }
  destruct a as [|p a]; cbv beta iota.
  - destruct (bind (memcpy_int32 _ src) k []) as [y a'| |] eqn:E; [| |exact I].
    + destruct (Hfin true [] y a' E) as [H0 Hu]. split; [assumption|].
      destruct Hu as [u Hu]. symmetry in Hu. apply app_eq_nil in Hu as [_ ->].
      exact H0.
    + apply (Hjmp true [] E).
  - destruct (bind (memcpy_int32 _ src) k a) as [y a'| |] eqn:E; [| |exact I].
    + destruct (Hfin p a y a' E) as [H0 [u ->]]. split; [now exists (p :: u) | exact H0].
    + right. apply (Hjmp p a E).
Qed.

Lemma alloc_sound_strviewdup2 (str : upb_StringView) : alloc_sound (strviewdup2 str).
Proof. apply (alloc_sound_alloc (fun _ => ret _)). intros _. apply alloc_sound_ret. Qed.

Lemma alloc_sound_strviewdup (s : string) : alloc_sound (strviewdup s).
Proof. apply alloc_sound_strviewdup2. Qed.

Lemma alloc_sound_qual_dup (s : string) : alloc_sound (qual_dup s).
Proof. apply (alloc_sound_alloc (fun _ => ret _)). intros _. apply alloc_sound_ret. Qed.

Lemma alloc_sound_printf_dup (text : list byte) : alloc_sound (printf_dup text).
Proof.
  apply (alloc_sound_alloc (fun _ => if (_ <? _)%nat then ret _ else raise _)).
  intros _. destruct (_ <? _)%nat; [apply alloc_sound_ret | apply alloc_sound_raise].
Qed.

Lemma alloc_sound_default_bytes (sgn : bool) (val : upb_StringView) :
  alloc_sound (default_bytes sgn val).
Proof.
  apply (alloc_sound_alloc (fun _ => match write_escaped _ _ _ _ with
                                     | Some (p, _) => ret _
                                     | None => raise _
                                     end)).
  intros _. destruct (write_escaped _ _ _ _) as [[p dst]|];
    [apply alloc_sound_ret | apply alloc_sound_raise].
Qed.

Lemma alloc_sound_SET_OPTIONS (src : Options) : alloc_sound (SET_OPTIONS src).
Proof.
  apply (alloc_sound_alloc (fun _ => dst <- upb_Arena_Malloc ;; CHK_OOM dst ;;; ret src)).
  intros _. apply (alloc_sound_alloc (fun _ => ret src)). intros _. apply alloc_sound_ret.
Qed.

Lemma alloc_sound_full_name_of (def : option string) : alloc_sound (full_name_of def).
Proof. destruct def; [apply alloc_sound_ret | apply alloc_sound_raise]. Qed.

Create HintDb sound.

#[local] Hint Resolve alloc_sound_ret alloc_sound_raise alloc_sound_new_proto
  alloc_sound_when alloc_sound_strviewdup2 alloc_sound_strviewdup
  alloc_sound_qual_dup alloc_sound_printf_dup alloc_sound_default_bytes
  alloc_sound_SET_OPTIONS alloc_sound_full_name_of : sound.

#[local] Hint Extern 2 (Forall _ _) => apply Forall_true; intros ? : sound.

Ltac sound :=
  repeat lazymatch goal with
  | |- alloc_sound (bind (resize _) (fun arr => bind (CHK_OOM _) _)) =>
      apply alloc_sound_checked_loop; [|intros ?]
  | |- alloc_sound (bind (resize _) (fun arr => bind (fill_slots _ _ _ _) _)) =>
      apply alloc_sound_loop; [|intros ?|reflexivity]
  | |- alloc_sound (bind (resize _) (fun arr => bind (memcpy_int32 _ _) _)) =>
      apply alloc_sound_memcpy; intros ?
  | |- alloc_sound (bind _ _) => apply alloc_sound_bind; [|intros ?]
  end;
  auto with sound.

Lemma alloc_sound_default_string (sgn : bool) (f : upb_FieldDef) :
  alloc_sound (default_string sgn f).
Proof.
  unfold default_string, default_string_with. destruct (default_special _ _); [sound|].
  destruct (upb_FieldDef_CType f); sound.
  destruct (upb_FieldDef_EnumSubDef f) as [e|]; sound.
  match goal with
  | |- context [upb_EnumDef_FindValueByNumber ?e ?n] =>
      destruct (upb_EnumDef_FindValueByNumber e n)
  end; sound.
Qed.

#[local] Hint Resolve alloc_sound_default_string : sound.

Lemma alloc_sound_fielddef_toproto (sgn : bool) (f : upb_FieldDef) :
  alloc_sound (fielddef_toproto sgn f).
Proof.
  unfold fielddef_toproto. sound.
  - destruct (upb_FieldDef_IsSubMessage f); [sound|].
    destruct (upb_FieldDef_CType f); sound.
  - apply alloc_sound_when. sound.
Qed.

Lemma alloc_sound_oneofdef_toproto (o : upb_OneofDef) : alloc_sound (oneofdef_toproto o).
Proof. unfold oneofdef_toproto. sound. Qed.

Lemma alloc_sound_enumvaldef_toproto (e : upb_EnumValueDef) :
  alloc_sound (enumvaldef_toproto e).
Proof. unfold enumvaldef_toproto. sound. Qed.

Lemma alloc_sound_methoddef_toproto (m : upb_MethodDef) :
  alloc_sound (methoddef_toproto m).
Proof. unfold methoddef_toproto. sound. Qed.

Lemma alloc_sound_resrange_toproto (r : upb_MessageReservedRange) :
  alloc_sound (resrange_toproto r).
Proof. unfold resrange_toproto. sound. Qed.

Lemma alloc_sound_enumresrange_toproto (r : upb_EnumReservedRange) :
  alloc_sound (enumresrange_toproto r).
Proof. unfold enumresrange_toproto. sound. Qed.

Lemma alloc_sound_extrange_toproto (e : upb_ExtensionRange) :
  alloc_sound (extrange_toproto e).
Proof. unfold extrange_toproto. sound. Qed.

#[local] Hint Resolve alloc_sound_fielddef_toproto alloc_sound_oneofdef_toproto
  alloc_sound_enumvaldef_toproto alloc_sound_methoddef_toproto
  alloc_sound_resrange_toproto alloc_sound_enumresrange_toproto
  alloc_sound_extrange_toproto : sound.

Lemma alloc_sound_enumdef_toproto (e : upb_EnumDef) : alloc_sound (enumdef_toproto e).
Proof. unfold enumdef_toproto, upb_EnumDef_ValueCount. cbv zeta. sound. Qed.

Lemma alloc_sound_servicedef_toproto (s : upb_ServiceDef) :
  alloc_sound (servicedef_toproto s).
Proof. unfold servicedef_toproto. cbv zeta. sound. Qed.

#[local] Hint Resolve alloc_sound_enumdef_toproto alloc_sound_servicedef_toproto : sound.

Lemma alloc_sound_msgdef_toproto (sgn : bool) (m : upb_MessageDef) :
  alloc_sound (msgdef_toproto sgn m).
Proof.
  induction m as [m IH] using upb_MessageDef_nested_ind.
  rewrite msgdef_toproto_unfold. sound.
Qed.

#[local] Hint Resolve alloc_sound_msgdef_toproto : sound.

Lemma alloc_sound_filedef_toproto (sgn : bool) (f : upb_FileDef) :
  alloc_sound (filedef_toproto sgn f).
Proof.
  unfold filedef_toproto. cbv zeta. sound.
  - destruct (upb_FileDef_Package f); sound.
  - destruct (upb_FileDef_Syntax f); sound.
Qed.

(** ** What the entry points return *)

Lemma setjmp_return_null {A} (conv : M A) (a : upb_Arena) :
  alloc_sound conv -> setjmp_return conv a = Returned None -> In false a.
Proof.
  intros Hconv. unfold setjmp_return. specialize (Hconv a).
  destruct (conv a); intros [=]. assumption.
Qed.

Lemma setjmp_return_complete {A} (conv : M A) (a : upb_Arena) (proto : A) :
  alloc_sound conv ->
  setjmp_return conv a = Returned (Some proto) ->
  setjmp_return conv [] = Returned (Some proto).
Proof.
  intros Hconv. unfold setjmp_return. specialize (Hconv a).
  destruct (conv a) as [y a'| |]; intros [= <-].
  destruct Hconv as [_ ->]. reflexivity.
Qed.

(** An entry point returns null only if an allocator call of the arena
    fails: with an arena whose calls all succeed, none of the eight entry
    points returns null. *)
Theorem null_only_on_allocation_failure (sgn : bool) (a : upb_Arena) :
  (forall m, upb_MessageDef_ToProto sgn m a = Returned None -> In false a) /\
  (forall e, upb_EnumDef_ToProto e a = Returned None -> In false a) /\
  (forall e, upb_EnumValueDef_ToProto e a = Returned None -> In false a) /\
  (forall f, upb_FieldDef_ToProto sgn f a = Returned None -> In false a) /\
  (forall o, upb_OneofDef_ToProto o a = Returned None -> In false a) /\
  (forall f, upb_FileDef_ToProto sgn f a = Returned None -> In false a) /\
  (forall m, upb_MethodDef_ToProto m a = Returned None -> In false a) /\
  (forall s, upb_ServiceDef_ToProto s a = Returned None -> In false a).
Proof.
  repeat apply conj; intros x; apply setjmp_return_null.
  - apply alloc_sound_msgdef_toproto.
  - apply alloc_sound_enumdef_toproto.
  - apply alloc_sound_enumvaldef_toproto.
  - apply alloc_sound_fielddef_toproto.
  - apply alloc_sound_oneofdef_toproto.
  - apply alloc_sound_filedef_toproto.
  - apply alloc_sound_methoddef_toproto.
  - apply alloc_sound_servicedef_toproto.
Qed.

Lemma null_only_on_allocation_failure_witness :
  upb_MessageDef_ToProto true message_M [true; true; false] = Returned None /\
  In false [true; true; false].
Proof.
  split; [reflexivity|].
  exact (proj1 (null_only_on_allocation_failure true [true; true; false])
           message_M eq_refl).
Defined.

(** A proto an entry point returns never depends on the arena: it is the
    proto the entry point returns when no allocator call fails.  This
    holds also where a failed resize goes unchecked. *)
Theorem returned_proto_is_complete (sgn : bool) (a : upb_Arena) :
  (forall m proto, upb_MessageDef_ToProto sgn m a = Returned (Some proto) ->
     upb_MessageDef_ToProto sgn m [] = Returned (Some proto)) /\
  (forall e proto, upb_EnumDef_ToProto e a = Returned (Some proto) ->
     upb_EnumDef_ToProto e [] = Returned (Some proto)) /\
  (forall e proto, upb_EnumValueDef_ToProto e a = Returned (Some proto) ->
     upb_EnumValueDef_ToProto e [] = Returned (Some proto)) /\
  (forall f proto, upb_FieldDef_ToProto sgn f a = Returned (Some proto) ->
     upb_FieldDef_ToProto sgn f [] = Returned (Some proto)) /\
  (forall o proto, upb_OneofDef_ToProto o a = Returned (Some proto) ->
     upb_OneofDef_ToProto o [] = Returned (Some proto)) /\
  (forall f proto, upb_FileDef_ToProto sgn f a = Returned (Some proto) ->
     upb_FileDef_ToProto sgn f [] = Returned (Some proto)) /\
  (forall m proto, upb_MethodDef_ToProto m a = Returned (Some proto) ->
     upb_MethodDef_ToProto m [] = Returned (Some proto)) /\
  (forall s proto, upb_ServiceDef_ToProto s a = Returned (Some proto) ->
     upb_ServiceDef_ToProto s [] = Returned (Some proto)).
Proof.
  repeat apply conj; intros x proto; apply setjmp_return_complete.
  - apply alloc_sound_msgdef_toproto.
  - apply alloc_sound_enumdef_toproto.
  - apply alloc_sound_enumvaldef_toproto.
  - apply alloc_sound_fielddef_toproto.
  - apply alloc_sound_oneofdef_toproto.
  - apply alloc_sound_filedef_toproto.
  - apply alloc_sound_methoddef_toproto.
  - apply alloc_sound_servicedef_toproto.
Qed.

Lemma returned_proto_is_complete_witness :
  upb_MessageDef_ToProto true message_Empty [true; true; true; false]
  = Returned (Some (message_proto "Empty" [])) /\
  upb_MessageDef_ToProto true message_Empty []
  = Returned (Some (message_proto "Empty" [])).
Proof.
  split; [reflexivity|].
  exact (proj1 (returned_proto_is_complete true [true; true; true; false])
           message_Empty _ eq_refl).
Defined.

(** ** Children and their own entry points *)

Lemma slots_hold_standalone {A B} (conv : A -> M B) (children : list A) (out : slots B) :
  (forall child, alloc_sound (conv child)) ->
  slots_hold conv children out ->
  forall i child, children !! i = Some child ->
    exists y, out !! i = Some (Some y) /\
              setjmp_return (conv child) [] = Returned (Some y).
Proof.
  intros Hconv [_ Hslots] i child Hi.
  destruct (Hslots i child Hi) as (y & a1 & a2 & Hy & Hout).
  exists y. split; [assumption|].
  specialize (Hconv child a1). rewrite Hy in Hconv. destruct Hconv as [_ H0].
  unfold setjmp_return. now rewrite H0.
Qed.

(** Conversion is compositional: in a proto returned for a file, the slot
    of each top-level message, enum, service and extension holds the proto
    that the entry point of that kind returns for the child itself. *)
Theorem file_children_as_converted_alone (sgn : bool) (f : upb_FileDef)
  (a : upb_Arena) (proto : FileDescriptorProto) :
  upb_FileDef_ToProto sgn f a = Returned (Some proto) ->
  (forall i m, upb_FileDef_TopLevelMessages f !! i = Some m ->
     exists p, FileDescriptorProto_message_type proto !! i = Some (Some p) /\
               upb_MessageDef_ToProto sgn m [] = Returned (Some p)) /\
  (forall i e, upb_FileDef_TopLevelEnums f !! i = Some e ->
     exists p, FileDescriptorProto_enum_type proto !! i = Some (Some p) /\
               upb_EnumDef_ToProto e [] = Returned (Some p)) /\
  (forall i s, upb_FileDef_Services f !! i = Some s ->
     exists p, FileDescriptorProto_service proto !! i = Some (Some p) /\
               upb_ServiceDef_ToProto s [] = Returned (Some p)) /\
  (forall i x, upb_FileDef_TopLevelExtensions f !! i = Some x ->
     exists p, FileDescriptorProto_extension proto !! i = Some (Some p) /\
               upb_FieldDef_ToProto sgn x [] = Returned (Some p)).
Proof.
  unfold upb_FileDef_ToProto, upb_ToProto_ConvertFileDef, setjmp_return.
  destruct (filedef_toproto sgn f a) as [y a'| |] eqn:E; intros [= <-].
  apply filedef_toproto_slots in E as (_ & _ & _ & Hm & He & Hs & Hx).
  repeat apply conj.
  - apply (slots_hold_standalone _ _ _ (alloc_sound_msgdef_toproto sgn) Hm).
  - apply (slots_hold_standalone _ _ _ alloc_sound_enumdef_toproto He).
  - apply (slots_hold_standalone _ _ _ alloc_sound_servicedef_toproto Hs).
  - apply (slots_hold_standalone _ _ _ (alloc_sound_fielddef_toproto sgn) Hx).
Qed.

Lemma file_children_as_converted_alone_witness :
  exists proto,
    upb_FileDef_ToProto true file_ab [] = Returned (Some proto) /\
    exists p, FileDescriptorProto_message_type proto !! 0%nat = Some (Some p) /\
              upb_MessageDef_ToProto true message_M [] = Returned (Some p).
Proof.
  eexists. split; [vm_compute; reflexivity|].
  exact (proj1 (file_children_as_converted_alone true file_ab [] _ eq_refl)
           0%nat message_M eq_refl).
Defined.

(** In a proto returned for a message, the slot of each field, oneof,
    nested message, nested enum and nested extension holds the proto that
    the entry point of that kind returns for the child itself. *)
Theorem message_children_as_converted_alone (sgn : bool) (m : upb_MessageDef)
  (a : upb_Arena) (proto : DescriptorProto) :
  upb_MessageDef_ToProto sgn m a = Returned (Some proto) ->
  (forall i f, upb_MessageDef_Fields m !! i = Some f ->
     exists p, DescriptorProto_field proto !! i = Some (Some p) /\
               upb_FieldDef_ToProto sgn f [] = Returned (Some p)) /\
  (forall i o, upb_MessageDef_Oneofs m !! i = Some o ->
     exists p, DescriptorProto_oneof_decl proto !! i = Some (Some p) /\
               upb_OneofDef_ToProto o [] = Returned (Some p)) /\
  (forall i n, upb_MessageDef_NestedMessages m !! i = Some n ->
     exists p, DescriptorProto_nested_type proto !! i = Some (Some p) /\
               upb_MessageDef_ToProto sgn n [] = Returned (Some p)) /\
  (forall i e, upb_MessageDef_NestedEnums m !! i = Some e ->
     exists p, DescriptorProto_enum_type proto !! i = Some (Some p) /\
               upb_EnumDef_ToProto e [] = Returned (Some p)) /\
  (forall i x, upb_MessageDef_NestedExtensions m !! i = Some x ->
     exists p, DescriptorProto_extension proto !! i = Some (Some p) /\
               upb_FieldDef_ToProto sgn x [] = Returned (Some p)).
Proof.
  unfold upb_MessageDef_ToProto, upb_ToProto_ConvertMessageDef, setjmp_return.
  destruct (msgdef_toproto sgn m a) as [y a'| |] eqn:E; intros [= <-].
  apply msgdef_toproto_slots in E as (Hf & Ho & Hn & He & Hx & _).
  repeat apply conj.
  - apply (slots_hold_standalone _ _ _ (alloc_sound_fielddef_toproto sgn) Hf).
  - apply (slots_hold_standalone _ _ _ alloc_sound_oneofdef_toproto Ho).
  - apply (slots_hold_standalone _ _ _ (alloc_sound_msgdef_toproto sgn) Hn).
  - apply (slots_hold_standalone _ _ _ alloc_sound_enumdef_toproto He).
  - apply (slots_hold_standalone _ _ _ (alloc_sound_fielddef_toproto sgn) Hx).
Qed.

Lemma message_children_as_converted_alone_witness :
  upb_MessageDef_ToProto true message_M []
  = Returned (Some (message_proto "M" [Some field_x_proto])) /\
  exists p, [Some field_x_proto] !! 0%nat = Some (Some p) /\
            upb_FieldDef_ToProto true field_x [] = Returned (Some p).
Proof.
  split; [reflexivity|].
  exact (proj1 (message_children_as_converted_alone true message_M [] _ eq_refl)
           0%nat field_x eq_refl).
Defined.

(** ** Conversion when no allocator call fails *)

Lemma succeeds_ret {A} (x : A) : succeeds (ret x).
Proof. now exists x. Qed.

Lemma succeeds_bind {A B} (m : M A) (k : A -> M B) :
  succeeds m -> (forall x, succeeds (k x)) -> succeeds (bind m k).
Proof.
  intros [x Hx] Hk. destruct (Hk x) as [y Hy]. exists y.
  unfold bind. now rewrite Hx.
Qed.

Lemma succeeds_alloc {A} (k : bool -> M A) :
  succeeds (k true) -> succeeds (p <- upb_Arena_Malloc ;; CHK_OOM p ;;; k p).
Proof. intros [y Hy]. now exists y. Qed.

Lemma succeeds_new_proto : succeeds new_proto.
Proof. now exists tt. Qed.

Lemma succeeds_when {A} (cond : bool) (m : M A) :
  (cond = true -> succeeds m) -> succeeds (when cond m).
Proof.
  intros Hm. unfold when. destruct cond; [|apply succeeds_ret].
  apply succeeds_bind; [now apply Hm | intros x; apply succeeds_ret].
Qed.

Lemma succeeds_resize {B C} (n : nat) (k : option (slots B) -> M C) :
  succeeds (k (Some (replicate n None))) -> succeeds (arr <- resize n ;; k arr).
Proof. intros [y Hy]. now exists y. Qed.

Lemma succeeds_CHK_OOM_Some {B} (l : slots B) :
  succeeds (CHK_OOM (bool_decide (is_Some (Some l)))).
Proof.
  exists tt. unfold CHK_OOM. rewrite bool_decide_eq_true_2 by eauto. reflexivity.
Qed.

Lemma succeeds_fill_slots {A B} (conv : A -> M B) (children : list A) :
  Forall (fun child => succeeds (conv child)) children ->
  forall i l, succeeds (fill_slots conv children i (Some l)).
Proof.
  induction 1 as [|child rest Hchild _ IH]; intros i l; cbn [fill_slots].
  - apply succeeds_ret.
  - apply succeeds_bind; [assumption | intros y; apply IH].
Qed.

Lemma succeeds_memcpy_int32 (l : slots Z) (src : list Z) :
  succeeds (memcpy_int32 (Some l) src).
Proof. destruct src; eexists; reflexivity. Qed.

Lemma succeeds_strviewdup2 (str : upb_StringView) : succeeds (strviewdup2 str).
Proof. eexists. reflexivity. Qed.

Lemma succeeds_strviewdup (s : string) : succeeds (strviewdup s).
Proof. apply succeeds_strviewdup2. Qed.

Lemma succeeds_qual_dup (s : string) : succeeds (qual_dup s).
Proof. eexists. reflexivity. Qed.

Lemma succeeds_SET_OPTIONS (src : Options) : succeeds (SET_OPTIONS src).
Proof. eexists. reflexivity. Qed.

Lemma succeeds_printf_dup (text : list byte) :
  (length text < 32)%nat -> succeeds (printf_dup text).
Proof.
  intros Hlen. eexists. unfold printf_dup, bind, upb_Arena_Malloc, CHK_OOM.
  destruct (Nat.ltb_spec (length text) 32); [reflexivity | lia].
Qed.

Lemma succeeds_default_bytes (sgn : bool) (val : upb_StringView) :
  succeeds (default_bytes sgn val).
Proof. eexists. now apply default_bytes_Done. Qed.

Create HintDb succ.

#[local] Hint Resolve succeeds_ret succeeds_new_proto succeeds_strviewdup2
  succeeds_strviewdup succeeds_qual_dup succeeds_SET_OPTIONS
  succeeds_default_bytes succeeds_CHK_OOM_Some succeeds_memcpy_int32 : succ.

#[local] Hint Extern 2 (succeeds (when _ _)) =>
  apply succeeds_when; intros ? : succ.
#[local] Hint Extern 2 (succeeds (fill_slots _ _ _ (Some _))) =>
  apply succeeds_fill_slots : succ.
#[local] Hint Extern 3 (Forall _ _) => apply Forall_true; intros ? : succ.

Ltac succ :=
  repeat lazymatch goal with
  | |- succeeds (bind (resize _) _) => apply succeeds_resize
  | |- succeeds (bind _ _) => apply succeeds_bind; [|intros ?]
  end;
  auto with succ.

Lemma succeeds_oneofdef_toproto (o : upb_OneofDef) : succeeds (oneofdef_toproto o).
Proof. unfold oneofdef_toproto. succ. Qed.

Lemma succeeds_enumvaldef_toproto (e : upb_EnumValueDef) :
  succeeds (enumvaldef_toproto e).
Proof. unfold enumvaldef_toproto. succ. Qed.

Lemma succeeds_methoddef_toproto (m : upb_MethodDef) : succeeds (methoddef_toproto m).
Proof. unfold methoddef_toproto. succ. Qed.

Lemma succeeds_resrange_toproto (r : upb_MessageReservedRange) :
  succeeds (resrange_toproto r).
Proof. unfold resrange_toproto. succ. Qed.

Lemma succeeds_enumresrange_toproto (r : upb_EnumReservedRange) :
  succeeds (enumresrange_toproto r).
Proof. unfold enumresrange_toproto. succ. Qed.

Lemma succeeds_extrange_toproto (e : upb_ExtensionRange) :
  succeeds (extrange_toproto e).
Proof. unfold extrange_toproto. succ. Qed.

#[local] Hint Resolve succeeds_oneofdef_toproto succeeds_enumvaldef_toproto
  succeeds_methoddef_toproto succeeds_resrange_toproto
  succeeds_enumresrange_toproto succeeds_extrange_toproto : succ.

Lemma succeeds_enumdef_toproto (e : upb_EnumDef) : succeeds (enumdef_toproto e).
Proof. unfold enumdef_toproto, upb_EnumDef_ValueCount. cbv zeta. succ. Qed.

Lemma succeeds_servicedef_toproto (s : upb_ServiceDef) :
  succeeds (servicedef_toproto s).
Proof. unfold servicedef_toproto. cbv zeta. succ. Qed.

#[local] Hint Resolve succeeds_enumdef_toproto succeeds_servicedef_toproto : succ.

Lemma succeeds_setjmp_return {A} (conv : M A) :
  succeeds conv -> exists proto, setjmp_return conv [] = Returned (Some proto).
Proof. intros [y Hy]. exists y. unfold setjmp_return. now rewrite Hy. Qed.

(** Enums, enum values, oneofs, methods and services are converted
    whatever they hold: when no allocator call fails, their entry points
    return a proto, never null and never after undefined behaviour. *)
Theorem enum_and_service_always_convert :
  (forall e, exists proto, upb_EnumDef_ToProto e [] = Returned (Some proto)) /\
  (forall e, exists proto, upb_EnumValueDef_ToProto e [] = Returned (Some proto)) /\
  (forall o, exists proto, upb_OneofDef_ToProto o [] = Returned (Some proto)) /\
  (forall m, exists proto, upb_MethodDef_ToProto m [] = Returned (Some proto)) /\
  (forall s, exists proto, upb_ServiceDef_ToProto s [] = Returned (Some proto)).
Proof.
  repeat apply conj; intros x; apply succeeds_setjmp_return; auto with succ.
Qed.

Lemma succeeds_default_string (sgn : bool) (f : upb_FieldDef) :
  default_ok f -> succeeds (default_string sgn f).
Proof.
  unfold default_ok, default_string, default_string_with. intros Hok.
  destruct (upb_FieldDef_CType f) eqn:Ekind; cbn [default_special numeric_in_range] in *;
    try contradiction; auto with succ.
  - destruct (special_float _); [auto with succ|].
    apply succeeds_printf_dup.
    pose proof (format_g_length 9 (float_val (upb_FieldDef_Default f))
                  ltac:(lia) (or_intror Hok)) as H. cbn in H. lia.
  - apply succeeds_printf_dup.
    pose proof (format_signed_length (int32_val (upb_FieldDef_Default f))
                  ltac:(lia)). lia.
  - apply succeeds_printf_dup.
    pose proof (format_unsigned_length (uint32_val (upb_FieldDef_Default f))
                  ltac:(lia)). lia.
  - destruct Hok as (e & -> & [ev ->]). auto with succ.
  - destruct (special_float _); [auto with succ|].
    apply succeeds_printf_dup.
    pose proof (format_g_length 17 (double_val (upb_FieldDef_Default f))
                  ltac:(lia) (or_introl Hok)) as H. cbn in H. lia.
  - apply succeeds_printf_dup.
    pose proof (format_signed_length (int64_val (upb_FieldDef_Default f)) Hok). lia.
  - apply succeeds_printf_dup.
    pose proof (format_unsigned_length (uint64_val (upb_FieldDef_Default f)) Hok). lia.
Qed.

Lemma succeeds_fielddef_toproto (sgn : bool) (f : upb_FieldDef) :
  field_ok f -> succeeds (fielddef_toproto sgn f).
Proof.
  intros (Hsub & Henum & Hext & Hdef). unfold fielddef_toproto. succ.
  - destruct (upb_FieldDef_IsSubMessage f).
    + destruct (Hsub eq_refl) as [m ->]. cbn [full_name_of]. succ.
    + destruct (upb_FieldDef_CType f); auto with succ.
      destruct (Henum eq_refl eq_refl) as [e ->]. cbn. succ.
  - apply succeeds_when. intros Hx. destruct (Hext Hx) as [m ->].
    cbn [full_name_of]. succ.
  - apply succeeds_when. intros Hd. apply succeeds_default_string. auto.
Qed.

Lemma msg_ok_nested (m : upb_MessageDef) :
  msg_ok m -> Forall msg_ok (upb_MessageDef_NestedMessages m).
Proof.
  destruct m as [name full fields oneofs nested enums exts xr rr rn ho o].
  cbn [msg_ok upb_MessageDef_NestedMessages upb_MessageDef_Fields
       upb_MessageDef_NestedExtensions].
  intros (_ & _ & H). induction nested as [|child rest IH]; constructor.
  - apply H.
  - apply IH, H.
Qed.

Lemma msg_ok_fields (m : upb_MessageDef) :
  msg_ok m ->
  Forall field_ok (upb_MessageDef_Fields m) /\
  Forall field_ok (upb_MessageDef_NestedExtensions m).
Proof. destruct m. cbn. tauto. Qed.

Lemma Forall_succeeds {A B} (P : A -> Prop) (conv : A -> M B) (l : list A) :
  (forall x, P x -> succeeds (conv x)) -> Forall P l ->
  Forall (fun x => succeeds (conv x)) l.
Proof. intros H HP. eapply Forall_impl; eauto. Qed.

Lemma succeeds_msgdef_toproto (sgn : bool) (m : upb_MessageDef) :
  msg_ok m -> succeeds (msgdef_toproto sgn m).
Proof.
  induction m as [m IH] using upb_MessageDef_nested_ind. intros Hok.
  pose proof (msg_ok_nested m Hok) as Hnested.
  destruct (msg_ok_fields m Hok) as [Hfields Hexts].
  assert (Forall (fun c => succeeds (msgdef_toproto sgn c))
            (upb_MessageDef_NestedMessages m)).
  { clear -IH Hnested. induction IH as [|c l Hc _ IHl]; constructor.
    - apply Hc. now inversion Hnested.
    - apply IHl. now inversion Hnested. }
  pose proof (Forall_succeeds _ _ _ (succeeds_fielddef_toproto sgn) Hfields).
  pose proof (Forall_succeeds _ _ _ (succeeds_fielddef_toproto sgn) Hexts).
  rewrite msgdef_toproto_unfold. succ.
Qed.

(** Under the caller's contract a file is converted: if the links of its
    fields and extensions are resolved and their defaults are well formed
    ([file_ok]), then with no allocator call failing the entry point
    returns a proto; no assertion fails and nothing undefined happens. *)
Theorem well_formed_file_converts (sgn : bool) (f : upb_FileDef) :
  file_ok f ->
  exists proto, upb_FileDef_ToProto sgn f [] = Returned (Some proto).
Proof.
  intros [Hmsgs Hexts]. apply succeeds_setjmp_return.
  pose proof (Forall_succeeds _ _ _ (succeeds_msgdef_toproto sgn) Hmsgs).
  pose proof (Forall_succeeds _ _ _ (succeeds_fielddef_toproto sgn) Hexts).
  unfold filedef_toproto. cbv zeta. succ.
  - destruct (upb_FileDef_Package f); succ.
  - destruct (upb_FileDef_Syntax f); succ.
Qed.

Lemma file_ok_file_ab : file_ok file_ab.
Proof.
  split; [|constructor]. repeat constructor; cbn; intros; try discriminate; try lia.
Qed.

Lemma well_formed_file_converts_witness :
  file_ok file_ab /\
  exists proto, upb_FileDef_ToProto true file_ab [] = Returned (Some proto).
Proof.
  split; [exact file_ok_file_ab|].
  exact (well_formed_file_converts true file_ab file_ok_file_ab).
Defined.

(** ** Where undefined behaviour can come from *)

Lemma faults_within_ret {A} (P : fault -> Prop) (x : A) : faults_within P (ret x).
Proof. intros a flt [=]. Qed.

Lemma faults_within_raise {A} (P : fault -> Prop) (flt : fault) :
  P flt -> faults_within P (@raise A flt).
Proof. intros H a g [= <-]. exact H. Qed.

Lemma faults_within_bind {A B} (P : fault -> Prop) (m : M A) (k : A -> M B) :
  faults_within P m -> (forall x, faults_within P (k x)) ->
  faults_within P (bind m k).
Proof.
  intros Hm Hk a flt H. unfold bind in H.
  destruct (m a) as [x a1| |g] eqn:E; try discriminate.
  - exact (Hk x a1 flt H).
  - injection H as <-. exact (Hm a g E).
Qed.

(** An allocator call followed by [CHK_OOM]. *)
Lemma faults_within_alloc {A} (P : fault -> Prop) (k : bool -> M A) :
  (forall p, faults_within P (k p)) ->
  faults_within P (p <- upb_Arena_Malloc ;; CHK_OOM p ;;; k p).
Proof.
  intros Hk a flt H. unfold bind, upb_Arena_Malloc, CHK_OOM in H.
  destruct a as [|[] a]; try discriminate; exact (Hk _ _ _ H).
Qed.

Lemma faults_within_new_proto (P : fault -> Prop) : faults_within P new_proto.
Proof.
  intros a flt H. unfold new_proto, bind, upb_Arena_Malloc, CHK_OOM in H.
  destruct a as [|[] a]; discriminate.
Qed.

Lemma faults_within_when {A} (P : fault -> Prop) (cond : bool) (m : M A) :
  faults_within P m -> faults_within P (when cond m).
Proof.
  intros Hm. unfold when. destruct cond; [|apply faults_within_ret].
  apply faults_within_bind; [assumption | intros x; apply faults_within_ret].
Qed.

Lemma faults_within_strviewdup2 (P : fault -> Prop) (str : upb_StringView) :
  faults_within P (strviewdup2 str).
Proof.
  apply (faults_within_alloc P (fun _ => ret _)). intros _. apply faults_within_ret.
Qed.

Lemma faults_within_strviewdup (P : fault -> Prop) (s : string) :
  faults_within P (strviewdup s).
Proof. apply faults_within_strviewdup2. Qed.

Lemma faults_within_qual_dup (P : fault -> Prop) (s : string) :
  faults_within P (qual_dup s).
Proof.
  apply (faults_within_alloc P (fun _ => ret _)). intros _. apply faults_within_ret.
Qed.

Lemma faults_within_SET_OPTIONS (P : fault -> Prop) (src : Options) :
  faults_within P (SET_OPTIONS src).
Proof.
  apply (faults_within_alloc P
           (fun _ => dst <- upb_Arena_Malloc ;; CHK_OOM dst ;;; ret src)).
  intros _. apply (faults_within_alloc P (fun _ => ret src)).
  intros _. apply faults_within_ret.
Qed.

Lemma faults_within_full_name_of (P : fault -> Prop) (def : option string) :
  P NullDeref -> faults_within P (full_name_of def).
Proof.
  intros H. destruct def; [apply faults_within_ret | now apply faults_within_raise].
Qed.

Create HintDb faults.

#[local] Hint Resolve faults_within_ret faults_within_new_proto
  faults_within_when faults_within_strviewdup2 faults_within_strviewdup
  faults_within_qual_dup faults_within_SET_OPTIONS : faults.

Ltac faults :=
  repeat lazymatch goal with
  | |- faults_within _ (bind _ _) => apply faults_within_bind; [|intros ?]
  end;
  auto with faults.

(** A method is converted without undefined behaviour. *)
Lemma faults_within_methoddef_toproto (P : fault -> Prop) (m : upb_MethodDef) :
  faults_within P (methoddef_toproto m).
Proof. unfold methoddef_toproto. faults. Qed.

Lemma never_finishes_raise {A} (P : fault -> Prop) (flt : fault) :
  P flt -> never_finishes P (@raise A flt).
Proof. intros H a. exact H. Qed.

Lemma never_finishes_bind_l {A B} (P : fault -> Prop) (m : M A) (k : A -> M B) :
  never_finishes P m -> never_finishes P (bind m k).
Proof.
  intros Hm a. specialize (Hm a). unfold bind.
  destruct (m a); [contradiction | exact I | exact Hm].
Qed.

Lemma never_finishes_bind_r {A B} (P : fault -> Prop) (m : M A) (k : A -> M B) :
  faults_within P m -> (forall x, never_finishes P (k x)) ->
  never_finishes P (bind m k).
Proof.
  intros Hm Hk a. unfold bind.
  destruct (m a) as [x a1| |g] eqn:E; [apply Hk | exact I | exact (Hm a g E)].
Qed.

(** When the unchecked resize of the method slots fails (the third
    allocator call, after two that succeed), the entry point for a service
    with at least one method never returns a proto.  The loop converts the
    first method on the rest of the arena: if that conversion finishes, as
    it does when no later allocator call fails, its result is stored
    through the null array; if an allocator call of it fails, the entry
    point returns null. *)
Theorem service_resize_failure_null_store (s : upb_ServiceDef) (m : upb_MethodDef)
  (ms : list upb_MethodDef) (rest : upb_Arena) :
  upb_ServiceDef_Methods s = m :: ms ->
  let r := upb_ServiceDef_ToProto s (true :: true :: false :: rest) in
  (r = Undefined NullStore <->
   exists proto, upb_MethodDef_ToProto m rest = Returned (Some proto)) /\
  (r = Returned None <-> upb_MethodDef_ToProto m rest = Returned None) /\
  (r = Undefined NullStore \/ r = Returned None) /\
  (~ In false rest -> r = Undefined NullStore).
Proof.
  intros Hms r.
  assert (Hr : r = match methoddef_toproto m rest with
                   | Done _ _ => Undefined NullStore
                   | LongJmp => Returned None
                   | Fault flt => Undefined flt
                   end).
  { subst r. unfold upb_ServiceDef_ToProto, upb_ToProto_ConvertServiceDef,
      setjmp_return, servicedef_toproto.
    rewrite Hms. cbv zeta.
    do 3 (erewrite bind_Done; [|reflexivity]).
    cbn [fill_slots]. unfold bind.
    now destruct (methoddef_toproto m rest). }
  clearbody r. subst r.
  pose proof (faults_within_methoddef_toproto (fun _ => False) m rest) as Hnofault.
  pose proof (alloc_sound_methoddef_toproto m rest) as Hsound.
  unfold upb_MethodDef_ToProto, upb_ToProto_ConvertMethodDef, setjmp_return.
  destruct (methoddef_toproto m rest) as [y a'| |flt].
  - split; [|split; [|split]].
    + split; [intros _; now exists y | reflexivity].
    + split; discriminate.
    + now left.
    + reflexivity.
  - split; [|split; [|split]].
    + split; [discriminate | intros [proto [=]]].
    + split; reflexivity.
    + now right.
    + intros Hnone. contradiction.
  - destruct (Hnofault flt eq_refl).
Qed.

Lemma service_resize_failure_null_store_witness :
  upb_ServiceDef_Methods service_S = [method_Get] /\
  upb_ServiceDef_ToProto service_S [true; true; false] = Undefined NullStore /\
  upb_ServiceDef_ToProto service_S [true; true; false; false] = Returned None.
Proof.
  split; [reflexivity|]. split.
  - exact (proj2 (proj2 (proj2
             (service_resize_failure_null_store service_S method_Get [] [] eq_refl)))
             (fun H => H)).
  - exact (proj2 (proj1 (proj2
             (service_resize_failure_null_store service_S method_Get [] [false] eq_refl)))
             eq_refl).
Defined.

(** The first allocator calls of every entry point are checked: if the
    first or the second call fails (the proto and its name), and for
    messages and enums the third (the field or value slots), the entry
    point returns null whatever the def is. *)
Theorem early_allocation_failure_returns_null (sgn : bool) (rest : upb_Arena) :
  (forall m, upb_MessageDef_ToProto sgn m (false :: rest) = Returned None /\
             upb_MessageDef_ToProto sgn m (true :: false :: rest) = Returned None /\
             upb_MessageDef_ToProto sgn m (true :: true :: false :: rest) = Returned None) /\
  (forall e, upb_EnumDef_ToProto e (false :: rest) = Returned None /\
             upb_EnumDef_ToProto e (true :: false :: rest) = Returned None /\
             upb_EnumDef_ToProto e (true :: true :: false :: rest) = Returned None) /\
  (forall e, upb_EnumValueDef_ToProto e (false :: rest) = Returned None /\
             upb_EnumValueDef_ToProto e (true :: false :: rest) = Returned None) /\
  (forall f, upb_FieldDef_ToProto sgn f (false :: rest) = Returned None /\
             upb_FieldDef_ToProto sgn f (true :: false :: rest) = Returned None) /\
  (forall o, upb_OneofDef_ToProto o (false :: rest) = Returned None /\
             upb_OneofDef_ToProto o (true :: false :: rest) = Returned None) /\
  (forall f, upb_FileDef_ToProto sgn f (false :: rest) = Returned None /\
             upb_FileDef_ToProto sgn f (true :: false :: rest) = Returned None) /\
  (forall m, upb_MethodDef_ToProto m (false :: rest) = Returned None /\
             upb_MethodDef_ToProto m (true :: false :: rest) = Returned None) /\
  (forall s, upb_ServiceDef_ToProto s (false :: rest) = Returned None /\
             upb_ServiceDef_ToProto s (true :: false :: rest) = Returned None).
Proof.
  repeat apply conj; intros x; repeat split;
    try (unfold upb_MessageDef_ToProto, upb_ToProto_ConvertMessageDef;
         rewrite msgdef_toproto_unfold);
    reflexivity.
Qed.

(** ** Signedness of [char] *)

Lemma agree_refl {A} (m : M A) : agree m m.
Proof. intros a. reflexivity. Qed.

Lemma agree_bind {A B} (m m' : M A) (k k' : A -> M B) :
  agree m m' -> (forall x, agree (k x) (k' x)) -> agree (bind m k) (bind m' k').
Proof.
  intros Hm Hk a. unfold bind. rewrite Hm. destruct (m' a); [apply Hk | reflexivity..].
Qed.

Lemma agree_when {A} (cond : bool) (m m' : M A) :
  agree m m' -> agree (when cond m) (when cond m').
Proof.
  intros Hm. unfold when. destruct cond; [|apply agree_refl].
  apply agree_bind; [assumption | intros x; apply agree_refl].
Qed.

Lemma agree_fill_slots {A B} (conv conv' : A -> M B) (children : list A) :
  Forall (fun child => agree (conv child) (conv' child)) children ->
  forall i arr, agree (fill_slots conv children i arr) (fill_slots conv' children i arr).
Proof.
  induction 1 as [|child rest Hchild _ IH]; intros i arr; cbn [fill_slots].
  - apply agree_refl.
  - apply agree_bind; [assumption|]. intros y. destruct arr; [apply IH | apply agree_refl].
Qed.

Lemma agree_default_bytes (val : upb_StringView) :
  agree (default_bytes true val) (default_bytes false val).
Proof.
  intros a. unfold default_bytes, bind, upb_Arena_Malloc, CHK_OOM.
  rewrite !write_escaped_exact. reflexivity.
Qed.

Lemma agree_default_string (f : upb_FieldDef) :
  agree (default_string true f) (default_string false f).
Proof.
  unfold default_string, default_string_with. destruct (default_special _ _); [apply agree_refl|].
  destruct (upb_FieldDef_CType f); try apply agree_refl.
  apply agree_default_bytes.
Qed.

Ltac agree :=
  repeat lazymatch goal with
  | |- agree ?m ?m => apply agree_refl
  | |- agree (bind _ _) (bind _ _) => apply agree_bind; [|intros ?]
  | |- agree (when _ _) (when _ _) => apply agree_when
  | |- agree (fill_slots _ _ _ _) (fill_slots _ _ _ _) => apply agree_fill_slots
  end;
  try apply agree_refl.

Lemma agree_fielddef_toproto (f : upb_FieldDef) :
  agree (fielddef_toproto true f) (fielddef_toproto false f).
Proof. unfold fielddef_toproto. agree. apply agree_default_string. Qed.

Lemma agree_msgdef_toproto (m : upb_MessageDef) :
  agree (msgdef_toproto true m) (msgdef_toproto false m).
Proof.
  induction m as [m IH] using upb_MessageDef_nested_ind.
  rewrite !msgdef_toproto_unfold. agree; try assumption;
    apply Forall_true; intros f; apply agree_fielddef_toproto.
Qed.

Lemma agree_filedef_toproto (f : upb_FileDef) :
  agree (filedef_toproto true f) (filedef_toproto false f).
Proof.
  unfold filedef_toproto. cbv zeta. agree; apply Forall_true; intros child.
  - apply agree_msgdef_toproto.
  - apply agree_fielddef_toproto.
Qed.

(** The conversions do not depend on whether plain [char] is signed: on
    every def and arena the entry points for fields, messages and files
    return the same on both kinds of platform. *)
Theorem char_signedness_is_irrelevant (a : upb_Arena) :
  (forall f, upb_FieldDef_ToProto true f a = upb_FieldDef_ToProto false f a) /\
  (forall m, upb_MessageDef_ToProto true m a = upb_MessageDef_ToProto false m a) /\
  (forall f, upb_FileDef_ToProto true f a = upb_FileDef_ToProto false f a) /\
  (forall val, default_bytes true val a = default_bytes false val a).
Proof.
  repeat apply conj; intros x.
  - unfold upb_FieldDef_ToProto, upb_ToProto_ConvertFieldDef, setjmp_return.
    now rewrite agree_fielddef_toproto.
  - unfold upb_MessageDef_ToProto, upb_ToProto_ConvertMessageDef, setjmp_return.
    now rewrite agree_msgdef_toproto.
  - unfold upb_FileDef_ToProto, upb_ToProto_ConvertFileDef, setjmp_return.
    now rewrite agree_filedef_toproto.
  - apply agree_default_bytes.
Qed.

(** ** Attributes of converted fields and methods *)

Lemma SET_OPTIONS_Done_inv (src o : Options) (a a' : upb_Arena) :
  SET_OPTIONS src a = Done o a' -> o = src.
Proof. intros H. unfold SET_OPTIONS in H. inv_Done H. reflexivity. Qed.

Lemma when_strviewdup_inv (cond : bool) (s : string) (o : option upb_StringView)
  (a a' : upb_Arena) :
  when cond (strviewdup s) a = Done o a' ->
  o = if cond then Some (arena_view s) else None.
Proof.
  intros H. apply when_Done_inv in H. destruct cond.
  - destruct H as (v & Hv & ->). apply strviewdup_Done_inv in Hv. now subst.
  - now destruct H.
Qed.

Lemma when_SET_OPTIONS_inv (cond : bool) (src : Options) (o : option Options)
  (a a' : upb_Arena) :
  when cond (SET_OPTIONS src) a = Done o a' ->
  o = if cond then Some src else None.
Proof.
  intros H. apply when_Done_inv in H. destruct cond.
  - destruct H as (v & Hv & ->). apply SET_OPTIONS_Done_inv in Hv. now subst.
  - now destruct H.
Qed.

Ltac inv_slots :=
  repeat match goal with
  | H : when _ (strviewdup _) _ = Done _ _ |- _ => apply when_strviewdup_inv in H
  | H : when _ (SET_OPTIONS _) _ = Done _ _ |- _ => apply when_SET_OPTIONS_inv in H
  | H : strviewdup _ _ = Done _ _ |- _ => apply strviewdup_Done_inv in H
  | H : qual_dup _ _ = Done _ _ |- _ => apply qual_dup_Done_inv in H
  end.

(** A converted field carries the name, number, label and type of the
    def, and an optional slot exactly when the def has the attribute: no
    json name, extendee, default value, oneof index, proto3-optional mark
    or options is emitted for a field that has none, and the
    proto3-optional mark is never [false]. *)
Theorem fielddef_optional_slots (sgn : bool) (f : upb_FieldDef) (a a' : upb_Arena)
  (proto : FieldDescriptorProto) :
  fielddef_toproto sgn f a = Done proto a' ->
  FieldDescriptorProto_name proto = Some (arena_view (upb_FieldDef_Name f)) /\
  FieldDescriptorProto_number proto = Some (upb_FieldDef_Number f) /\
  FieldDescriptorProto_label proto = Some (upb_FieldDef_Label f) /\
  FieldDescriptorProto_type proto = Some (upb_FieldDef_Type f) /\
  FieldDescriptorProto_json_name proto =
    (if upb_FieldDef_HasJsonName f
     then Some (arena_view (upb_FieldDef_JsonName f)) else None) /\
  (is_Some (FieldDescriptorProto_extendee proto) <->
   upb_FieldDef_IsExtension f = true) /\
  (is_Some (FieldDescriptorProto_default_value proto) <->
   upb_FieldDef_HasDefault f = true) /\
  FieldDescriptorProto_oneof_index proto = upb_FieldDef_ContainingOneof f /\
  FieldDescriptorProto_proto3_optional proto =
    (if _upb_FieldDef_IsProto3Optional f then Some true else None) /\
  FieldDescriptorProto_options proto =
    (if upb_FieldDef_HasOptions f then Some (upb_FieldDef_Options f) else None).
Proof.
  intros H. unfold fielddef_toproto in H. inv_Done H. inv_slots. subst. cbn.
  repeat match goal with
  | H : when _ _ _ = Done _ _ |- _ => apply when_Done_inv in H
  end.
  repeat split; try reflexivity;
    repeat match goal with
    | H : if ?c then _ else _ |- _ => destruct c
    end;
    repeat match goal with
    | H : exists _, _ /\ _ = Some _ |- _ => destruct H as (? & _ & ->)
    | H : _ = None /\ _ |- _ => destruct H as [-> _]
    end;
    intros; solve [reflexivity | eauto | discriminate
                  | match goal with H : is_Some None |- _ => now destruct H end].
Qed.

Lemma fielddef_optional_slots_witness :
  fielddef_toproto true field_x [] = Done field_x_proto [] /\
  FieldDescriptorProto_json_name field_x_proto = None /\
  FieldDescriptorProto_oneof_index field_x_proto = None /\
  (is_Some (FieldDescriptorProto_default_value field_x_proto) <->
   upb_FieldDef_HasDefault field_x = true).
Proof.
  split; [reflexivity|].
  destruct (fielddef_optional_slots true field_x [] [] field_x_proto eq_refl)
    as (_ & _ & _ & _ & Hjson & _ & Hdef & Honeof & _).
  repeat split; solve [assumption | apply Hdef].
Defined.

(** A converted method carries its name and the qualified full names of
    its input and output messages; a streaming flag is emitted only when
    it is set, never as [false]. *)
Theorem methoddef_slots (m : upb_MethodDef) (a a' : upb_Arena)
  (proto : MethodDescriptorProto) :
  methoddef_toproto m a = Done proto a' ->
  MethodDescriptorProto_name proto = Some (arena_view (upb_MethodDef_Name m)) /\
  MethodDescriptorProto_input_type proto =
    Some {| data_storage := InArena;
            data := "."%byte :: list_byte_of_string (upb_MethodDef_InputType m) |} /\
  MethodDescriptorProto_output_type proto =
    Some {| data_storage := InArena;
            data := "."%byte :: list_byte_of_string (upb_MethodDef_OutputType m) |} /\
  (MethodDescriptorProto_client_streaming proto = Some true <->
   upb_MethodDef_ClientStreaming m = true) /\
  (MethodDescriptorProto_server_streaming proto = Some true <->
   upb_MethodDef_ServerStreaming m = true) /\
  MethodDescriptorProto_client_streaming proto <> Some false /\
  MethodDescriptorProto_server_streaming proto <> Some false /\
  MethodDescriptorProto_options proto =
    (if upb_MethodDef_HasOptions m then Some (upb_MethodDef_Options m) else None).
Proof.
  intros H. unfold methoddef_toproto in H. inv_Done H. inv_slots. subst. cbn.
  destruct (upb_MethodDef_ClientStreaming m), (upb_MethodDef_ServerStreaming m);
    repeat split; congruence.
Qed.

Lemma methoddef_slots_witness :
  exists proto,
    methoddef_toproto method_Get [] = Done proto [] /\
    MethodDescriptorProto_input_type proto = Some (arena_view ".a.b.M") /\
    MethodDescriptorProto_client_streaming proto <> Some false.
Proof.
  eexists. split; [vm_compute; reflexivity|].
  destruct (methoddef_slots method_Get [] [] _ eq_refl)
    as (_ & Hin & _ & _ & _ & Hc & _).
  split; [exact Hin | exact Hc].
Defined.

(** ** Storage of the strings *)

Lemma default_string_in_arena (sgn : bool) (f : upb_FieldDef) (a a' : upb_Arena)
  (v : upb_StringView) :
  default_string sgn f a = Done v a' -> in_arena v.
Proof.
  unfold default_string, default_string_with, in_arena.
  assert (Hs : forall s, strviewdup s a = Done v a' -> data_storage v = InArena)
    by (intros s H; apply strviewdup_Done_inv in H; now subst).
  assert (Hp : forall text, printf_dup text a = Done v a' -> data_storage v = InArena).
  { intros text. unfold printf_dup, bind, upb_Arena_Malloc, CHK_OOM, ret, raise.
    destruct (_ <? _)%nat, a as [|[] ?]; intros [=]; now subst. }
  destruct (default_special _ _); [apply Hs|].
  destruct (upb_FieldDef_CType f); try apply Hs; try apply Hp.
  - destruct (upb_FieldDef_EnumSubDef f) as [e|]; [|discriminate].
    destruct (upb_EnumDef_FindValueByNumber e _); [apply Hs | discriminate].
  - discriminate.
  - intros H. apply strviewdup2_Done_inv in H. now subst.
  - intros H. apply default_bytes_Done_inv in H. now subst.
Qed.

Lemma Forall_opt_list {B} (Q : B -> Prop) (o : option B) :
  (forall x, o = Some x -> Q x) -> Forall Q (opt_list o).
Proof. destruct o; cbn; auto. Qed.

Lemma Forall_flat_map_intro {B C} (Q : C -> Prop) (g : B -> list C) (l : list B) :
  Forall (fun x => Forall Q (g x)) l -> Forall Q (flat_map g l).
Proof.
  induction 1 as [|x l Hx _ IH]; cbn; [constructor | now apply Forall_app].
Qed.

(** What holds of every conversion of a child holds of the filled
    slots. *)
Lemma slots_hold_filled {A B} (conv : A -> M B) (children : list A) (out : slots B)
  (Q : B -> Prop) :
  slots_hold conv children out ->
  Forall (fun child => forall a y a', conv child a = Done y a' -> Q y) children ->
  Forall Q (filled out).
Proof.
  intros [Hlen Hslots] Hconv. unfold filled. apply Forall_flat_map_intro.
  apply Forall_lookup. intros i s Hs. apply Forall_opt_list. intros y ->.
  destruct (children !! i) as [child|] eqn:Hchild.
  - destruct (Hslots i child Hchild) as (y' & a1 & a2 & Hy' & Hout).
    rewrite Hs in Hout. injection Hout as <-.
    rewrite Forall_lookup in Hconv. eapply Hconv; eauto.
  - apply lookup_ge_None in Hchild. apply lookup_lt_Some in Hs. lia.
Qed.

Lemma qualified_in_arena (def : option string) (a a' : upb_Arena)
  (v : upb_StringView) :
  (m <- full_name_of def ;; qual_dup m) a = Done v a' -> in_arena v.
Proof. intros H. inv_Done H. inv_slots. now subst. Qed.

Lemma when_in_arena (cond : bool) (m : M upb_StringView) (a a' : upb_Arena)
  (o : option upb_StringView) :
  (forall a a' v, m a = Done v a' -> in_arena v) ->
  when cond m a = Done o a' -> forall v, o = Some v -> in_arena v.
Proof.
  intros Hm H v ->. apply when_Done_inv in H. destruct cond.
  - destruct H as (w & Hw & [= <-]). eauto.
  - now destruct H.
Qed.

Lemma fielddef_strings_in_arena (sgn : bool) (f : upb_FieldDef) (a a' : upb_Arena)
  (proto : FieldDescriptorProto) :
  fielddef_toproto sgn f a = Done proto a' -> Forall in_arena (field_strings proto).
Proof.
  intros H. unfold fielddef_toproto in H. inv_Done H. unfold field_strings.
  cbn [FieldDescriptorProto_name FieldDescriptorProto_json_name
       FieldDescriptorProto_type_name FieldDescriptorProto_extendee
       FieldDescriptorProto_default_value].
  match goal with
  | Ht : (if upb_FieldDef_IsSubMessage f then _ else _) _ = Done _ _ |- _ =>
      rename Ht into Htype
  end.
  repeat apply Forall_app_2; apply Forall_opt_list.
  - intros v [= <-]. inv_slots. now subst.
  - eapply when_in_arena; [|eassumption].
    intros b b' v Hv. apply strviewdup_Done_inv in Hv. now subst.
  - intros v ->. destruct (upb_FieldDef_IsSubMessage f).
    + apply bind_Done_inv in Htype as (m & b & Hm & Htype).
      apply bind_Done_inv in Htype as (s & b' & Hs & [= <- _]).
      apply qual_dup_Done_inv in Hs. now subst.
    + destruct (upb_FieldDef_CType f); try discriminate Htype.
      apply bind_Done_inv in Htype as (m & b & Hm & Htype).
      apply bind_Done_inv in Htype as (s & b' & Hs & [= <- _]).
      apply qual_dup_Done_inv in Hs. now subst.
  - eapply when_in_arena; [|eassumption]. intros b b' v. apply qualified_in_arena.
  - eapply when_in_arena; [|eassumption]. intros b b' v. apply default_string_in_arena.
Qed.

Lemma msg_strings_unfold (p : DescriptorProto) :
  msg_strings p =
  opt_list (DescriptorProto_name p)
    ++ flat_map field_strings (filled (DescriptorProto_field p))
    ++ flat_map oneof_strings (filled (DescriptorProto_oneof_decl p))
    ++ flat_map msg_strings (filled (DescriptorProto_nested_type p))
    ++ flat_map enum_strings (filled (DescriptorProto_enum_type p))
    ++ flat_map field_strings (filled (DescriptorProto_extension p)).
Proof.
  destruct p as [name fields oneofs nested enums exts xr rr rn o].
  cbn [msg_strings DescriptorProto_name DescriptorProto_field
       DescriptorProto_oneof_decl DescriptorProto_nested_type
       DescriptorProto_enum_type DescriptorProto_extension].
  do 3 f_equal. f_equal.
  induction nested as [|[child|] rest IH]; [reflexivity| |]; cbn.
  - f_equal. exact IH.
  - exact IH.
Qed.

Lemma Forall_conv {A B} (conv : A -> M B) (Q : B -> Prop) (l : list A) :
  (forall child a y a', conv child a = Done y a' -> Q y) ->
  Forall (fun child => forall a y a', conv child a = Done y a' -> Q y) l.
Proof. intros H. apply Forall_true. intros child. apply H. Qed.

Lemma oneofdef_strings_in_arena (o : upb_OneofDef) (a : upb_Arena)
  (proto : OneofDescriptorProto) (a' : upb_Arena) :
  oneofdef_toproto o a = Done proto a' -> Forall in_arena (oneof_strings proto).
Proof.
  intros H. unfold oneofdef_toproto in H. inv_Done H. inv_slots. subst.
  repeat constructor.
Qed.

Lemma enumvaldef_strings_in_arena (e : upb_EnumValueDef) (a : upb_Arena)
  (proto : EnumValueDescriptorProto) (a' : upb_Arena) :
  enumvaldef_toproto e a = Done proto a' ->
  Forall in_arena (enumvalue_strings proto).
Proof.
  intros H. unfold enumvaldef_toproto in H. inv_Done H. inv_slots. subst.
  repeat constructor.
Qed.

Lemma methoddef_strings_in_arena (m : upb_MethodDef) (a : upb_Arena)
  (proto : MethodDescriptorProto) (a' : upb_Arena) :
  methoddef_toproto m a = Done proto a' -> Forall in_arena (method_strings proto).
Proof.
  intros H. unfold methoddef_toproto in H. inv_Done H. inv_slots. subst.
  repeat constructor.
Qed.

Lemma enumdef_strings_in_arena (e : upb_EnumDef) (a : upb_Arena)
  (proto : EnumDescriptorProto) (a' : upb_Arena) :
  enumdef_toproto e a = Done proto a' -> Forall in_arena (enum_strings proto).
Proof.
  intros H. pose proof (enumdef_toproto_slots e a a' proto H) as (Hvals & _).
  unfold enumdef_toproto in H. inv_Done H. inv_slots. subst.
  unfold enum_strings. cbn [EnumDescriptorProto_name EnumDescriptorProto_value] in *.
  apply Forall_app_2; [repeat constructor|].
  apply Forall_flat_map_intro.
  apply (slots_hold_filled _ _ _ _ Hvals), Forall_conv.
  intros child b y b'. apply enumvaldef_strings_in_arena.
Qed.

Lemma servicedef_strings_in_arena (s : upb_ServiceDef) (a : upb_Arena)
  (proto : ServiceDescriptorProto) (a' : upb_Arena) :
  servicedef_toproto s a = Done proto a' -> Forall in_arena (service_strings proto).
Proof.
  intros H. pose proof (servicedef_toproto_slots s a a' proto H) as Hmethods.
  unfold servicedef_toproto in H. inv_Done H. inv_slots. subst.
  unfold service_strings.
  cbn [ServiceDescriptorProto_name ServiceDescriptorProto_method] in *.
  apply Forall_app_2; [repeat constructor|].
  apply Forall_flat_map_intro.
  apply (slots_hold_filled _ _ _ _ Hmethods), Forall_conv.
  intros child b y b'. apply methoddef_strings_in_arena.
Qed.

Lemma msgdef_strings_in_arena (sgn : bool) (m : upb_MessageDef) :
  forall a proto a',
  msgdef_toproto sgn m a = Done proto a' -> Forall in_arena (msg_strings proto).
Proof.
  induction m as [m IH] using upb_MessageDef_nested_ind. intros a proto a' H.
  pose proof (msgdef_toproto_slots sgn m a a' proto H)
    as (Hf & Ho & Hn & He & Hx & _).
  rewrite msgdef_toproto_unfold in H. inv_Done H. inv_slots. subst.
  rewrite msg_strings_unfold.
  cbn [DescriptorProto_name DescriptorProto_field DescriptorProto_oneof_decl
       DescriptorProto_nested_type DescriptorProto_enum_type
       DescriptorProto_extension] in *.
  repeat apply Forall_app_2; [repeat constructor|..];
    apply Forall_flat_map_intro.
  - apply (slots_hold_filled _ _ _ _ Hf), Forall_conv.
    intros child b y b'. apply fielddef_strings_in_arena.
  - apply (slots_hold_filled _ _ _ _ Ho), Forall_conv.
    intros child b y b'. apply oneofdef_strings_in_arena.
  - apply (slots_hold_filled _ _ _ _ Hn). exact IH.
  - apply (slots_hold_filled _ _ _ _ He), Forall_conv.
    intros child b y b'. apply enumdef_strings_in_arena.
  - apply (slots_hold_filled _ _ _ _ Hx), Forall_conv.
    intros child b y b'. apply fielddef_strings_in_arena.
Qed.

(** Every string of a proto returned for a file (the names, json names,
    type names, extendees, default values, package, syntax and dependency
    names of the file and of all protos in it), reserved names apart, is
    stored in the arena: none points into the source model. *)
Theorem file_strings_in_arena (sgn : bool) (f : upb_FileDef) (a : upb_Arena)
  (proto : FileDescriptorProto) :
  upb_FileDef_ToProto sgn f a = Returned (Some proto) ->
  Forall in_arena (file_strings proto).
Proof.
  unfold upb_FileDef_ToProto, upb_ToProto_ConvertFileDef, setjmp_return.
  destruct (filedef_toproto sgn f a) as [y a'| |] eqn:H; intros [= <-].
  pose proof (filedef_toproto_slots sgn f a a' y H)
    as (Hd & _ & _ & Hm & He & Hs & Hx).
  unfold filedef_toproto in H. inv_Done H.
  match goal with
  | Hp : (match upb_FileDef_Package f with Some _ => _ | None => _ end) _ = Done _ _,
    Hy : (match upb_FileDef_Syntax f with kUpb_Syntax_Proto3 => _ | _ => _ end) _ = Done _ _
    |- _ => rename Hp into Hpackage; rename Hy into Hsyntax
  end.
  unfold file_strings.
  cbn [FileDescriptorProto_name FileDescriptorProto_package
       FileDescriptorProto_syntax FileDescriptorProto_dependency
       FileDescriptorProto_message_type FileDescriptorProto_enum_type
       FileDescriptorProto_service FileDescriptorProto_extension] in *.
  repeat apply Forall_app_2.
  - apply Forall_opt_list. intros v [= <-]. inv_slots. now subst.
  - apply Forall_opt_list.
    destruct (upb_FileDef_Package f) as [package|].
    + eapply when_in_arena; [|eassumption].
      intros b b' v Hv. apply strviewdup_Done_inv in Hv. now subst.
    + injection Hpackage as <- _. discriminate.
  - apply Forall_opt_list. intros v ->.
    destruct (upb_FileDef_Syntax f); try discriminate Hsyntax.
    apply bind_Done_inv in Hsyntax as (s & b & Hs' & [= <- _]).
    apply strviewdup_Done_inv in Hs'. now subst.
  - apply (slots_hold_filled _ _ _ _ Hd), Forall_conv.
    intros child b y b' Hy. apply strviewdup_Done_inv in Hy. now subst.
  - apply Forall_flat_map_intro, (slots_hold_filled _ _ _ _ Hm), Forall_conv.
    intros child. apply msgdef_strings_in_arena.
  - apply Forall_flat_map_intro, (slots_hold_filled _ _ _ _ He), Forall_conv.
    intros child b y b'. apply enumdef_strings_in_arena.
  - apply Forall_flat_map_intro, (slots_hold_filled _ _ _ _ Hs), Forall_conv.
    intros child b y b'. apply servicedef_strings_in_arena.
  - apply Forall_flat_map_intro, (slots_hold_filled _ _ _ _ Hx), Forall_conv.
    intros child b y b'. apply fielddef_strings_in_arena.
Qed.

Lemma file_strings_in_arena_witness :
  exists proto,
    upb_FileDef_ToProto true file_ab [] = Returned (Some proto) /\
    Forall in_arena (file_strings proto).
Proof.
  eexists. split; [vm_compute; reflexivity|].
  exact (file_strings_in_arena true file_ab [] _ eq_refl).
Defined.

(** Every string of a proto returned for a message, reserved names apart,
    is stored in the arena, in the message and in all messages nested in
    it. *)
Theorem message_strings_in_arena (sgn : bool) (m : upb_MessageDef) (a : upb_Arena)
  (proto : DescriptorProto) :
  upb_MessageDef_ToProto sgn m a = Returned (Some proto) ->
  Forall in_arena (msg_strings proto).
Proof.
  unfold upb_MessageDef_ToProto, upb_ToProto_ConvertMessageDef, setjmp_return.
  destruct (msgdef_toproto sgn m a) as [y a'| |] eqn:H; intros [= <-].
  eapply msgdef_strings_in_arena; eassumption.
Qed.

Lemma message_strings_in_arena_witness :
  upb_MessageDef_ToProto true message_M []
  = Returned (Some (message_proto "M" [Some field_x_proto])) /\
  Forall in_arena (msg_strings (message_proto "M" [Some field_x_proto])).
Proof.
  split; [reflexivity|].
  exact (message_strings_in_arena true message_M [] _ eq_refl).
Defined.

(** ** The alphabet of the escaped text *)

(** The escaped text holds only bytes from 0x20 to 0x7f: no control
    character below 0x20 and no byte with the high bit set is left in
    it. *)
Theorem default_bytes_text_is_ascii (sgn : bool) (val v : upb_StringView)
  (a a' : upb_Arena) :
  default_bytes sgn val a = Done v a' ->
  Forall (fun c => 0x20 <= uchar_val c <= 0x7f) (data v).
Proof.
  intros H. apply default_bytes_Done_inv in H as ->. cbn [data].
  pose proof (escape_bytes_spec_range (data val)) as Hr.
  rewrite forallb_forall in Hr. apply Forall_forall. intros c Hc.
  apply list_elem_of_In, Hr, andb_prop in Hc as [H1 H2].
  apply Z.leb_le in H1, H2. lia.
Qed.

Lemma default_bytes_text_is_ascii_witness :
  default_bytes true {| data_storage := InDefPool; data := [x00; xff] |} []
  = Done {| data_storage := InArena;
            data := [x5c; "0"; "0"; "0"; x5c; "3"; "7"; "7"]%byte |} [] /\
  Forall (fun c => 0x20 <= uchar_val c <= 0x7f)
    [x5c; "0"; "0"; "0"; x5c; "3"; "7"; "7"]%byte.
Proof.
  assert (H : default_bytes true {| data_storage := InDefPool; data := [x00; xff] |} []
    = Done {| data_storage := InArena;
              data := [x5c; "0"; "0"; "0"; x5c; "3"; "7"; "7"]%byte |} [])
    by reflexivity.
  split; [exact H|]. exact (default_bytes_text_is_ascii _ _ _ _ _ H).
Defined.

(** ** Reserved names *)

(** The reserved names of every converted enum and message are not
    copied: slot [i] holds the very view the def hands out for index [i],
    which points into the source model. *)
Theorem reserved_names_alias_source (sgn : bool) (a : upb_Arena) :
  (forall e proto, upb_EnumDef_ToProto e a = Returned (Some proto) ->
     forall i v, upb_EnumDef_ReservedName e i = Some v ->
       EnumDescriptorProto_reserved_name proto !! i = Some (Some v) /\
       data_storage v = InDefPool) /\
  (forall m proto, upb_MessageDef_ToProto sgn m a = Returned (Some proto) ->
     forall i v, upb_MessageDef_ReservedName m i = Some v ->
       DescriptorProto_reserved_name proto !! i = Some (Some v) /\
       data_storage v = InDefPool).
Proof.
  split.
  - intros e proto.
    unfold upb_EnumDef_ToProto, upb_ToProto_ConvertEnumDef, setjmp_return.
    destruct (enumdef_toproto e a) as [y a'| |] eqn:H; intros [= <-].
    apply (reserved_name_slots (upb_EnumDef_ReservedNames e)).
    now destruct (enumdef_toproto_slots e a a' y H) as (_ & _ & Hnames).
  - intros m proto.
    unfold upb_MessageDef_ToProto, upb_ToProto_ConvertMessageDef, setjmp_return.
    destruct (msgdef_toproto sgn m a) as [y a'| |] eqn:H; intros [= <-].
    apply (reserved_name_slots (upb_MessageDef_ReservedNames m)).
    destruct (msgdef_toproto_slots sgn m a a' y H)
      as (_ & _ & _ & _ & _ & _ & _ & Hnames).
    exact Hnames.
Qed.

Lemma reserved_names_alias_source_witness :
  exists proto,
    upb_EnumDef_ToProto enum_E [] = Returned (Some proto) /\
    EnumDescriptorProto_reserved_name proto !! 0%nat
    = Some (Some (reserved_name_view (list_byte_of_string "OLD"))).
Proof.
  eexists. split; [vm_compute; reflexivity|].
  exact (proj1 (proj1 (reserved_names_alias_source true []) enum_E _ eq_refl
                  0%nat (reserved_name_view (list_byte_of_string "OLD")) eq_refl)).
Defined.

(** ** Defaults that are not numbers *)

(** The text of a bool default is [true] or [false]; of a string default
    the bytes of the default, unchanged; of an enum default the name of a
    value of the enum sub-def that has the default's number. *)
Theorem default_string_text (sgn : bool) (f : upb_FieldDef) (a a' : upb_Arena)
  (v : upb_StringView) :
  default_string sgn f a = Done v a' ->
  let d := upb_FieldDef_Default f in
  (upb_FieldDef_CType f = kUpb_CType_Bool ->
   data v = list_byte_of_string (if bool_val d then "true" else "false")) /\
  (upb_FieldDef_CType f = kUpb_CType_String -> data v = data (str_val d)) /\
  (upb_FieldDef_CType f = kUpb_CType_Enum ->
   exists e ev, upb_FieldDef_EnumSubDef f = Some e /\
     In ev (upb_EnumDef_Values e) /\
     upb_EnumValueDef_Number ev = int32_val d /\
     data v = list_byte_of_string (upb_EnumValueDef_Name ev)).
Proof.
  intros H d. subst d. unfold default_string, default_string_with in H.
  repeat split; intros Hkind; rewrite Hkind in H; cbn [default_special] in H.
  - apply strviewdup_Done_inv in H. now subst.
  - apply strviewdup2_Done_inv in H. now subst.
  - destruct (upb_FieldDef_EnumSubDef f) as [e|]; [|discriminate].
    destruct (upb_EnumDef_FindValueByNumber e _) as [ev|] eqn:Efind; [|discriminate].
    apply strviewdup_Done_inv in H. subst. exists e, ev.
    unfold upb_EnumDef_FindValueByNumber in Efind.
    apply find_some in Efind as [Hin Hnum]. apply Z.eqb_eq in Hnum.
    repeat split; assumption.
Qed.

Lemma default_string_text_witness :
  exists v,
    default_string true
      (field_def "flag" 5 8 kUpb_CType_Bool None (Some (int32_value 1))) []
    = Done v [] /\
    data v = list_byte_of_string "true".
Proof.
  eexists. split; [vm_compute; reflexivity|].
  exact (proj1 (default_string_text true
                  (field_def "flag" 5 8 kUpb_CType_Bool None (Some (int32_value 1)))
                  [] [] _ eq_refl) eq_refl).
Defined.

(** ** What a converted field was *)

Lemma faults_within_type_name (f : upb_FieldDef) :
  faults_within null_or_unreachable
    (if upb_FieldDef_IsSubMessage f then
       m <- full_name_of (upb_FieldDef_MessageSubDef f) ;;
       s <- qual_dup m ;;
       ret (Some s)
     else
       match upb_FieldDef_CType f with
       | kUpb_CType_Enum =>
           e <- full_name_of (upb_EnumDef_FullName <$> upb_FieldDef_EnumSubDef f) ;;
           s <- qual_dup e ;;
           ret (Some s)
       | _ => ret None
       end).
Proof.
  assert (null_or_unreachable NullDeref) by now left.
  destruct (upb_FieldDef_IsSubMessage f).
  - faults. now apply faults_within_full_name_of.
  - destruct (upb_FieldDef_CType f); faults. now apply faults_within_full_name_of.
Qed.

Lemma faults_within_extendee (f : upb_FieldDef) :
  faults_within null_or_unreachable
    (when (upb_FieldDef_IsExtension f)
       (m <- full_name_of (upb_FieldDef_ContainingType f) ;; qual_dup m)).
Proof.
  apply faults_within_when. faults. apply faults_within_full_name_of. now left.
Qed.

(** A field whose links are not resolved, or whose default is of message
    kind or is no value of its enum, is never converted. *)
Lemma broken_field_never_finishes (sgn : bool) (f : upb_FieldDef) :
  (upb_FieldDef_IsSubMessage f = true /\ upb_FieldDef_MessageSubDef f = None) \/
  (upb_FieldDef_IsSubMessage f = false /\
   upb_FieldDef_CType f = kUpb_CType_Enum /\ upb_FieldDef_EnumSubDef f = None) \/
  (upb_FieldDef_IsExtension f = true /\ upb_FieldDef_ContainingType f = None) \/
  (upb_FieldDef_HasDefault f = true /\ upb_FieldDef_CType f = kUpb_CType_Message) \/
  (upb_FieldDef_HasDefault f = true /\ upb_FieldDef_CType f = kUpb_CType_Enum /\
   forall e, upb_FieldDef_EnumSubDef f = Some e ->
     upb_EnumDef_FindValueByNumber e (int32_val (upb_FieldDef_Default f)) = None) ->
  never_finishes null_or_unreachable (fielddef_toproto sgn f).
Proof.
  intros Hbroken. unfold fielddef_toproto.
  apply never_finishes_bind_r; [apply faults_within_new_proto | intros _].
  apply never_finishes_bind_r; [apply faults_within_strviewdup | intros name].
  apply never_finishes_bind_r;
    [apply faults_within_when, faults_within_strviewdup | intros json_name].
  destruct Hbroken as [[Hsub Hnull] | Hbroken].
  { apply never_finishes_bind_l. rewrite Hsub, Hnull.
    apply never_finishes_bind_l, never_finishes_raise. now left. }
  destruct Hbroken as [(Hsub & Hkind & Hnull) | Hbroken].
  { apply never_finishes_bind_l. rewrite Hsub, Hkind, Hnull.
    apply never_finishes_bind_l, never_finishes_raise. now left. }
  apply never_finishes_bind_r; [apply faults_within_type_name | intros type_name].
  destruct Hbroken as [[Hisx Hnull] | Hbroken].
  { apply never_finishes_bind_l. rewrite Hisx, Hnull. unfold when.
    apply never_finishes_bind_l, never_finishes_bind_l, never_finishes_raise.
    now left. }
  apply never_finishes_bind_r; [apply faults_within_extendee | intros extendee].
  apply never_finishes_bind_l.
  destruct Hbroken as [[Hhas Hkind] | (Hhas & Hkind & Hfind)];
    rewrite Hhas; unfold when; apply never_finishes_bind_l;
    unfold default_string, default_string_with; rewrite Hkind;
    cbn [default_special].
  - apply never_finishes_raise. now right.
  - destruct (upb_FieldDef_EnumSubDef f) as [e|];
      [rewrite (Hfind e eq_refl)|]; apply never_finishes_raise; now left.
Qed.

(** A field is converted only if the caller kept the contract: whenever
    [fielddef_toproto] returns a proto, the links it followed were
    resolved, and a default, if the field has one, is not of message kind
    and, for an enum, names a value of the enum.  A field that breaks the
    contract in one of these points is never converted: the entry point
    returns null, which it does only after a failed allocator call, or it
    follows a null link or reaches [UPB_UNREACHABLE]. *)
Theorem converted_field_kept_contract (sgn : bool) (f : upb_FieldDef) (a : upb_Arena) :
  (forall proto : FieldDescriptorProto,
   upb_FieldDef_ToProto sgn f a = Returned (Some proto) ->
   (upb_FieldDef_IsSubMessage f = true -> is_Some (upb_FieldDef_MessageSubDef f)) /\
   (upb_FieldDef_IsSubMessage f = false ->
    upb_FieldDef_CType f = kUpb_CType_Enum -> is_Some (upb_FieldDef_EnumSubDef f)) /\
   (upb_FieldDef_IsExtension f = true -> is_Some (upb_FieldDef_ContainingType f)) /\
   (upb_FieldDef_HasDefault f = true ->
    upb_FieldDef_CType f <> kUpb_CType_Message /\
    (upb_FieldDef_CType f = kUpb_CType_Enum ->
     exists e, upb_FieldDef_EnumSubDef f = Some e /\
       is_Some (upb_EnumDef_FindValueByNumber e
                  (int32_val (upb_FieldDef_Default f)))))) /\
  ((upb_FieldDef_IsSubMessage f = true /\ upb_FieldDef_MessageSubDef f = None) \/
   (upb_FieldDef_IsSubMessage f = false /\
    upb_FieldDef_CType f = kUpb_CType_Enum /\ upb_FieldDef_EnumSubDef f = None) \/
   (upb_FieldDef_IsExtension f = true /\ upb_FieldDef_ContainingType f = None) \/
   (upb_FieldDef_HasDefault f = true /\ upb_FieldDef_CType f = kUpb_CType_Message) \/
   (upb_FieldDef_HasDefault f = true /\ upb_FieldDef_CType f = kUpb_CType_Enum /\
    forall e, upb_FieldDef_EnumSubDef f = Some e ->
      upb_EnumDef_FindValueByNumber e (int32_val (upb_FieldDef_Default f)) = None) ->
   (upb_FieldDef_ToProto sgn f a = Returned None /\ In false a) \/
   upb_FieldDef_ToProto sgn f a = Undefined NullDeref \/
   upb_FieldDef_ToProto sgn f a = Undefined Unreachable).
Proof.
  split.
  - intros proto.
    unfold upb_FieldDef_ToProto, upb_ToProto_ConvertFieldDef, setjmp_return.
    destruct (fielddef_toproto sgn f a) as [y a'| |] eqn:H; intros [= <-].
    unfold fielddef_toproto in H. inv_Done H.
    match goal with
    | Ht : (if upb_FieldDef_IsSubMessage f then _ else _) _ = Done _ _,
      He : when (upb_FieldDef_IsExtension f) _ _ = Done _ _,
      Hd : when (upb_FieldDef_HasDefault f) _ _ = Done _ _ |- _ =>
        rename Ht into Htype; rename He into Hext; rename Hd into Hdef
    end.
    apply when_Done_inv in Hext, Hdef.
    split; [|split; [|split]].
    + intros Hsub. rewrite Hsub in Htype.
      apply bind_Done_inv in Htype as (m & b & Hm & _).
      apply full_name_of_Done_inv in Hm. rewrite Hm. eauto.
    + intros Hsub Hkind. rewrite Hsub, Hkind in Htype.
      apply bind_Done_inv in Htype as (m & b & Hm & _).
      apply full_name_of_Done_inv in Hm.
      destruct (upb_FieldDef_EnumSubDef f); [eauto | discriminate].
    + intros Hisx. rewrite Hisx in Hext. destruct Hext as (w & Hw & _).
      apply bind_Done_inv in Hw as (m & b & Hm & _).
      apply full_name_of_Done_inv in Hm. rewrite Hm. eauto.
    + intros Hhas. rewrite Hhas in Hdef. destruct Hdef as (w & Hw & _).
      unfold default_string, default_string_with in Hw. split.
      * intros Hkind. rewrite Hkind in Hw. discriminate Hw.
      * intros Hkind. rewrite Hkind in Hw. cbn [default_special] in Hw.
        destruct (upb_FieldDef_EnumSubDef f) as [e|]; [|discriminate].
        exists e. split; [reflexivity|].
        destruct (upb_EnumDef_FindValueByNumber e _); [eauto | discriminate].
  - intros Hbroken.
    pose proof (broken_field_never_finishes sgn f Hbroken a) as Hnever.
    pose proof (alloc_sound_fielddef_toproto sgn f a) as Hsound.
    unfold upb_FieldDef_ToProto, upb_ToProto_ConvertFieldDef, setjmp_return.
    destruct (fielddef_toproto sgn f a) as [y a'| |flt].
    + contradiction.
    + left. split; [reflexivity | exact Hsound].
    + right. destruct Hnever as [-> | ->]; [now left | now right].
Qed.

Lemma converted_field_kept_contract_witness :
  upb_FieldDef_ToProto true field_x [] = Returned (Some field_x_proto) /\
  (upb_FieldDef_HasDefault field_x = true ->
   upb_FieldDef_CType field_x <> kUpb_CType_Message) /\
  upb_FieldDef_ToProto true
    (field_def "inner" 4 11 kUpb_CType_Message (Some "a.b.Inner"%string)
       (Some zero_value)) []
  = Undefined Unreachable.
Proof.
  split; [reflexivity|]. split.
  - destruct (proj1 (converted_field_kept_contract true field_x [])
                field_x_proto eq_refl) as (_ & _ & _ & Hd).
    intros H. exact (proj1 (Hd H)).
  - destruct (proj2 (converted_field_kept_contract true
                (field_def "inner" 4 11 kUpb_CType_Message
                   (Some "a.b.Inner"%string) (Some zero_value)) [])
                (or_intror (or_intror (or_intror
                   (or_introl (conj eq_refl eq_refl))))))
      as [[_ []] | [H | H]]; [discriminate H | exact H].
Defined.
